(** * MerchMate: the recompute scheduler and the worker-pool dispatcher

    A shallow embedding of the route scheduler of [OCRProcessor]
    (src/unnamed/part_002) and of [PathfinderUtilityPool]
    (src/src/app/workers/pathfinder-utility.ts).

    Conventions of the embedding.
    - JavaScript numbers that carry measurements ([kp], [distanceSeconds],
      pruning thresholds) are IEEE binary64 values: Rocq's primitive [float].
      [===], [>] and [/] are [PrimFloat.eqb], [PrimFloat.ltb] (flipped) and
      [PrimFloat.div].  Millisecond clock readings are integers ([Z]), slot
      indices and counts are [nat].
    - An object used as a table from slot index to bounty key
      ([{ [index: number]: string }]) is a [list (option string)]: position
      [i] holds [Some b] when the key [i] is present.  [for ... in] and
      [Object.keys] enumerate integer keys in ascending order, which is the
      order of the list.
    - The class is single threaded.  Each method is a function from the
      state before to the state after, together with the effects it emits
      (a warning, a search handed to the pool, a timer armed).  The promise
      started by [launchFindBestIfNeeded] settles later, as an event of its
      own: [onFindBestSettled].
    - One observation tick runs to completion without yielding, so every
      [Date.now()] read inside it is the tick's time stamp [now].
    - Fields that only feed logging, performance counters, the session
      tracker or the run timer are left out of [State]. *)

From Stdlib Require Import ZArith Floats Ascii String List Bool Lia.
From stdpp Require Import base option list gmap strings sorting.

Set Warnings "-inexact-float".
Open Scope string_scope.
Open Scope list_scope.
Open Scope nat_scope.

(** ** Slot tables *)

Abbreviation slots := (list (option string)).

(** [m[i]] *)
Definition slot_get (m : slots) (i : nat) : option string :=
  match m !! i with
  | Some (Some b) => Some b
  | _ => None
  end.

(** [i in m] *)
Definition slot_has (m : slots) (i : nat) : bool :=
  match slot_get m i with Some _ => true | None => false end.

(** [m[i] = b]; a write past the end extends the table. *)
Definition slot_set (m : slots) (i : nat) (b : string) : slots :=
  if decide (i < length m) then <[i := Some b]> m
  else m ++ replicate (i - length m) None ++ [Some b].

(** [delete m[i]] *)
Definition slot_delete (m : slots) (i : nat) : slots := <[i := None]> m.

(** [Object.entries(m)], ascending by key. *)
Fixpoint slot_entries_from (i : nat) (m : slots) : list (nat * string) :=
  match m with
  | [] => []
  | Some b :: m' => (i, b) :: slot_entries_from (S i) m'
  | None :: m' => slot_entries_from (S i) m'
  end.

Definition slot_entries (m : slots) : list (nat * string) := slot_entries_from 0 m.

(** [Object.keys(m).map(Number)] *)
Definition slot_keys (m : slots) : list nat := (slot_entries m).*1.

(** [Object.values(m)] *)
Definition slot_values (m : slots) : list string := (slot_entries m).*2.

(** [Object.keys(m).length] *)
Definition slot_count (m : slots) : nat := length (slot_entries m).

(** A string is truthy unless it is empty; [undefined] is falsy. *)
Definition truthy (o : option string) : bool :=
  match o with
  | Some b => negb (String.eqb b "")
  | None => false
  end.

(** [l.filter(b => b === bounty).length] *)
Definition count_of (bounty : string) (l : list string) : nat :=
  length (filter (λ b, b = bounty) l).

(** [l.includes(bounty)] *)
Definition includes (l : list string) (bounty : string) : bool :=
  bool_decide (bounty ∈ l).

(** ** Signatures *)

(** [Array.prototype.sort] with the default comparator orders strings by
    code unit; the result is the insertion sort below for every stable or
    unstable algorithm, equal keys being equal strings. *)
Fixpoint sort_insert (x : string) (l : list string) : list string :=
  match l with
  | [] => [x]
  | y :: l' => if String.leb x y then x :: l else y :: sort_insert x l'
  end.

Definition sort_strings (l : list string) : list string := foldr sort_insert [] l.

Definition makeAllBountiesSignature (allBounties : list string) : string :=
  String.concat "|" (sort_strings allBounties).

(** [l.slice().sort().join(',')] *)
Definition sortedJoinComma (l : list string) : string :=
  String.concat "," (sort_strings l).

(** ** Route steps and search results (src/unnamed/part_001) *)

Inductive Step :=
| teleport (location : string) (distance : float)
| buy (item location : string) (distance : float)
| sell (item location : string) (distance : float)
| return_ (location : string) (distance : float).

Module FindBestResult.
Record t := mk {
  bounties : list string;
  kp : float;
  actions : list Step;
  distance : float }.
End FindBestResult.

(** The errors [PathfinderUtilityPool] throws, by message. *)
Inductive PoolError :=
| NoCombinationsToEvaluate
| ProcessNotFound (processIdx : nat)
| ProcessTimedOut (timeoutMs : Z)
| ProcessError (message : string)
| NoValidRoutesFound
| TypeError.

(** [maxCombinations] is a count or [Infinity]. *)
Inductive Limit := Finite (n : nat) | Infinity.

Definition Limit_ltb (a b : Limit) : bool :=
  match a, b with
  | Finite x, Finite y => Nat.ltb x y
  | Finite _, Infinity => true
  | Infinity, _ => false
  end.

Module PruningOptions.
Record t := mk {
  maxCombinations : Limit;
  pruningThreshold : float }.
End PruningOptions.

Module InFlightFind.
Record t := mk {
  signature : string;
  startedAtMs : Z }.
End InFlightFind.

(** What [launchFindBestIfNeeded] hands to [computeFindBest]; the pruning
    options are read from the state before the first [await]. *)
Module SearchRequest.
Record t := mk {
  allBounties : list string;
  boardOpen : bool;
  signature : string;
  reason : string;
  pruningOptions : PruningOptions.t }.
End SearchRequest.

Inductive Effect :=
| Warn (what : string)
| Spawn (req : SearchRequest.t)
| ArmDebounce (delayMs : Z)
| AwaitInFlightThenForce.

(** ** Scheduler state: the fields of [OCRProcessor] *)

Record State := mkState {
  activeBounties : slots;
  boardBounties : slots;
  activeDrops : list nat;
  boardPickups : list nat;
  steps : list Step;
  kp : float;
  distanceSeconds : float;
  displaySteps : list Step;
  displayKp : float;
  displayDistanceSeconds : float;
  runCompleted : bool;
  stepIdx : nat;
  prevActiveBounties : slots;
  prevOptimalBounties : list string;
  prevAllBountiesSignature : string;
  prevBoardOpenSignature : bool;
  inFlightFind : option InFlightFind.t;
  launchedAtLeastOnce : bool;
  recentActiveAdds : gmap nat Z;
  lastConsistencyCheck : Z;
  adjustmentDebounceTimer : bool;
  pathfinderTimeoutMs : Z;
  dropGraceMs : Z;
  pathfindingQuality : float;
  forceOptimal : bool }.

Definition consistencyCheckIntervalMs : Z := 30000.
Definition adjustmentDebounceMs : Z := 500.

(** Field assignment.  Each setter rebuilds the record with one field
    replaced; it is derived from the record's eta expansion so that the
    other fields are copied position by position. *)
Definition eta_State (r : State) : State :=
  mkState (activeBounties r) (boardBounties r) (activeDrops r) (boardPickups r)
    (steps r) (kp r) (distanceSeconds r) (displaySteps r) (displayKp r)
    (displayDistanceSeconds r) (runCompleted r) (stepIdx r) (prevActiveBounties r)
    (prevOptimalBounties r) (prevAllBountiesSignature r) (prevBoardOpenSignature r)
    (inFlightFind r) (launchedAtLeastOnce r) (recentActiveAdds r)
    (lastConsistencyCheck r) (adjustmentDebounceTimer r) (pathfinderTimeoutMs r)
    (dropGraceMs r) (pathfindingQuality r) (forceOptimal r).

Ltac field_setter proj :=
  let body := eval cbv delta [eta_State] in eta_State in
  match eval pattern proj in body with
  | ?build _ =>
      let t := eval cbv beta in (fun v => build (fun _ => v)) in
      exact t
  end.

Definition set_activeBounties : slots -> State -> State := ltac:(field_setter activeBounties).
Definition set_boardBounties : slots -> State -> State := ltac:(field_setter boardBounties).
Definition set_activeDrops : list nat -> State -> State := ltac:(field_setter activeDrops).
Definition set_boardPickups : list nat -> State -> State := ltac:(field_setter boardPickups).
Definition set_steps : list Step -> State -> State := ltac:(field_setter steps).
Definition set_kp : float -> State -> State := ltac:(field_setter kp).
Definition set_distanceSeconds : float -> State -> State := ltac:(field_setter distanceSeconds).
Definition set_displaySteps : list Step -> State -> State := ltac:(field_setter displaySteps).
Definition set_displayKp : float -> State -> State := ltac:(field_setter displayKp).
Definition set_displayDistanceSeconds : float -> State -> State :=
  ltac:(field_setter displayDistanceSeconds).
Definition set_runCompleted : bool -> State -> State := ltac:(field_setter runCompleted).
Definition set_stepIdx : nat -> State -> State := ltac:(field_setter stepIdx).
Definition set_prevActiveBounties : slots -> State -> State :=
  ltac:(field_setter prevActiveBounties).
Definition set_prevOptimalBounties : list string -> State -> State :=
  ltac:(field_setter prevOptimalBounties).
Definition set_prevAllBountiesSignature : string -> State -> State :=
  ltac:(field_setter prevAllBountiesSignature).
Definition set_prevBoardOpenSignature : bool -> State -> State :=
  ltac:(field_setter prevBoardOpenSignature).
Definition set_inFlightFind : option InFlightFind.t -> State -> State :=
  ltac:(field_setter inFlightFind).
Definition set_launchedAtLeastOnce : bool -> State -> State :=
  ltac:(field_setter launchedAtLeastOnce).
Definition set_recentActiveAdds : gmap nat Z -> State -> State :=
  ltac:(field_setter recentActiveAdds).
Definition set_lastConsistencyCheck : Z -> State -> State :=
  ltac:(field_setter lastConsistencyCheck).
Definition set_adjustmentDebounceTimer : bool -> State -> State :=
  ltac:(field_setter adjustmentDebounceTimer).
Definition set_pathfindingQuality : float -> State -> State :=
  ltac:(field_setter pathfindingQuality).
Definition set_forceOptimal : bool -> State -> State := ltac:(field_setter forceOptimal).

(** [this.prevOptimalBounties = []; this.kp = 0; this.distanceSeconds = NaN] *)
Definition clearAccepted (s : State) : State :=
  set_distanceSeconds nan (set_kp 0%float (set_prevOptimalBounties [] s)).

(** Sequencing of two methods that both emit effects. *)
Definition andThen (r : State * list Effect) (k : State -> State * list Effect)
  : State * list Effect :=
  let '(s, es) := r in
  let '(s', es') := k s in
  (s', es ++ es').

(** ** computeFindBest: the quality table (lines 409-419) *)

Definition unbounded : PruningOptions.t := PruningOptions.mk Infinity 1.0%float.

Definition qualitySettings (quality : float) : option PruningOptions.t :=
  if (quality =? 1)%float then Some (PruningOptions.mk (Finite 100) 0.90%float)
  else if (quality =? 2)%float then Some (PruningOptions.mk (Finite 200) 0.92%float)
  else if (quality =? 3)%float then Some (PruningOptions.mk (Finite 400) 0.95%float)
  else if (quality =? 4)%float then Some (PruningOptions.mk (Finite 800) 0.98%float)
  else if (quality =? 5)%float then Some (PruningOptions.mk Infinity 1.0%float)
  else None.

Definition pruningOptions (s : State) : PruningOptions.t :=
  if forceOptimal s then unbounded
  else default unbounded (qualitySettings (pathfindingQuality s)).

(** [Math.max(1, Math.min(5, quality))] *)
Definition clampQuality (quality : float) : float :=
  if is_nan quality then nan
  else
    let m := if (quality <? 5)%float then quality else 5%float in
    if (1 <? m)%float then m else 1%float.

Definition setPathfindingQuality (quality : float) (s : State) : State :=
  set_pathfindingQuality (clampQuality quality) s.

(** ** launchFindBestIfNeeded: the synchronous part (lines 470-491, 563) *)

Definition staleWarning : string := "in-flight findBest stale. Clearing and retrying.".

(** Lines 488-495 and 563: the search is handed to [computeFindBest], which
    reads the pruning options at once, and the in-flight record is stored. *)
Definition startFindBest (now : Z) (allBounties : list string) (boardOpen : bool)
    (signature reason : string) (s : State) : State * list Effect :=
  let s := set_launchedAtLeastOnce true s in
  let startedAtMs := now in
  let req := SearchRequest.mk allBounties boardOpen signature reason (pruningOptions s) in
  (set_inFlightFind (Some (InFlightFind.mk signature startedAtMs)) s, [Spawn req]).

Definition launchFindBestIfNeeded (now : Z) (allBounties : list string) (boardOpen : bool)
    (signature reason : string) (s : State) : State * list Effect :=
  match inFlightFind s with
  | Some f =>
      if String.eqb (InFlightFind.signature f) signature then (s, [])
      else
        let ageMs := (now - InFlightFind.startedAtMs f)%Z in
        if (pathfinderTimeoutMs s + 1000 <? ageMs)%Z then
          andThen (set_inFlightFind None s, [Warn staleWarning])
                  (startFindBest now allBounties boardOpen signature reason)
        else (s, [])
  | None => startFindBest now allBounties boardOpen signature reason s
  end.

(** ** The promise body after the search settles (lines 455-467, 497-560) *)

Inductive SearchOutcome :=
| Resolved (optimalResp : FindBestResult.t)
| Rejected (error : PoolError).

Definition newEfficiency (optimalResp : FindBestResult.t) : float :=
  (FindBestResult.kp optimalResp / FindBestResult.distance optimalResp)%float.

Definition currentEfficiency (s : State) : float :=
  if Nat.ltb 0 (length (prevOptimalBounties s)) && (0 <? distanceSeconds s)%float
  then (kp s / distanceSeconds s)%float
  else 0%float.

(** [currentEfficiency === 0 || newEfficiency > currentEfficiency] *)
Definition accepts (s : State) (optimalResp : FindBestResult.t) : bool :=
  (currentEfficiency s =? 0)%float
  || (currentEfficiency s <? newEfficiency optimalResp)%float.

(** Lines 518-535: the actions with every [buy] of an item already held
    removed; [have] is [currentlyHaveItems]. *)
Fixpoint filterSteps (have : gset string) (actions : list Step) : list Step :=
  match actions with
  | [] => []
  | step :: rest =>
      match step with
      | buy item _ _ =>
          if bool_decide (item ∈ have) then filterSteps have rest
          else step :: filterSteps ({[ item ]} ∪ have) rest
      | sell item _ _ => step :: filterSteps (have ∖ {[ item ]}) rest
      | _ => step :: filterSteps have rest
      end
  end.

(** Lines 506-549: the accepting branch. *)
Definition acceptResult (optimalResp : FindBestResult.t) (s : State) : State :=
  let s := set_prevOptimalBounties (FindBestResult.bounties optimalResp) s in
  let s := set_kp (FindBestResult.kp optimalResp) s in
  let s := set_distanceSeconds (FindBestResult.distance optimalResp) s in
  let s :=
    if negb (runCompleted s)
    then set_displayDistanceSeconds (FindBestResult.distance optimalResp)
           (set_displayKp (FindBestResult.kp optimalResp) s)
    else s in
  if Nat.ltb 0 (stepIdx s) && Nat.ltb 0 (length (FindBestResult.actions optimalResp)) then
    let currentlyHaveItems : gset string := list_to_set (slot_values (activeBounties s)) in
    let filteredSteps := filterSteps currentlyHaveItems (FindBestResult.actions optimalResp) in
    let s := set_steps filteredSteps s in
    let s := set_stepIdx 0 s in
    if negb (runCompleted s) then set_displaySteps filteredSteps s else s
  else
    let s := set_steps (FindBestResult.actions optimalResp) s in
    if negb (runCompleted s) then set_displaySteps (FindBestResult.actions optimalResp) s
    else s.

(** Lines 497-553: strict-improvement acceptance. *)
Definition applyResult (optimalResp : FindBestResult.t) (s : State) : State :=
  if accepts s optimalResp then acceptResult optimalResp s else s.

(** The [finally] block of line 559. *)
Definition clearInFlight (signature : string) (s : State) : State :=
  match inFlightFind s with
  | Some f =>
      if String.eqb (InFlightFind.signature f) signature then set_inFlightFind None s else s
  | None => s
  end.

(** [computeFindBest] once the pool's promise has settled (lines 445-467):
    the flag is cleared on both paths; the result is returned, or the error
    thrown again, to the caller. *)
Definition computeFindBest (outcome : SearchOutcome) (s : State) : State :=
  match outcome with
  | Resolved _ => if forceOptimal s then set_forceOptimal false s else s
  | Rejected _ => set_forceOptimal false s
  end.

(** The body of the promise of lines 493-561, resumed when the search
    settles: [try] the acceptance, [catch] keeping the previous state,
    [finally] clearing the in-flight record. *)
Definition onFindBestSettled (signature : string) (outcome : SearchOutcome) (s : State)
  : State :=
  let s := computeFindBest outcome s in
  let s :=
    match outcome with
    | Resolved optimalResp =>
        set_prevAllBountiesSignature signature (applyResult optimalResp s)
    | Rejected _ => s
    end in
  clearInFlight signature s.

(** ** Forced recalculation (lines 188-216) and the debounce timer (1102-1126) *)

Definition doForceOptimalRecalculation (now : Z) (s : State) : State * list Effect :=
  let s := set_forceOptimal true s in
  let s := clearAccepted s in
  let allBounties := slot_values (activeBounties s) ++ slot_values (boardBounties s) in
  if Nat.ltb 0 (length allBounties) then
    let signature := makeAllBountiesSignature allBounties in
    let boardOpen := prevBoardOpenSignature s in
    launchFindBestIfNeeded now allBounties boardOpen signature "forceOptimal" s
  else (set_forceOptimal false s, []).

Definition forceOptimalRecalculation (now : Z) (s : State) : State * list Effect :=
  match inFlightFind s with
  | Some _ => (s, [AwaitInFlightThenForce])
  | None => doForceOptimalRecalculation now s
  end.

Definition scheduleAdjustmentRecalculation (s : State) : State * list Effect :=
  (set_adjustmentDebounceTimer true s, [ArmDebounce adjustmentDebounceMs]).

(** The timer callback of lines 1109-1125. *)
Definition onAdjustmentDebounce (now : Z) (s : State) : State * list Effect :=
  let s := clearAccepted s in
  let allBounties := slot_values (activeBounties s) ++ slot_values (boardBounties s) in
  let r :=
    if Nat.ltb 0 (length allBounties) then
      let signature := makeAllBountiesSignature allBounties in
      launchFindBestIfNeeded now allBounties true signature "adjustmentDebounce" s
    else (s, []) in
  (set_adjustmentDebounceTimer false (fst r), snd r).

(** ** PathfinderUtilityPool.findBest: dispatch and merge (lines 146-253) *)

Module ComboTask.
Record t := mk {
  combo : list string;
  kp : float;
  estimatedEfficiency : float }.
End ComboTask.

Module ComboResult.
Record t := mk {
  combo : list string;
  kp : float;
  actions : list Step;
  distance : float }.
End ComboResult.

(** What happens first after a chunk is posted to a worker: the timer of
    [timeoutMs] fires, or the worker's message with the request's id
    arrives.  Later events find the promise already settled. *)
Inductive WorkerEvent :=
| TimedOut
| Message (ok : bool) (results : option (list ComboResult.t)) (error : option string).

(** What a promise of the pool settles to.  [ResolveList] on the
    single-worker path is the array the source casts to [FindBestResult]. *)
Inductive Settled :=
| ResolveResult (r : FindBestResult.t)
| ResolveList (results : list ComboResult.t)
| Reject (error : PoolError).

Definition toFindBestResult (best : ComboResult.t) : FindBestResult.t :=
  FindBestResult.mk (ComboResult.combo best) (ComboResult.kp best)
    (ComboResult.actions best) (ComboResult.distance best).

(** The message [runOnProcess] posts to a worker (lines 256-265); the
    fields read from the pool's configuration are left out. *)
Module EvaluateChunk.
Record t := mk {
  tasks : list ComboTask.t;
  roundTrip : bool;
  numResults : nat;
  pruningThreshold : float }.
End EvaluateChunk.

Section Pool.
(** [this.maxProcesses]; after [initPool], [this.processes.length]. *)
Variable maxProcesses : nat.
(** The first event after chunk [tasks] is posted to process [processIdx]. *)
Variable respond : nat -> list ComboTask.t -> WorkerEvent.

Definition runOnProcess (tasks : list ComboTask.t) (processIdx : nat) (timeoutMs : Z)
    (returnSingle : bool) : Settled :=
  if negb (Nat.ltb processIdx maxProcesses) then Reject (ProcessNotFound processIdx)
  else
    match respond processIdx tasks with
    | TimedOut =>
        if returnSingle then Reject (ProcessTimedOut timeoutMs) else ResolveList []
    | Message true results _ =>
        match returnSingle, results with
        | true, Some (best :: _) => ResolveResult (toFindBestResult best)
        | _, _ => ResolveList (default [] results)
        end
    | Message false _ error =>
        if returnSingle then
          Reject (ProcessError (if truthy error then default "" error else "Process error"))
        else ResolveList []
    end.

(** [Math.ceil(n / 10)] *)
Definition ceilDiv10 (n : nat) : nat := (n + 9) / 10.

(** Lines 171-174: [chunks[i % numProcesses].push(tasksToProcess[i])]. *)
Definition roundRobin (numProcesses : nat) (tasks : list ComboTask.t)
  : list (list ComboTask.t) :=
  foldl (λ chunks it, alter (λ c, c ++ [it.2]) (it.1 mod numProcesses) chunks)
        (replicate numProcesses []) (imap pair tasks).

(** [Promise.all]: the first rejection, or every resolved list. *)
Fixpoint promiseAll (settled : list Settled) : PoolError + list (list ComboResult.t) :=
  match settled with
  | [] => inr []
  | Reject e :: _ => inl e
  | ResolveList l :: rest =>
      match promiseAll rest with
      | inl e => inl e
      | inr ls => inr (l :: ls)
      end
  | ResolveResult r :: rest =>
      (* not produced with [returnSingle = false] *)
      match promiseAll rest with
      | inl e => inl e
      | inr ls => inr ls
      end
  end.

(** [allResults.sort((a, b) => b.kp / b.distance - a.kp / a.distance)]:
    a stable sort; [y] moves in front of [x] when the comparator is
    positive. *)
Definition compareResults (a b : ComboResult.t) : float :=
  (ComboResult.kp b / ComboResult.distance b
   - ComboResult.kp a / ComboResult.distance a)%float.

Fixpoint insertResult (x : ComboResult.t) (l : list ComboResult.t) : list ComboResult.t :=
  match l with
  | [] => [x]
  | y :: l' => if (0 <? compareResults x y)%float then y :: insertResult x l' else x :: l
  end.

Definition sortResults (l : list ComboResult.t) : list ComboResult.t :=
  foldr insertResult [] l.

Definition shardResults (numProcesses : nat) (tasksToProcess : list ComboTask.t)
    (timeoutMs : Z) : list Settled :=
  imap (λ idx chunk, runOnProcess chunk (idx mod maxProcesses) timeoutMs false)
       (roundRobin numProcesses tasksToProcess).

(** Lines 146-148: [tasksToProcess]. *)
Definition truncate (comboTasks : list ComboTask.t) (options : PruningOptions.t)
  : list ComboTask.t :=
  match PruningOptions.maxCombinations options with
  | Infinity => comboTasks
  | Finite n => take n comboTasks
  end.

(** Lines 146-199, from the ranked [comboTasks] on. *)
Definition findBest (comboTasks : list ComboTask.t) (options : PruningOptions.t)
    (timeoutMs : Z) : Settled :=
  let tasksToProcess := truncate comboTasks options in
  if Nat.eqb (length tasksToProcess) 0 then Reject NoCombinationsToEvaluate
  else
    let numProcesses := Nat.min maxProcesses (ceilDiv10 (length tasksToProcess)) in
    if Nat.leb (length tasksToProcess) 20 then
      runOnProcess tasksToProcess 0 timeoutMs true
    else if Nat.eqb numProcesses 0 then Reject TypeError
    else
      match promiseAll (shardResults numProcesses tasksToProcess timeoutMs) with
      | inl e => Reject e
      | inr chunkResults =>
          let allResults := sortResults (concat chunkResults) in
          match allResults with
          | [] => Reject NoValidRoutesFound
          | best :: _ => ResolveResult (toFindBestResult best)
          end
      end.

(** The messages one call of [findBest] posts, each with the process it
    goes to: the arguments of [runOnProcess] at lines 167 and 176-178,
    and the message of lines 256-265. *)
Definition posted (comboTasks : list ComboTask.t) (options : PruningOptions.t)
  : list (nat * EvaluateChunk.t) :=
  let pruningThreshold := PruningOptions.pruningThreshold options in
  let message tasks := EvaluateChunk.mk tasks true 5 pruningThreshold in
  let tasksToProcess := truncate comboTasks options in
  if Nat.eqb (length tasksToProcess) 0 then []
  else
    let numProcesses := Nat.min maxProcesses (ceilDiv10 (length tasksToProcess)) in
    if Nat.leb (length tasksToProcess) 20 then
      if Nat.ltb 0 maxProcesses then [(0, message tasksToProcess)] else []
    else
      imap (λ idx chunk, (idx mod maxProcesses, message chunk))
           (roundRobin numProcesses tasksToProcess).

(** Lines 436-446 of the processor: the call [computeFindBest] makes for
    a request.  [comboTasks] are the ranked combinations of the request's
    bounties (lines 141-144, from algorithm/combinations). *)
Definition poolCall (timeoutMs : Z) (req : SearchRequest.t) (comboTasks : list ComboTask.t)
  : Settled :=
  findBest comboTasks (SearchRequest.pruningOptions req) timeoutMs.
End Pool.

(** [new PathfinderUtilityPool()] as [OCRProcessor] builds it:
    [Math.max(2, cpuCount - 1)] processes. *)
Definition defaultMaxProcesses (cpuCount : nat) : nat := Nat.max 2 (cpuCount - 1).

(** How the value awaited at line 446 reaches the promise body of
    [launchFindBestIfNeeded].  An array is not a [FindBestResult]: the
    promise body reads [undefined] from it and, when the accepted
    efficiency is zero, stores [undefined] as the accepted solution, after
    which a tick throws at line 687 or 762, before it stores a table,
    until a forced recalculation or the debounce timer resets the
    solution.  [State] holds no such value; that path is outside this
    development. *)
Definition toOutcome (r : Settled) : option SearchOutcome :=
  match r with
  | ResolveResult res => Some (Resolved res)
  | Reject e => Some (Rejected e)
  | ResolveList _ => None
  end.

(** ** One observation tick: processOCRResultsAsync (lines 644-1019)

    The tick starts from the bounties resolved for each region (lines
    570-642 call the text matchers, which live outside this file). *)

Inductive MatchType := exact | fuzzy.

Module Observation.
Record t := mk {
  detectedActive : slots;
  detectedBoard : slots;
  (** [this.matchTypes[`boardRegion${idx}`]] *)
  boardMatchType : nat -> option MatchType;
  boardOpen : bool }.
End Observation.

Definition isExact (m : option MatchType) : bool :=
  match m with Some exact => true | _ => false end.

(** Numeric [sort((a, b) => a - b)]. *)
Fixpoint insert_nat (x : nat) (l : list nat) : list nat :=
  match l with
  | [] => [x]
  | y :: l' => if Nat.leb x y then x :: l else y :: insert_nat x l'
  end.

Definition sort_nat (l : list nat) : list nat := foldr insert_nat [] l.

(** Lines 652-664: the grace window of slots that just became occupied. *)
Definition trackRecentAdds (now : Z) (detectedActive : slots) (s : State) : State :=
  let prevActiveIndices := slot_keys (prevActiveBounties s) in
  let added := filter (λ idx, idx ∉ prevActiveIndices) (slot_keys detectedActive) in
  let m := foldl (λ m idx, <[idx := (now + dropGraceMs s)%Z]> m) (recentActiveAdds s) added in
  let m := filter (λ kv, (now < kv.2)%Z ∧ slot_has detectedActive kv.1 = true) m in
  set_recentActiveAdds m s.

(** Lines 675-681. *)
Definition resetDisplayOnOpen (boardTransition boardOpen : bool) (s : State) : State :=
  if boardTransition && boardOpen then
    set_displayDistanceSeconds nan
      (set_displayKp 0%float (set_displaySteps [] (set_runCompleted false s)))
  else s.

(** Lines 684-708: the board has just closed. *)
Definition boardClosedRecalc (now : Z) (boardTransition boardOpen : bool)
    (detectedActive : slots) (s : State) : State * list Effect :=
  if boardTransition && negb boardOpen && prevBoardOpenSignature s then
    let activeBountyList := slot_values detectedActive in
    if Nat.ltb 0 (length activeBountyList) then
      let activeSignature := makeAllBountiesSignature activeBountyList in
      let optimalSignature := makeAllBountiesSignature (prevOptimalBounties s) in
      if negb (String.eqb activeSignature optimalSignature) then
        let s := clearAccepted s in
        let s := set_displaySteps [] (set_steps [] s) in
        launchFindBestIfNeeded now activeBountyList false activeSignature
          "boardClosedRecalc" s
      else (s, [])
    else (s, [])
  else (s, []).

(** Lines 720-734: one detected board slot against the stored table. *)
Definition persistBoardSlot (boardBounties : slots) (matchType : nat -> option MatchType)
    (updatedBoard : slots) (entry : nat * string) : slots :=
  let '(idx, newBounty) := entry in
  let oldBounty := slot_get boardBounties idx in
  if negb (truthy oldBounty) then slot_set updatedBoard idx newBounty
  else if isExact (matchType idx) || bool_decide (Some newBounty = oldBounty)
       then slot_set updatedBoard idx newBounty
       else updatedBoard.

(** [for (idx in m) if (!(idx in detected)) delete m[idx]] *)
Definition keepDetected (detected : slots) (m : slots) : slots :=
  foldl (λ m idx, if slot_has detected idx then m else slot_delete m idx) m (slot_keys m).

(** Lines 712-751: [updatedBoard], and whether a slot count went down. *)
Definition boardCountDecreased (boardBounties detectedBoard : slots) : bool :=
  Nat.ltb (slot_count detectedBoard) (slot_count boardBounties).

Definition updateBoard (boardBounties : slots) (obs : Observation.t) : slots :=
  if negb (Observation.boardOpen obs) then []
  else
    let detectedBoard := Observation.detectedBoard obs in
    let updatedBoard :=
      foldl (persistBoardSlot boardBounties (Observation.boardMatchType obs))
            boardBounties (slot_entries detectedBoard) in
    if boardCountDecreased boardBounties detectedBoard
    then keepDetected detectedBoard updatedBoard
    else updatedBoard.

(** Lines 768-772. *)
Definition shouldRecompute (firstRun boardTransition signatureChanged boardBountiesChanged
    addingBounties adjustingBounties activeMatchesOptimal boardOpen haveOptimal : bool)
    (allBounties : list string) : bool :=
  firstRun || boardTransition
  || (signatureChanged && boardBountiesChanged)
  || (signatureChanged && addingBounties && negb adjustingBounties)
  || (activeMatchesOptimal && signatureChanged)
  || (boardOpen && negb haveOptimal && Nat.ltb 0 (length allBounties)).

Definition recomputeReason (firstRun boardTransition boardBountiesChanged boardOpen
    haveOptimal activeMatchesOptimal : bool) : string :=
  if firstRun then "firstRun"
  else if boardTransition then "boardTransition"
  else if boardBountiesChanged then "boardRefresh"
  else if boardOpen && negb haveOptimal then "boardOpenNoOptimal"
  else if activeMatchesOptimal then "readyForNext"
  else "addingBounties".

(** Lines 753-787: the trigger decision of the tick. *)
Definition recomputeIfNeeded (now : Z) (obs : Observation.t) (firstRun boardTransition
    signatureChanged : bool) (allBounties : list string) (signature : string)
    (updatedBoard : slots) (s : State) : State * list Effect :=
  let boardOpen := Observation.boardOpen obs in
  let detectedActive := Observation.detectedActive obs in
  let prevActiveCount := slot_count (prevActiveBounties s) in
  let currActiveCount := slot_count detectedActive in
  let addingBounties := Nat.ltb prevActiveCount currActiveCount in
  let prevBoardBounties := sortedJoinComma (slot_values (boardBounties s)) in
  let currBoardBounties := sortedJoinComma (slot_values updatedBoard) in
  let boardBountiesChanged :=
    boardOpen && negb (String.eqb prevBoardBounties currBoardBounties) in
  let haveOptimal := Nat.ltb 0 (length (prevOptimalBounties s)) in
  let activeBountyKeys := sortedJoinComma (slot_values detectedActive) in
  let optimalBountyKeys := sortedJoinComma (prevOptimalBounties s) in
  let activeMatchesOptimal := String.eqb activeBountyKeys optimalBountyKeys in
  let adjustingBounties := haveOptimal && negb activeMatchesOptimal && boardOpen in
  if shouldRecompute firstRun boardTransition signatureChanged boardBountiesChanged
       addingBounties adjustingBounties activeMatchesOptimal boardOpen haveOptimal
       allBounties
  then
    let reason := recomputeReason firstRun boardTransition boardBountiesChanged boardOpen
                    haveOptimal activeMatchesOptimal in
    let s := if firstRun || boardTransition then set_stepIdx 0 s else s in
    launchFindBestIfNeeded now allBounties boardOpen signature reason s
  else (s, []).

(** Lines 812-819: [bountyIndices], keyed by bounty in order of first
    occurrence (the enumeration order of string keys). *)
Fixpoint pushIndex (bounty : string) (idx : nat) (acc : list (string * list nat))
  : list (string * list nat) :=
  match acc with
  | [] => [(bounty, [idx])]
  | (b, l) :: acc' =>
      if String.eqb b bounty then (b, l ++ [idx]) :: acc'
      else (b, l) :: pushIndex bounty idx acc'
  end.

Definition bountyIndices (detectedActive : slots) : list (string * list nat) :=
  foldl (λ acc entry, pushIndex entry.2 entry.1 acc) [] (slot_entries detectedActive).

(** [expiresAt && expiresAt > Date.now()] *)
Definition inGrace (recent : gmap nat Z) (now : Z) (idx : nat) : bool :=
  match recent !! idx with
  | Some expiresAt => negb (Z.eqb expiresAt 0) && Z.ltb now expiresAt
  | None => false
  end.

(** Lines 821-835, for one bounty. *)
Definition dropsOf (optimalBounties : list string) (recent : gmap nat Z) (now : Z)
    (entry : string * list nat) : list nat :=
  let '(bounty, indices) := entry in
  let indices := sort_nat indices in
  let allowed := count_of bounty optimalBounties in
  if Nat.ltb allowed (length indices) then
    let extras := take (length indices - allowed) indices in
    filter (λ idx, inGrace recent now idx = false) extras
  else [].

(** Lines 803-838. *)
Definition computeActiveDrops (recomputeInFlight boardOpen : bool)
    (optimalBounties : list string) (recent : gmap nat Z) (now : Z)
    (detectedActive : slots) : list nat :=
  if recomputeInFlight || negb boardOpen then []
  else flat_map (dropsOf optimalBounties recent now) (bountyIndices detectedActive).

(** Lines 845-857: [updatedActive]. *)
Definition updateActive (activeBounties detectedActive : slots) (countDecreased : bool)
  : slots :=
  let updatedActive :=
    foldl (λ m entry, slot_set m entry.1 entry.2) activeBounties
          (slot_entries detectedActive) in
  if countDecreased then keepDetected detectedActive updatedActive else updatedActive.

Definition isSellOf (bounty : string) (step : Step) : bool :=
  match step with
  | sell item _ _ => String.eqb item bounty
  | _ => false
  end.

(** Lines 908-915: index of the first [sell] of the bounty. *)
Fixpoint findSellIndex (bounty : string) (steps : list Step) : option nat :=
  match steps with
  | [] => None
  | step :: rest =>
      if isSellOf bounty step then Some 0
      else option_map S (findSellIndex bounty rest)
  end.

(** Lines 872-896: the bounty whose count went down, in the order the
    previous bounties were first seen. *)
Definition findCompletedBounty (prevActive detectedActive : slots) : option string :=
  List.find (λ bounty, Nat.ltb (count_of bounty (slot_values detectedActive))
                                (count_of bounty (slot_values prevActive)))
            (slot_values prevActive).

(** Lines 922-946: every remaining bounty must still have a [sell]. *)
Definition sanityCheck (now : Z) (detectedActive : slots) (s : State)
  : State * list Effect :=
  let remainingActiveBounties := slot_values detectedActive in
  if Nat.ltb 0 (length remainingActiveBounties) then
    let missingBounties :=
      filter (λ b, existsb (isSellOf b) (steps s) = false) remainingActiveBounties in
    if Nat.ltb 0 (length missingBounties) then
      let activeSignature := makeAllBountiesSignature remainingActiveBounties in
      let s := clearAccepted s in
      let s := set_stepIdx 0 (set_displaySteps [] (set_steps [] s)) in
      launchFindBestIfNeeded now remainingActiveBounties false activeSignature
        "sanityCheckFailed" s
    else (s, [])
  else (s, []).

(** Lines 868-949. *)
Definition handleCompletion (now : Z) (obs : Observation.t) (prevActiveCount
    currActiveCount : nat) (completedBounty : option string) (s : State)
  : State * list Effect :=
  if truthy completedBounty && negb (Observation.boardOpen obs) then
    let s :=
      match findSellIndex (default "" completedBounty) (steps s) with
      | Some completedStepIdx =>
          let remaining := drop (completedStepIdx + 1) (steps s) in
          set_displaySteps remaining
            (set_steps remaining (set_stepIdx (stepIdx s + (completedStepIdx + 1)) s))
      | None => s
      end in
    sanityCheck now (Observation.detectedActive obs) s
  else (s, []).

(** Lines 952-983. *)
Definition handleAllCompleted (prevActiveCount currActiveCount : nat)
    (completedBounty : option string) (s : State) : State :=
  if Nat.eqb currActiveCount 0 && Nat.ltb 0 prevActiveCount && truthy completedBounty then
    set_runCompleted true (set_steps [] (clearAccepted s))
  else s.

(** Lines 991-1011. *)
Definition pickupStep (optimalBounties : list string) (updatedActive updatedBoard : slots)
    (acc : list nat * gmap string nat) (idx : nat) : list nat * gmap string nat :=
  match slot_get updatedBoard idx with
  | Some bounty =>
      if includes optimalBounties bounty then
        let allowed := count_of bounty optimalBounties in
        let activeCount := count_of bounty (slot_values updatedActive) in
        let current := default 0 (acc.2 !! bounty) in
        if Nat.ltb (activeCount + current) allowed
        then (acc.1 ++ [idx], <[bounty := current + 1]> acc.2)
        else acc
      else acc
  | None => acc
  end.

Definition computeBoardPickups (boardOpen : bool) (optimalBounties : list string)
    (updatedActive updatedBoard : slots) : list nat :=
  if boardOpen then
    let sortedBoardIndices := sort_nat (slot_keys updatedBoard) in
    (foldl (pickupStep optimalBounties updatedActive updatedBoard) ([], ∅)
           sortedBoardIndices).1
  else [].

(** Lines 1025-1096. *)
Definition checkStepsConsistency (now : Z) (activeBounties : slots) (boardOpen : bool)
    (s : State) : State * list Effect :=
  if (now - lastConsistencyCheck s <? consistencyCheckIntervalMs)%Z then (s, [])
  else
    let s := set_lastConsistencyCheck now s in
    let activeBountyList := slot_values activeBounties in
    if boardOpen then (s, [])
    else if Nat.eqb (length activeBountyList) 0 then (s, [])
    else if bool_decide (is_Some (inFlightFind s)) then (s, [])
    else if Nat.eqb (length (steps s)) 0 then (s, [])
    else
      let inconsistent :=
        existsb (λ bounty, Nat.ltb (length (filter (λ st, isSellOf bounty st = true) (steps s)))
                                    (count_of bounty activeBountyList))
                activeBountyList in
      if inconsistent then
        let s := clearAccepted s in
        let s := set_stepIdx 0 (set_displaySteps [] (set_steps [] s)) in
        let signature := makeAllBountiesSignature activeBountyList in
        launchFindBestIfNeeded now activeBountyList false signature "consistencyFix" s
      else (s, []).

(** Lines 801-1018: the rest of the tick once an accepted solution exists. *)
Definition withOptimal (now : Z) (obs : Observation.t) (updatedBoard : slots) (s : State)
  : State * list Effect :=
  let boardOpen := Observation.boardOpen obs in
  let detectedActive := Observation.detectedActive obs in
  let prevActiveCount := slot_count (prevActiveBounties s) in
  let currActiveCount := slot_count detectedActive in
  let optimalBounties := prevOptimalBounties s in
  let recomputeInFlight := bool_decide (is_Some (inFlightFind s)) in
  let s := set_activeDrops
             (computeActiveDrops recomputeInFlight boardOpen optimalBounties
                (recentActiveAdds s) now detectedActive) s in
  let countDecreased := Nat.ltb currActiveCount prevActiveCount in
  let updatedActive := updateActive (activeBounties s) detectedActive countDecreased in
  andThen (if countDecreased && boardOpen then scheduleAdjustmentRecalculation s
           else (s, [])) (λ s,
  let completedBounty :=
    if Nat.ltb currActiveCount prevActiveCount
       && Nat.eqb (prevActiveCount - currActiveCount) 1
    then findCompletedBounty (prevActiveBounties s) detectedActive
    else None in
  andThen (handleCompletion now obs prevActiveCount currActiveCount completedBounty s)
          (λ s,
  let s := handleAllCompleted prevActiveCount currActiveCount completedBounty s in
  let s := set_prevActiveBounties updatedActive
             (set_boardBounties updatedBoard (set_activeBounties updatedActive s)) in
  let s := set_boardPickups
             (computeBoardPickups boardOpen optimalBounties updatedActive updatedBoard) s in
  checkStepsConsistency now updatedActive boardOpen s)).

Definition processOCRResultsAsync (now : Z) (obs : Observation.t) (s : State)
  : State * list Effect :=
  let boardOpen := Observation.boardOpen obs in
  let detectedActive := Observation.detectedActive obs in
  let detectedBoard := Observation.detectedBoard obs in
  let s := trackRecentAdds now detectedActive s in
  let allBounties := slot_values detectedActive ++ slot_values detectedBoard in
  let signature := makeAllBountiesSignature allBounties in
  let boardTransition := xorb boardOpen (prevBoardOpenSignature s) in
  let signatureChanged := negb (String.eqb signature (prevAllBountiesSignature s)) in
  let firstRun := negb (launchedAtLeastOnce s) in
  let s := resetDisplayOnOpen boardTransition boardOpen s in
  andThen (boardClosedRecalc now boardTransition boardOpen detectedActive s) (λ s,
  let updatedBoard := updateBoard (boardBounties s) obs in
  andThen (if boardOpen && boardCountDecreased (boardBounties s) detectedBoard
           then scheduleAdjustmentRecalculation s else (s, [])) (λ s,
  andThen (recomputeIfNeeded now obs firstRun boardTransition signatureChanged
             allBounties signature updatedBoard s) (λ s,
  let s := set_prevBoardOpenSignature boardOpen s in
  let hasOptimal := Nat.ltb 0 (length (prevOptimalBounties s)) in
  if negb hasOptimal then
    (set_prevActiveBounties detectedActive
       (set_boardBounties detectedBoard
          (set_activeBounties detectedActive
             (set_boardPickups [] (set_activeDrops [] s)))), [])
  else withOptimal now obs updatedBoard s))).

(** ** The state built by the constructor (lines 36-137, default options) *)

Definition initialState : State :=
  {| activeBounties := []; boardBounties := [];
     activeDrops := []; boardPickups := [];
     steps := []; kp := 0%float; distanceSeconds := nan;
     displaySteps := []; displayKp := 0%float; displayDistanceSeconds := nan;
     runCompleted := false; stepIdx := 0;
     prevActiveBounties := []; prevOptimalBounties := [];
     prevAllBountiesSignature := ""; prevBoardOpenSignature := false;
     inFlightFind := None; launchedAtLeastOnce := false;
     recentActiveAdds := ∅; lastConsistencyCheck := 0%Z;
     adjustmentDebounceTimer := false;
     pathfinderTimeoutMs := 20000%Z; dropGraceMs := 2000%Z;
     pathfindingQuality := 5%float; forceOptimal := false |}.

(** ** Sequences of acceptance decisions *)

(** The accepted efficiency before and after each of a sequence of
    completed searches, each given with the signature it was launched for. *)
Fixpoint efficiencyTrace (s : State) (results : list (string * FindBestResult.t))
  : list float :=
  currentEfficiency s ::
  match results with
  | [] => []
  | (signature, r) :: rest =>
      efficiencyTrace (onFindBestSettled signature (Resolved r) s) rest
  end.

Definition nondecreasing (l : list float) : Prop :=
  ∀ i j x y, i ≤ j → l !! i = Some x → l !! j = Some y → (x <=? y)%float = true.

(** A result as the pool produces it: a non-empty combination, a positive
    route time and an efficiency that is a number not below zero. *)
Definition wellFormed (r : FindBestResult.t) : Prop :=
  FindBestResult.bounties r ≠ []
  ∧ (0 <? FindBestResult.distance r)%float = true
  ∧ (0 <=? newEfficiency r)%float = true.

(** The accepted solution: bounties, kp and distance. *)
Definition accepted (s : State) : list string * float * float :=
  (prevOptimalBounties s, kp s, distanceSeconds s).

Definition resultTriple (r : FindBestResult.t) : list string * float * float :=
  (FindBestResult.bounties r, FindBestResult.kp r, FindBestResult.distance r).

(** ** Vocabulary of the dispatcher's properties *)

(** Every [numProcesses]-th task starting at [k]: what round-robin gives
    chunk [k]. *)
Definition everyNth (numProcesses k : nat) (tasks : list ComboTask.t) : list ComboTask.t :=
  (filter (λ it, it.1 mod numProcesses = k) (imap pair tasks)).*2.

(** What the shard run on process [k] adds to the merged list. *)
Definition contribution (respond : nat -> list ComboTask.t -> WorkerEvent) (k : nat)
    (chunk : list ComboTask.t) : list ComboResult.t :=
  match respond k chunk with
  | Message true results _ => default [] results
  | _ => []
  end.

Definition timedOutOrErrored (e : WorkerEvent) : Prop :=
  e = TimedOut ∨ ∃ results error, e = Message false results error.

(** The promise body run on what the pool's promise settled to. *)
Definition settleSearch (signature : string) (r : Settled) (s : State) : option State :=
  option_map (λ outcome, onFindBestSettled signature outcome s) (toOutcome r).

(** The state a search may replace: the accepted solution, the steps, the
    step cursor and the display values. *)
Definition schedulerState (s : State)
  : (list string * float * float) * list Step * nat * (list Step * float * float) :=
  (accepted s, steps s, stepIdx s,
   (displaySteps s, displayKp s, displayDistanceSeconds s)).

(** ** Vocabulary of the in-flight guard *)

Definition stale (now : Z) (s : State) (f : InFlightFind.t) : Prop :=
  (pathfinderTimeoutMs s + 1000 < now - InFlightFind.startedAtMs f)%Z.

(** The trigger discarded the in-flight record with a warning and started
    its own search. *)
Definition relaunched (now : Z) (allBounties : list string) (boardOpen : bool)
    (signature reason : string) (s : State) : Prop :=
  launchFindBestIfNeeded now allBounties boardOpen signature reason s
  = (set_inFlightFind (Some (InFlightFind.mk signature now))
       (set_launchedAtLeastOnce true (set_inFlightFind None s)),
     [Warn staleWarning;
      Spawn (SearchRequest.mk allBounties boardOpen signature reason (pruningOptions s))]).

(** The sentence "a trigger that meets a stale in-flight search always
    relaunches", for every signature of the trigger. *)
Definition stale_unblocks_every_trigger : Prop :=
  ∀ (now : Z) (allBounties : list string) (boardOpen : bool) (signature reason : string)
    (s : State) (f : InFlightFind.t),
    inFlightFind s = Some f → stale now s f →
    relaunched now allBounties boardOpen signature reason s.

Definition spawns (es : list Effect) : list SearchRequest.t :=
  omap (λ e, match e with Spawn req => Some req | _ => None end) es.

Definition qualityLevels : list float := [1; 2; 3; 4; 5]%float.

(** ** Worked inputs *)

Definition exampleTask (name : string) : ComboTask.t := ComboTask.mk [name] 10 1.
Definition exampleResult (name : string) : ComboResult.t := ComboResult.mk [name] 10 [] 5.
Definition fewTasks : list ComboTask.t := [exampleTask "A"; exampleTask "B"].
Definition manyTasks : list ComboTask.t := replicate 25 (exampleTask "A").

(** No worker answers before the deadline. *)
Definition silentPool : nat -> list ComboTask.t -> WorkerEvent := λ _ _, TimedOut.

(** Process 1 answers with one route; the others report an error. *)
Definition oneShardAnswers : nat -> list ComboTask.t -> WorkerEvent :=
  λ k _, if Nat.eqb k 1 then Message true (Some [exampleResult "A"]) None
         else Message false None (Some "route builder failed").

(** ** Vocabulary of the tick's properties *)

(** The fields only the tick itself writes: the stored slot tables, the
    grace windows and the two indicator lists. *)
Definition frame (s : State)
  : slots * slots * slots * gmap nat Z * list nat * list nat :=
  (activeBounties s, boardBounties s, prevActiveBounties s, recentActiveAdds s,
   activeDrops s, boardPickups s).

(** The keys of the entries whose value is [bounty], in the order of the
    entries. *)
Definition holding (bounty : string) (entries : list (nat * string)) : list nat :=
  (filter (λ entry, entry.2 = bounty) entries).*1.

(** The slots holding [bounty], in ascending order. *)
Definition slotsHolding (bounty : string) (m : slots) : list nat :=
  holding bounty (slot_entries m).

(** The excess of [bounty] over the accepted solution, taken from the
    lowest slot upwards. *)
Definition lowestExcess (optimalBounties : list string) (m : slots) (bounty : string)
  : list nat :=
  take (length (slotsHolding bounty m) - count_of bounty optimalBounties)
       (slotsHolding bounty m).

(** Board slot [idx] holds a bounty of the accepted solution, and the
    running count for that bounty, the slots already held plus the board
    slots flagged below [idx], has not reached the accepted count. *)
Definition flaggable (optimalBounties : list string) (updatedActive updatedBoard : slots)
    (flagged : list nat) (idx : nat) : Prop :=
  ∃ bounty, slot_get updatedBoard idx = Some bounty
            ∧ bounty ∈ optimalBounties
            ∧ count_of bounty (slot_values updatedActive)
              + length (filter (λ j, j < idx ∧ slot_get updatedBoard j = Some bounty) flagged)
              < count_of bounty optimalBounties.

(** The signature of everything a snapshot shows. *)
Definition observedSignature (obs : Observation.t) : string :=
  makeAllBountiesSignature
    (slot_values (Observation.detectedActive obs)
     ++ slot_values (Observation.detectedBoard obs)).

(** [processScreenshot] reads the board regions only while the board is
    open (lines 281-285): a snapshot of a closed board has no board slot. *)
Definition closedBoardUnread (obs : Observation.t) : Prop :=
  Observation.boardOpen obs = false → slot_values (Observation.detectedBoard obs) = [].

(** Nothing was started and the in-flight record is still [f]. *)
Definition quiet (f : InFlightFind.t) (r : State * list Effect) : Prop :=
  inFlightFind r.1 = Some f ∧ spawns r.2 = [].

(** The test of lines 726-732: the detection is written to the slot. *)
Definition boardSlotAccepts (boardBounties : slots) (matchType : nat -> option MatchType)
    (idx : nat) (newBounty : string) : bool :=
  negb (truthy (slot_get boardBounties idx))
  || isExact (matchType idx)
  || bool_decide (Some newBounty = slot_get boardBounties idx).

(** The sentence of C10 for the stored board table, with or without an
    accepted solution: a fuzzy detection that disagrees with the stored
    bounty leaves the slot as it was. *)
Definition fuzzy_never_overwrites_board : Prop :=
  ∀ (now : Z) (obs : Observation.t) (s : State) (idx : nat) (old new : string),
    Observation.boardOpen obs = true →
    slot_get (boardBounties s) idx = Some old → old ≠ "" →
    slot_get (Observation.detectedBoard obs) idx = Some new → new ≠ old →
    Observation.boardMatchType obs idx = Some fuzzy →
    slot_get (boardBounties (processOCRResultsAsync now obs s).1) idx = Some old.

(** The spec's drop example read as "the highest slot of the surplus
    bounty is the one flagged". *)
Definition drop_flags_highest_extra : Prop :=
  ∀ (now : Z) (obs : Observation.t) (s : State) (A B : string),
    A ≠ B → Observation.boardOpen obs = true →
    prevOptimalBounties s ≡ₚ [A; A; B] →
    slot_values (Observation.detectedActive obs) ≡ₚ [A; A; A; B] →
    let s' := (processOCRResultsAsync now obs s).1 in
    inFlightFind s' = None →
    (∀ idx, inGrace (recentActiveAdds s') now idx = false) →
    ∃ idx, activeDrops s' = [idx]
           ∧ last (slotsHolding A (Observation.detectedActive obs)) = Some idx.

(** ** Worked states and snapshots *)

(** The state reached from the constructor's by a first snapshot of
    [active] and [board] with the board open and then the completion of its
    search with a route for [optimal]. *)
Definition settledState (optimal : list string) (active board : slots) : State :=
  let obs := Observation.mk active board (λ _, Some exact) true in
  let searching := (processOCRResultsAsync 0 obs initialState).1 in
  onFindBestSettled (observedSignature obs)
    (Resolved (FindBestResult.mk optimal 30 [] 100)) searching.

Definition snapshot (active board : slots) (matchType : option MatchType)
  : Observation.t :=
  Observation.mk active board (λ _, matchType) true.

(** The spec's drop example: accepted [{A:2, B:1}], held [{A:3, B:1}]. *)
Definition dropExampleActive : slots := [Some "A"; Some "A"; Some "A"; Some "B"].
Definition dropExampleState : State := settledState ["A"; "A"; "B"] dropExampleActive [].
Definition dropExampleObs : Observation.t := snapshot dropExampleActive [] None.

(** The spec's pickup example: accepted [{A:2, B:1}], held [{A:1}], board
    [A, A, C]. *)
Definition pickupExampleBoard : slots := [Some "A"; Some "A"; Some "C"].
Definition pickupExampleState : State :=
  settledState ["A"; "A"; "B"] [Some "A"] pickupExampleBoard.
Definition pickupExampleObs : Observation.t :=
  snapshot [Some "A"] pickupExampleBoard (Some exact).

(** The first snapshot read board slot 0 as "A"; its search is still in
    flight, so no solution is accepted yet. *)
Definition waitingState : State :=
  (processOCRResultsAsync 0 (snapshot [] [Some "A"] (Some exact)) initialState).1.

(** ** Rectangles: clampRect (lines 313-321)

    [recognizeRegion] rounds the region's coordinates with [Math.round]
    before the call, and the image size is [Math.max(1, Math.round(..))]:
    every argument is an integer, an infinity or NaN.  A sum or a
    difference of integers is rounded to 53 significant bits, to even on a
    tie, as binary64 does, and overflows to an infinity.  [int z] stands
    for a number when binary64 holds [z].  The sign of zero is not kept:
    no operation of [clampRect] can tell it. *)

Module Number.
Inductive t := nan | inf (negative : bool) | int (z : Z).

(** The integer nearest to [z] that binary64 holds, ties to even. *)
Definition fl (z : Z) : Z :=
  let a := Z.abs z in
  if (a <? 2 ^ 53)%Z then z
  else
    let e := (Z.log2 a - 52)%Z in
    let q := (a / 2 ^ e)%Z in
    let r := (a mod 2 ^ e)%Z in
    let half := (2 ^ (e - 1))%Z in
    let q := if (r <? half)%Z then q
             else if (half <? r)%Z then (q + 1)%Z
             else if Z.even q then q else (q + 1)%Z in
    (Z.sgn z * (q * 2 ^ e))%Z.

Definition round (z : Z) : t :=
  let r := fl z in
  if (2 ^ 1024 <=? Z.abs r)%Z then inf (z <? 0)%Z else int r.

Definition add (a b : t) : t :=
  match a, b with
  | nan, _ => nan
  | _, nan => nan
  | inf x, inf y => if Bool.eqb x y then inf x else nan
  | inf x, int _ => inf x
  | int _, inf y => inf y
  | int x, int y => round (x + y)
  end.

Definition opp (a : t) : t :=
  match a with
  | nan => nan
  | inf x => inf (negb x)
  | int z => int (- z)
  end.

Definition sub (a b : t) : t := add a (opp b).

(** [a < b], false when either is NaN. *)
Definition ltb (a b : t) : bool :=
  match a, b with
  | nan, _ => false
  | _, nan => false
  | inf true, inf true => false
  | inf true, _ => true
  | _, inf true => false
  | inf false, _ => false
  | int _, inf false => true
  | int x, int y => (x <? y)%Z
  end.

(** [Math.max] and [Math.min]: NaN when either argument is. *)
Definition max (a b : t) : t :=
  match a, b with
  | nan, _ => nan
  | _, nan => nan
  | _, _ => if ltb a b then b else a
  end.

Definition min (a b : t) : t :=
  match a, b with
  | nan, _ => nan
  | _, nan => nan
  | _, _ => if ltb b a then b else a
  end.
End Number.

Module Rect.
Record t := mk {
  left : Number.t;
  top : Number.t;
  width : Number.t;
  height : Number.t }.
End Rect.

Definition clampRect (left top width height maxW maxH : Number.t) : Rect.t :=
  let l := Number.max (Number.int 0)
             (Number.min left (Number.sub maxW (Number.int 1))) in
  let t := Number.max (Number.int 0)
             (Number.min top (Number.sub maxH (Number.int 1))) in
  let w := Number.max (Number.int 1) width in
  let h := Number.max (Number.int 1) height in
  let w := if Number.ltb maxW (Number.add l w)
           then Number.max (Number.int 1) (Number.sub maxW l) else w in
  let h := if Number.ltb maxH (Number.add t h)
           then Number.max (Number.int 1) (Number.sub maxH t) else h in
  Rect.mk l t w h.

(** ** Screenshot passes: processScreenshot (lines 225-311)

    The method once the guard of line 232 has let the call in.  [screen]
    is what the matching loop of lines 570-642 yields when every region of
    the screenshot is read; each region is matched on its own, so a pass
    that reads fewer regions sees the same detections restricted to the
    regions it reads. *)

Module Mode.
Inductive t := full | active | title_only.
End Mode.

(** Lines 257-270: the title-only pass records the board flag alone. *)
Definition titleOnly (boardOpen : bool) (s : State) : State :=
  if xorb boardOpen (prevBoardOpenSignature s) then
    let s :=
      if boardOpen && runCompleted s then
        set_displayDistanceSeconds nan
          (set_displayKp 0%float (set_displaySteps [] (set_runCompleted false s)))
      else s in
    set_prevBoardOpenSignature boardOpen s
  else s.

(** Lines 272-286: [keysToOCR].  The board regions are read in full mode
    while the title shows the board open; a region that is not read gives
    no detection and no match type. *)
Definition keysToOCR (mode : Mode.t) (screen : Observation.t) : Observation.t :=
  let boardOpen := Observation.boardOpen screen in
  let readBoard := match mode with Mode.full => boardOpen | _ => false end in
  if readBoard then screen
  else Observation.mk (Observation.detectedActive screen) [] (λ _, None) boardOpen.

Definition processScreenshot (now : Z) (mode : Mode.t) (screen : Observation.t) (s : State)
  : State * list Effect :=
  match mode with
  | Mode.title_only => (titleOnly (Observation.boardOpen screen) s, [])
  | _ => processOCRResultsAsync now (keysToOCR mode screen) s
  end.

(** ** Rarities: the table computeFindBest hands to the pool (lines 421-434) *)

Inductive Rarity := uncommon | rare | epic.

(** [{ [index: number]: 'uncommon' | 'rare' | 'epic' | null }]: position
    [i] holds the rarity of slot [i]; [null] and a missing key are both
    falsy, which is all the code tests. *)
Abbreviation rarities := (list (option Rarity)).

Definition rarity_get (r : rarities) (i : nat) : option Rarity :=
  match r !! i with
  | Some (Some x) => Some x
  | _ => None
  end.

(** One of the two loops of lines 423-434. *)
Definition addRarities (bounties : slots) (r : rarities) (acc : gmap string Rarity)
  : gmap string Rarity :=
  foldl (λ acc entry,
           match rarity_get r entry.1 with
           | Some x => <[entry.2 := x]> acc
           | None => acc
           end) acc (slot_entries bounties).

Definition bountyRarities (activeBounties : slots) (activeBountyRarities : rarities)
    (boardBounties : slots) (boardBountyRarities : rarities) : gmap string Rarity :=
  addRarities boardBounties boardBountyRarities
    (addRarities activeBounties activeBountyRarities ∅).

(** ** What the overlay is told: buildOCRData and getOCRDataPayload
    (screenshot-manager.ts, lines 116-133; overlay-window.ts, lines 87-117) *)

Module Status.
Inductive t := computing | optimal | not_optimal.
End Status.

Definition status (s : State) : Status.t :=
  if bool_decide (is_Some (inFlightFind s)) then Status.computing
  else if Nat.ltb 0 (length (prevOptimalBounties s)) then
    let activeBountyKeys := sortedJoinComma (slot_values (activeBounties s)) in
    let optimalBountyKeys := sortedJoinComma (prevOptimalBounties s) in
    if String.eqb activeBountyKeys optimalBountyKeys then Status.optimal
    else Status.not_optimal
  else Status.not_optimal.

(** [a || b] on numbers: [a] unless it is zero or NaN. *)
Definition orNumber (a b : float) : float :=
  if (a =? 0)%float || is_nan a then b else a.

(** The route, kp and time handed to [formatSteps]. *)
Definition shownSteps (s : State) : list Step :=
  if Nat.ltb 0 (length (displaySteps s)) then displaySteps s else steps s.

Definition shownKp (s : State) : float := orNumber (displayKp s) (kp s).

Definition shownDistanceSeconds (s : State) : float :=
  orNumber (displayDistanceSeconds s) (distanceSeconds s).

(** overlay-window.ts, lines 99 and 111. *)
Definition isCalculating (s : State) : bool :=
  bool_decide (is_Some (inFlightFind s)) && prevBoardOpenSignature s.

Definition shouldShowOptimalMessage (s : State) : bool :=
  prevBoardOpenSignature s
  && match status s with Status.optimal => true | _ => false end
  && negb (isCalculating s).

(** ** The constructor with its options (lines 119-137) *)

Module OCRProcessorOptions.
Record t := mk {
  pathfinderTimeoutMs : option Z;
  dropGraceMs : option Z;
  pathfindingQuality : option float }.
End OCRProcessorOptions.

Definition construct (options : OCRProcessorOptions.t) : State :=
  {| activeBounties := []; boardBounties := [];
     activeDrops := []; boardPickups := [];
     steps := []; kp := 0%float; distanceSeconds := nan;
     displaySteps := []; displayKp := 0%float; displayDistanceSeconds := nan;
     runCompleted := false; stepIdx := 0;
     prevActiveBounties := []; prevOptimalBounties := [];
     prevAllBountiesSignature := ""; prevBoardOpenSignature := false;
     inFlightFind := None; launchedAtLeastOnce := false;
     recentActiveAdds := ∅; lastConsistencyCheck := 0%Z;
     adjustmentDebounceTimer := false;
     pathfinderTimeoutMs := default 20000%Z (OCRProcessorOptions.pathfinderTimeoutMs options);
     dropGraceMs := Z.max 0 (default 2000%Z (OCRProcessorOptions.dropGraceMs options));
     pathfindingQuality := default 5%float (OCRProcessorOptions.pathfindingQuality options);
     forceOptimal := false |}.

(** ** Event sequences

    Everything that runs a method of the processor: a screenshot pass, and
    the calls that arrive while the loop waits: the settling of a search,
    the shortcut and the settings panel, the deferred forced
    recalculation, the debounce timer. *)

Inductive Call :=
| FindBestSettled (signature : string) (outcome : SearchOutcome)
| ForceOptimal (now : Z)
| DeferredForceOptimal (now : Z)
| AdjustmentDebounce (now : Z)
| SetPathfindingQuality (quality : float).

Definition call (c : Call) (s : State) : State * list Effect :=
  match c with
  | FindBestSettled signature outcome => (onFindBestSettled signature outcome s, [])
  | ForceOptimal now => forceOptimalRecalculation now s
  | DeferredForceOptimal now => doForceOptimalRecalculation now s
  | AdjustmentDebounce now => onAdjustmentDebounce now s
  | SetPathfindingQuality quality => (setPathfindingQuality quality s, [])
  end.

Inductive Event :=
| Screenshot (now : Z) (mode : Mode.t) (screen : Observation.t)
| Method (c : Call).

Definition handle (e : Event) (s : State) : State * list Effect :=
  match e with
  | Screenshot now mode screen => processScreenshot now mode screen s
  | Method c => call c s
  end.

Definition run (events : list Event) (s : State) : State :=
  foldl (λ s e, (handle e s).1) s events.

(** ** The screenshot loop (screenshot-manager.ts, lines 24-106) *)

(** Lines 221-223 of the processor. *)
Definition isPathfinding (s : State) : bool := bool_decide (is_Some (inFlightFind s)).

Module ScreenshotManager.
Record t := mk {
  ocrProcessor : State;
  lastActiveBountyCheck : Z }.
End ScreenshotManager.

(** One screenshot as the processor reads it: its clock during the pass
    and what the regions show. *)
Module Capture.
Record t := mk {
  now : Z;
  screen : Observation.t }.
End Capture.

Definition pass (capture : Capture.t) (mode : Mode.t) (s : State) : State * list Effect :=
  processScreenshot (Capture.now capture) mode (Capture.screen capture) s.

(** The calls that run while a pass awaits its OCR, in their order. *)
Definition calls (cs : list Call) (s : State) : State * list Effect :=
  foldl (λ r c, andThen r (call c)) (s, []) cs.

Section Loop.

(** [ACTIVE_BOUNTY_INTERVAL_MS] of config/constants. *)
Variable ACTIVE_BOUNTY_INTERVAL_MS : Z.

(** Lines 54-69. *)
Definition chooseMode (boardWasOpen : bool) (now lastActiveBountyCheck : Z) : Mode.t :=
  let shouldCheckActiveBounties :=
    (ACTIVE_BOUNTY_INTERVAL_MS <=? now - lastActiveBountyCheck)%Z in
  if boardWasOpen then Mode.full
  else if shouldCheckActiveBounties then Mode.active
  else Mode.title_only.

(** One turn of the loop.  [clock] is the time read at line 55 and
    [clock2] that of line 80; a capture is [None] when the screenshot
    buffer is empty; [during] and [during2] are the calls that arrive
    while the first and the second pass await their OCR. *)
Record Turn := mkTurn {
  clock : Z;
  capture : option Capture.t;
  during : list Call;
  clock2 : Z;
  capture2 : option Capture.t;
  during2 : list Call }.

Definition iteration (turn : Turn) (m : ScreenshotManager.t)
  : ScreenshotManager.t * list Effect :=
  let processor := ScreenshotManager.ocrProcessor m in
  let lastActiveBountyCheck := ScreenshotManager.lastActiveBountyCheck m in
  if isPathfinding processor then (m, [])
  else
    let boardWasOpen := prevBoardOpenSignature processor in
    match capture turn with
    | None => (m, [])
    | Some screenshot =>
        let now := clock turn in
        let mode := chooseMode boardWasOpen now lastActiveBountyCheck in
        let '(processor, es) :=
          andThen (calls (during turn) processor) (pass screenshot mode) in
        let lastActiveBountyCheck :=
          match mode with
          | Mode.title_only => lastActiveBountyCheck
          | _ => now
          end in
        let boardIsNowOpen := prevBoardOpenSignature processor in
        if negb boardWasOpen && boardIsNowOpen then
          match capture2 turn with
          | Some screenshot2 =>
              let '(processor, es2) :=
                andThen (calls (during2 turn) processor) (pass screenshot2 Mode.full) in
              (ScreenshotManager.mk processor (clock2 turn), es ++ es2)
          | None => (ScreenshotManager.mk processor lastActiveBountyCheck, es)
          end
        else (ScreenshotManager.mk processor lastActiveBountyCheck, es)
    end.

(** What happens to the manager: a turn of its loop, or a call to the
    processor while the loop sleeps. *)
Inductive Activity :=
| LoopTurn (turn : Turn)
| Idle (c : Call).

Definition act (a : Activity) (m : ScreenshotManager.t) : ScreenshotManager.t * list Effect :=
  match a with
  | LoopTurn turn => iteration turn m
  | Idle c =>
      let '(processor, es) := call c (ScreenshotManager.ocrProcessor m) in
      (ScreenshotManager.mk processor (ScreenshotManager.lastActiveBountyCheck m), es)
  end.

Definition runLoop (activities : list Activity) (m : ScreenshotManager.t)
  : ScreenshotManager.t :=
  foldl (λ m a, (act a m).1) m activities.

End Loop.

(** The manager as [main] builds it around a new processor. *)
Definition startManager (options : OCRProcessorOptions.t) : ScreenshotManager.t :=
  ScreenshotManager.mk (construct options) 0.

(** ** Vocabulary of the route's properties *)

(** Walking a route from an inventory, no [buy] asks for an item that is
    held at that point. *)
Fixpoint noRedundantBuy (have : gset string) (route : list Step) : bool :=
  match route with
  | [] => true
  | step :: rest =>
      match step with
      | buy item _ _ =>
          negb (bool_decide (item ∈ have)) && noRedundantBuy ({[ item ]} ∪ have) rest
      | sell item _ _ => noRedundantBuy (have ∖ {[ item ]}) rest
      | _ => noRedundantBuy have rest
      end
  end.

Definition isBuy (step : Step) : bool :=
  match step with buy _ _ _ => true | _ => false end.

(** ** Vocabulary of the acceptance rule as the claim words it *)

(** The sentences "across any sequence of acceptance decisions the
    accepted efficiency is non-decreasing" and "a result of equal
    efficiency never replaces the incumbent", for every result. *)
Definition monotone_for_every_result : Prop :=
  ∀ (results : list (string * FindBestResult.t)) (s : State),
    nondecreasing (efficiencyTrace s results).

Definition tie_never_replaces_incumbent : Prop :=
  ∀ (signature : string) (r : FindBestResult.t) (s : State),
    prevOptimalBounties s ≠ [] →
    (newEfficiency r =? currentEfficiency s)%float = true →
    accepted (onFindBestSettled signature (Resolved r) s) = accepted s.

(** A route of no length: [5 / 0] is [Infinity], and once it is accepted
    the accepted efficiency counts as zero. *)
Definition degenerateResults : list (string * FindBestResult.t) :=
  [("A", FindBestResult.mk ["A"] 100 [] 50);
   ("A", FindBestResult.mk ["B"] 5 [] 0);
   ("A", FindBestResult.mk ["C"] 1 [] 100)].

(** ** Vocabulary of the signature's properties *)

(** The order of [Array.prototype.sort] on strings. *)
Definition string_le (x y : string) : Prop := String.leb x y = true.

(** [s] holds the character [c]. *)
Fixpoint contains (c : Ascii.ascii) (s : string) : bool :=
  match s with
  | EmptyString => false
  | String a s' => Ascii.eqb a c || contains c s'
  end.

(** [s.split(c)] *)
Fixpoint splitOn (c : Ascii.ascii) (s : string) : list string :=
  match s with
  | EmptyString => [EmptyString]
  | String a s' =>
      if Ascii.eqb a c then EmptyString :: splitOn c s'
      else match splitOn c s' with
           | [] => [String a EmptyString]
           | f :: fs => String a f :: fs
           end
  end.

(** A bounty key as [resolveBountyKeyFromName] gives it: not empty, and
    free of the separator the joined string uses. *)
Definition validKey (c : Ascii.ascii) (b : string) : Prop :=
  b ≠ "" ∧ contains c b = false.

(** ** Vocabulary of the tick's effect on the search *)

(** The accepted solution is kept or discarded, never replaced. *)
Definition keptOrCleared (s s' : State) : Prop :=
  prevOptimalBounties s' = prevOptimalBounties s ∨ prevOptimalBounties s' = [].

(** The configuration: the fields the constructor takes from its options. *)
Definition configuration (s : State) : Z * Z * float :=
  (pathfinderTimeoutMs s, dropGraceMs s, pathfindingQuality s).

(** The configuration and the force flag are not touched, the launch flag
    is not reset, no search is dropped, and a search is in flight
    afterwards only if one was before or one has been launched. *)
Definition advances (s s' : State) : Prop :=
  (configuration s' = configuration s ∧ forceOptimal s' = forceOptimal s)
  ∧ (launchedAtLeastOnce s = true → launchedAtLeastOnce s' = true)
  ∧ (is_Some (inFlightFind s) → is_Some (inFlightFind s'))
  ∧ (is_Some (inFlightFind s') → is_Some (inFlightFind s) ∨ launchedAtLeastOnce s' = true).

(** ** Reading fields *)

(** Reading a field through a pile of assignments, by need. *)
Ltac project :=
  lazy beta iota zeta delta
    [activeBounties boardBounties activeDrops boardPickups steps kp distanceSeconds
     displaySteps displayKp displayDistanceSeconds runCompleted stepIdx prevActiveBounties
     prevOptimalBounties prevAllBountiesSignature prevBoardOpenSignature inFlightFind
     launchedAtLeastOnce recentActiveAdds lastConsistencyCheck adjustmentDebounceTimer
     pathfinderTimeoutMs dropGraceMs pathfindingQuality forceOptimal
     set_activeBounties set_boardBounties set_activeDrops set_boardPickups set_steps set_kp
     set_distanceSeconds set_displaySteps set_displayKp set_displayDistanceSeconds
     set_runCompleted set_stepIdx set_prevActiveBounties set_prevOptimalBounties
     set_prevAllBountiesSignature set_prevBoardOpenSignature set_inFlightFind
     set_launchedAtLeastOnce set_recentActiveAdds set_lastConsistencyCheck
     set_adjustmentDebounceTimer set_pathfindingQuality set_forceOptimal
     clearAccepted pruningOptions fst snd].

(** ** Vocabulary of the invariants *)

(** What holds of the search fields and of the configuration in every
    state the processor built with [options] reaches. *)
Definition searchInvariant (options : OCRProcessorOptions.t) (s : State) : Prop :=
  (is_Some (inFlightFind s) → launchedAtLeastOnce s = true)
  ∧ (forceOptimal s = true → is_Some (inFlightFind s))
  ∧ pathfinderTimeoutMs s = pathfinderTimeoutMs (construct options)
  ∧ dropGraceMs s = dropGraceMs (construct options).

(** What holds of the stored tables and of the indicator lists. *)
Definition tablesInvariant (s : State) : Prop :=
  prevActiveBounties s = activeBounties s
  ∧ NoDup (activeDrops s) ∧ StronglySorted lt (boardPickups s)
  ∧ (∀ idx, idx ∈ activeDrops s → slot_has (activeBounties s) idx = true)
  ∧ (∀ idx, idx ∈ boardPickups s → slot_has (boardBounties s) idx = true).

(** ** Vocabulary of the rarity table *)

(** The rarities read for the slots [indices], in that order, the
    unread ones left out. *)
Definition rated (r : rarities) (indices : list nat) : list Rarity :=
  omap (rarity_get r) indices.

(** ** Vocabulary of the loop's invariant *)

(** While the processor takes the board for closed it stores no board
    bounty and shows no indicator. *)
Definition closedInvariant (s : State) : Prop :=
  prevBoardOpenSignature s = false →
  boardBounties s = [] ∧ boardPickups s = [] ∧ activeDrops s = [].

(** ** Example traces *)

Definition defaultOptions : OCRProcessorOptions.t := OCRProcessorOptions.mk None None None.

(** The board open with A held and B offered, and the same with the
    board closed. *)
Definition boardOpened : Observation.t := snapshot [Some "A"] [Some "B"] (Some exact).
Definition boardClosed : Observation.t :=
  Observation.mk [Some "A"] [Some "B"] (λ _, Some exact) false.

(** The loop sees the board open and reads it, the search settles, and
    the loop sees the board closed. *)
Definition openThenSettle : list Activity :=
  [LoopTurn (mkTurn 100 (Some (Capture.mk 100 boardOpened)) []
               200 (Some (Capture.mk 200 boardOpened)) []);
   Idle (FindBestSettled (observedSignature boardOpened)
           (Resolved (FindBestResult.mk ["A"; "B"] 30 [] 100)))].

Definition openSettleClose : list Activity :=
  openThenSettle ++ [LoopTurn (mkTurn 300 (Some (Capture.mk 300 boardClosed)) [] 400 None [])].

(** Three A and one B held, a search that settles on two A and one B,
    and a second pass after the grace period. *)
Definition dropTrace : list Event :=
  [Screenshot 0 Mode.full (snapshot dropExampleActive [] (Some exact));
   Method (FindBestSettled (observedSignature (snapshot dropExampleActive [] (Some exact)))
             (Resolved (FindBestResult.mk ["A"; "A"; "B"] 30 [] 100)));
   Screenshot 5000 Mode.full (snapshot dropExampleActive [] (Some exact))].

(** ** Session statistics: SessionTracker (screenshot-manager.ts, lines 178-318)

    The tracker's log lines and its log file are output only and are
    left out; [sessionStartTime] is read by them alone. *)

Module SessionStats.
Record t := mk {
  totalKpEarned : float;
  totalDurationSeconds : float;
  totalBountiesCompleted : nat;
  bountyTypeCounts : list (string * nat) }.
End SessionStats.

(** [Map.get] and [Map.set]: a [Map] keeps its keys in the order of their
    first insertion. *)
Fixpoint counts_get (key : string) (m : list (string * nat)) : option nat :=
  match m with
  | [] => None
  | (k, v) :: m' => if String.eqb k key then Some v else counts_get key m'
  end.

Fixpoint counts_set (key : string) (value : nat) (m : list (string * nat))
  : list (string * nat) :=
  match m with
  | [] => [(key, value)]
  | (k, v) :: m' =>
      if String.eqb k key then (k, value) :: m' else (k, v) :: counts_set key value m'
  end.

Definition newSession : SessionStats.t := SessionStats.mk 0 0 0 [].

(** Line 904 of the processor. *)
Definition rarityMultiplier (rarity : option Rarity) : float :=
  match rarity with
  | Some epic => 4
  | Some rare => 3
  | Some uncommon => 2
  | None => 1
  end.

Section SessionTracker.

(** [(bountyData as any)[bountyKey]?.kp || 0], from algorithm/bounties. *)
Variable baseKp : string → float.

(** Lines 209-220. *)
Definition recordBountyCompletion (bountyKey : string) (rarityMultiplier : float)
    (stats : SessionStats.t) : SessionStats.t :=
  let bountyKp := (baseKp bountyKey * rarityMultiplier)%float in
  SessionStats.mk
    (SessionStats.totalKpEarned stats + bountyKp)
    (SessionStats.totalDurationSeconds stats)
    (SessionStats.totalBountiesCompleted stats + 1)
    (counts_set bountyKey
       (default 0 (counts_get bountyKey (SessionStats.bountyTypeCounts stats)) + 1)
       (SessionStats.bountyTypeCounts stats)).

(** Lines 222-229. *)
Definition recordRunCompletion (actualTimeSeconds : float) (stats : SessionStats.t)
  : SessionStats.t :=
  SessionStats.mk
    (SessionStats.totalKpEarned stats)
    (SessionStats.totalDurationSeconds stats + actualTimeSeconds)
    (SessionStats.totalBountiesCompleted stats)
    (SessionStats.bountyTypeCounts stats).

Inductive TrackerCall :=
| BountyCompleted (bountyKey : string) (rarity : option Rarity)
| RunCompleted (actualTimeSeconds : float).

Definition track (stats : SessionStats.t) (r : TrackerCall) : SessionStats.t :=
  match r with
  | BountyCompleted bountyKey rarity =>
      recordBountyCompletion bountyKey (rarityMultiplier rarity) stats
  | RunCompleted actualTimeSeconds => recordRunCompletion actualTimeSeconds stats
  end.

End SessionTracker.

(** The bounties of the completions among the records, in their order. *)
Definition completedBounties (records : list TrackerCall) : list string :=
  omap (λ r, match r with BountyCompleted b _ => Some b | RunCompleted _ => None end)
       records.

(** ** Proof automation *)

(** Case analysis on every test a method makes. *)
Ltac split_ifs :=
  repeat match goal with
         | |- context [if ?b then _ else _] => destruct b
         | |- context [match ?o with Some _ => _ | None => _ end] => destruct o
         end.

(** * Properties *)

(** ** Comparisons of binary64 values *)

Lemma float_ltb_leb (x y : float) : (x <? y)%float = true → (x <=? y)%float = true.
Proof.
  rewrite FloatAxioms.ltb_spec, FloatAxioms.leb_spec. unfold SFltb, SFleb.
  destruct (SFcompare _ _) as [[]|]; congruence.
Qed.

Lemma SFcompare_refl (x : spec_float) : x ≠ S754_nan → SFcompare x x = Some Eq.
Proof.
  destruct x as [b|b| |b m e]; simpl; try congruence; intros _.
  - destruct b; reflexivity.
  - rewrite Z.compare_refl, Pos.compare_cont_refl. destruct b; reflexivity.
Qed.

Lemma float_leb_refl (z x : float) : (z <=? x)%float = true → (x <=? x)%float = true.
Proof.
  rewrite !FloatAxioms.leb_spec. unfold SFleb. intros H.
  rewrite SFcompare_refl; [reflexivity|].
  intros E. rewrite E in H. destruct (Prim2SF z); discriminate.
Qed.

Lemma lexicographic_compare (e1 e2 : Z) (m1 m2 : positive) :
  let c := match (e1 ?= e2)%Z with
           | Lt => Lt
           | Gt => Gt
           | Eq => Pos.compare_cont Eq m1 m2
           end in
  (c = Lt ↔ (e1 < e2)%Z ∨ (e1 = e2 ∧ (m1 < m2)%positive))
  ∧ (c = Eq ↔ e1 = e2 ∧ m1 = m2)
  ∧ (c = Gt ↔ (e2 < e1)%Z ∨ (e1 = e2 ∧ (m2 < m1)%positive)).
Proof.
  change (Pos.compare_cont Eq m1 m2) with (m1 ?= m2)%positive.
  destruct (Z.compare_spec e1 e2) as [He|He|He]; cbv zeta.
  - destruct (Pos.compare_spec m1 m2) as [Hm|Hm|Hm];
      repeat split; intros; try discriminate; try lia; auto.
  - repeat split; intros; try discriminate; try lia; auto.
  - repeat split; intros; try discriminate; try lia; auto.
Qed.

Lemma SFcompare_finite (b1 b2 : bool) (m1 m2 : positive) (e1 e2 : Z) :
  SFcompare (S754_finite b1 m1 e1) (S754_finite b2 m2 e2)
  = Some (let c := match (e1 ?= e2)%Z with
                   | Lt => Lt
                   | Gt => Gt
                   | Eq => Pos.compare_cont Eq m1 m2
                   end in
          match b1, b2 with
          | true, false => Lt
          | false, true => Gt
          | false, false => c
          | true, true => CompOpp c
          end).
Proof. simpl. destruct b1, b2, (e1 ?= e2)%Z; reflexivity. Qed.

Lemma SFleb_trans (x y z : spec_float) :
  SFleb x y = true → SFleb y z = true → SFleb x z = true.
Proof.
  unfold SFleb.
  destruct x as [bx|bx| |bx mx ex], y as [by_|by_| |by_ my ey], z as [bz|bz| |bz mz ez];
    try (simpl; congruence);
    try (simpl; destruct bx; simpl; congruence);
    try (simpl; destruct by_; simpl; congruence);
    try (simpl; destruct bz; simpl; congruence);
    try (simpl; destruct bx, by_; simpl; congruence);
    try (simpl; destruct by_, bz; simpl; congruence);
    try (simpl; destruct bx, bz; simpl; congruence);
    try (simpl; destruct bx, by_, bz; simpl; congruence).
  rewrite !SFcompare_finite.
  pose proof (lexicographic_compare ex ey mx my) as (Hxy1 & Hxy2 & Hxy3).
  pose proof (lexicographic_compare ey ez my mz) as (Hyz1 & Hyz2 & Hyz3).
  pose proof (lexicographic_compare ex ez mx mz) as (Hxz1 & Hxz2 & Hxz3).
  cbv zeta in *.
  destruct (match (ex ?= ey)%Z with Lt => Lt | Gt => Gt | Eq => Pos.compare_cont Eq mx my end);
    destruct (match (ey ?= ez)%Z with Lt => Lt | Gt => Gt | Eq => Pos.compare_cont Eq my mz end);
    destruct (match (ex ?= ez)%Z with Lt => Lt | Gt => Gt | Eq => Pos.compare_cont Eq mx mz end);
    destruct bx, by_, bz; simpl; try congruence; intros _ _; exfalso;
    repeat match goal with
           | H : ?a = ?a ↔ _ |- _ => apply proj1 in H; specialize (H eq_refl)
           | H : _ ↔ _ |- _ => clear H
           end; lia.
Qed.

Lemma float_leb_trans (x y z : float) :
  (x <=? y)%float = true → (y <=? z)%float = true → (x <=? z)%float = true.
Proof. rewrite !FloatAxioms.leb_spec. apply SFleb_trans. Qed.

Lemma float_eqb_zero_leb (x y : float) :
  (x =? 0)%float = true → (0 <=? y)%float = true → (x <=? y)%float = true.
Proof.
  rewrite FloatAxioms.eqb_spec, !FloatAxioms.leb_spec. unfold SFeqb, SFleb.
  change (Prim2SF 0) with (S754_zero false).
  destruct (Prim2SF x) as [b|b| |b m e], (Prim2SF y) as [b'|b'| |b' m' e'];
    simpl; try congruence; destruct b; simpl; congruence.
Qed.

Lemma compare_cont_Eq_eq (m m' : positive) c :
  c = Pos.compare_cont Eq m m' → (c = Eq ∨ CompOpp c = Eq) → m = m'.
Proof.
  intros -> H. apply Pos.compare_eq. unfold Pos.compare.
  destruct H as [H|H]; [exact H|].
  destruct (Pos.compare_cont Eq m m'); simpl in H; congruence.
Qed.

Lemma SFcompare_Eq_swap (x y : spec_float) :
  SFcompare x y = Some Eq → SFcompare y x = Some Eq.
Proof.
  destruct x as [b|b| |b m e], y as [b'|b'| |b' m' e']; simpl; try congruence;
    try (destruct b; congruence); try (destruct b'; congruence).
  - destruct b, b'; congruence.
  - intros H.
    assert (b = b' ∧ e = e' ∧ m = m') as (-> & -> & ->).
    { destruct b, b'; try discriminate H;
        (destruct (Z.compare_spec e e'); try discriminate H; subst;
         split; [reflexivity|split; [reflexivity|]];
         eapply compare_cont_Eq_eq; [reflexivity|];
         injection H as H; rewrite H; auto). }
    rewrite Z.compare_refl, Pos.compare_cont_refl. destruct b'; reflexivity.
Qed.

Lemma float_eqb_not_ltb (x y : float) : (y =? x)%float = true → (x <? y)%float = false.
Proof.
  rewrite FloatAxioms.eqb_spec, FloatAxioms.ltb_spec. unfold SFeqb, SFltb. intros H.
  destruct (SFcompare (Prim2SF y) (Prim2SF x)) as [[]|] eqn:E; try discriminate.
  now rewrite (SFcompare_Eq_swap _ _ E).
Qed.

(** ** Acceptance of a completed search *)

Lemma accepted_acceptResult (r : FindBestResult.t) (s : State) :
  accepted (acceptResult r s) = resultTriple r.
Proof.
  unfold accepted, resultTriple, acceptResult.
  repeat match goal with |- context [if ?b then _ else _] => destruct b end; reflexivity.
Qed.

Lemma inFlight_acceptResult (r : FindBestResult.t) (s : State) :
  inFlightFind (acceptResult r s) = inFlightFind s.
Proof.
  unfold acceptResult.
  repeat match goal with |- context [if ?b then _ else _] => destruct b end; reflexivity.
Qed.

Lemma accepted_clearInFlight (signature : string) (s : State) :
  accepted (clearInFlight signature s) = accepted s.
Proof.
  unfold clearInFlight. destruct (inFlightFind s) as [f|]; [|reflexivity].
  destruct (String.eqb _ _); reflexivity.
Qed.

Lemma accepts_forceOptimal (b : bool) (s : State) (r : FindBestResult.t) :
  accepts (set_forceOptimal b s) r = accepts s r.
Proof. reflexivity. Qed.

(** What a resolved search does to the accepted solution. *)
Lemma accepted_onFindBestSettled (signature : string) (r : FindBestResult.t) (s : State) :
  accepted (onFindBestSettled signature (Resolved r) s)
  = if accepts s r then resultTriple r else accepted s.
Proof.
  unfold onFindBestSettled, computeFindBest. rewrite accepted_clearInFlight.
  unfold applyResult. destruct (forceOptimal s).
  - rewrite accepts_forceOptimal. destruct (accepts s r).
    + change (accepted (acceptResult r (set_forceOptimal false s)) = resultTriple r).
      apply accepted_acceptResult.
    + reflexivity.
  - destruct (accepts s r).
    + change (accepted (acceptResult r s) = resultTriple r). apply accepted_acceptResult.
    + reflexivity.
Qed.

Lemma currentEfficiency_accepted (s s' : State) :
  accepted s' = accepted s → currentEfficiency s' = currentEfficiency s.
Proof.
  unfold accepted, currentEfficiency. intros H. injection H as -> -> ->. reflexivity.
Qed.

Lemma currentEfficiency_of_result (s : State) (r : FindBestResult.t) :
  wellFormed r → accepted s = resultTriple r → currentEfficiency s = newEfficiency r.
Proof.
  intros (Hb & Hd & _) H. unfold accepted, resultTriple in H. injection H as Hb' Hk Hd'.
  unfold currentEfficiency, newEfficiency. rewrite Hb', Hk, Hd', Hd.
  destruct (FindBestResult.bounties r); [congruence|reflexivity].
Qed.

(** One decision never lowers the accepted efficiency, and keeps it a
    number not below zero. *)
Lemma efficiency_step (signature : string) (r : FindBestResult.t) (s : State) :
  (0 <=? currentEfficiency s)%float = true → wellFormed r →
  let s' := onFindBestSettled signature (Resolved r) s in
  (currentEfficiency s <=? currentEfficiency s')%float = true
  ∧ (0 <=? currentEfficiency s')%float = true.
Proof.
  intros H0 Hwf s'.
  pose proof (accepted_onFindBestSettled signature r s) as Hacc. fold s' in Hacc.
  destruct (accepts s r) eqn:Ha.
  - rewrite (currentEfficiency_of_result s' r Hwf Hacc).
    split; [|apply Hwf].
    unfold accepts in Ha. apply orb_true_iff in Ha as [Hz|Hlt].
    + apply float_eqb_zero_leb; [exact Hz|apply Hwf].
    + apply float_ltb_leb, Hlt.
  - rewrite (currentEfficiency_accepted s s' Hacc).
    split; [apply (float_leb_refl 0), H0|exact H0].
Qed.

Lemma efficiencyTrace_bounds (results : list (string * FindBestResult.t)) :
  ∀ s, (0 <=? currentEfficiency s)%float = true →
       Forall (λ sr, wellFormed sr.2) results →
       (∀ j y, efficiencyTrace s results !! j = Some y →
               (currentEfficiency s <=? y)%float = true)
       ∧ nondecreasing (efficiencyTrace s results).
Proof.
  induction results as [|[signature r] rest IH]; intros s H0 Hwf.
  - assert (∀ j y, efficiencyTrace s [] !! j = Some y →
                   (currentEfficiency s <=? y)%float = true) as Hhead.
    { intros [|j] y Hy; [|discriminate Hy]. injection Hy as <-.
      apply (float_leb_refl 0), H0. }
    split; [exact Hhead|]. intros [|i] j x y Hij Hx Hy; [|discriminate Hx].
    injection Hx as <-. exact (Hhead j y Hy).
  - apply Forall_cons in Hwf as [Hr Hrest]. simpl in Hr.
    destruct (efficiency_step signature r s H0 Hr) as [Hle H0'].
    destruct (IH _ H0' Hrest) as [IHhead IHmono].
    assert (∀ j y, efficiencyTrace s ((signature, r) :: rest) !! j = Some y →
                   (currentEfficiency s <=? y)%float = true) as Hhead.
    { intros [|j] y Hy.
      - injection Hy as <-. apply (float_leb_refl 0), H0.
      - eapply float_leb_trans; [exact Hle|]. exact (IHhead j y Hy). }
    split; [exact Hhead|]. intros [|i] [|j] x y Hij Hx Hy.
    + injection Hx as <-. exact (Hhead 0 y Hy).
    + injection Hx as <-. exact (Hhead (S j) y Hy).
    + lia.
    + apply (IHmono i j x y); [lia|exact Hx|exact Hy].
Qed.

Lemma efficiencyTrace_nondecreasing (results : list (string * FindBestResult.t)) :
  ∀ s, (0 <=? currentEfficiency s)%float = true →
       Forall (λ sr, wellFormed sr.2) results →
       nondecreasing (efficiencyTrace s results).
Proof. intros s H0 Hwf. apply efficiencyTrace_bounds; assumption. Qed.

Lemma degenerate_trace :
  efficiencyTrace initialState degenerateResults = [0; 2; 0; 0.01]%float
  ∧ accepted (foldl (λ s sr, onFindBestSettled sr.1 (Resolved sr.2) s) initialState
                degenerateResults)
    = (["C"], 1%float, 100%float).
Proof. split; vm_compute; reflexivity. Qed.

(** C1, as stated, fails: with an accepted solution of efficiency 2, a
    result of distance zero is accepted and the accepted efficiency drops
    to zero, after which a result of efficiency 0.01 is accepted; and a
    result of efficiency zero replaces an incumbent of efficiency zero. *)
Lemma acceptance_not_monotone_for_every_result :
  ¬ monotone_for_every_result ∧ ¬ tie_never_replaces_incumbent.
Proof.
  split.
  - intros H. specialize (H degenerateResults initialState).
    destruct degenerate_trace as [Ht _]. rewrite Ht in H.
    specialize (H 1 2 2%float 0%float). discriminate H; [lia|reflexivity|reflexivity].
  - intros H.
    specialize (H "A" (FindBestResult.mk ["B"] 0 [] 10)
                  (onFindBestSettled "A" (Resolved (FindBestResult.mk ["A"] 0 [] 50))
                     initialState)).
    discriminate H; [vm_compute; discriminate|vm_compute; reflexivity].
Qed.

(** C1, amended.  A completed search replaces the accepted solution
    exactly when the accepted efficiency is zero or the new efficiency is
    strictly greater; otherwise the accepted solution stays.  Without an
    accepted solution the accepted efficiency is zero.  Over any sequence
    of results with bounties, a positive distance and an efficiency that
    is a number not below zero, starting from an accepted efficiency not
    below zero, the accepted efficiency never goes down, from any decision
    to any later one; and a result that ties with an incumbent of non-zero
    efficiency is rejected. *)
Theorem strict_improvement_acceptance :
  (∀ (signature : string) (r : FindBestResult.t) (s : State),
     (accepts s r = true ↔
        (currentEfficiency s =? 0)%float = true
        ∨ (currentEfficiency s <? newEfficiency r)%float = true)
     ∧ (accepts s r = true →
        accepted (onFindBestSettled signature (Resolved r) s) = resultTriple r)
     ∧ (accepts s r = false →
        accepted (onFindBestSettled signature (Resolved r) s) = accepted s))
  ∧ (∀ (signature : string) (r : FindBestResult.t) (s : State),
       prevOptimalBounties s = [] →
       currentEfficiency s = 0%float
       ∧ accepted (onFindBestSettled signature (Resolved r) s) = resultTriple r)
  ∧ (∀ (results : list (string * FindBestResult.t)) (s : State),
       (0 <=? currentEfficiency s)%float = true →
       Forall (λ sr, wellFormed sr.2) results →
       nondecreasing (efficiencyTrace s results))
  ∧ (∀ (signature : string) (r : FindBestResult.t) (s : State),
       (currentEfficiency s =? 0)%float = false →
       (newEfficiency r =? currentEfficiency s)%float = true →
       accepted (onFindBestSettled signature (Resolved r) s) = accepted s).
Proof.
  split; [|split; [|split]].
  - intros signature r s. split; [|split].
    + unfold accepts. apply orb_true_iff.
    + intros H. rewrite accepted_onFindBestSettled, H. reflexivity.
    + intros H. rewrite accepted_onFindBestSettled, H. reflexivity.
  - intros signature r s Hnone.
    assert (currentEfficiency s = 0%float) as Hz
      by (unfold currentEfficiency; rewrite Hnone; reflexivity).
    split; [exact Hz|]. rewrite accepted_onFindBestSettled.
    unfold accepts. rewrite Hz. reflexivity.
  - intros results s. apply efficiencyTrace_nondecreasing.
  - intros signature r s Hz Heq. rewrite accepted_onFindBestSettled.
    unfold accepts. rewrite Hz, (float_eqb_not_ltb _ _ Heq). reflexivity.
Qed.

Lemma example_results_wellFormed :
  Forall (λ sr : string * FindBestResult.t, wellFormed sr.2)
    [("A|B", FindBestResult.mk ["A"] 100 [] 50); ("A|B", FindBestResult.mk ["B"] 90 [] 30)].
Proof.
  apply Forall_cons; split; [|apply Forall_cons; split; [|apply Forall_nil_2]];
    (split; [discriminate|split; reflexivity]).
Defined.

Lemma strict_improvement_acceptance_witness :
  let r1 := FindBestResult.mk ["A"] 100 [] 50 in
  let r2 := FindBestResult.mk ["B"] 90 [] 30 in
  let tie := FindBestResult.mk ["C"] 6 [] 2 in
  let s1 := onFindBestSettled "A|B" (Resolved r1) initialState in
  let s2 := onFindBestSettled "A|B" (Resolved r2) s1 in
  accepted s1 = resultTriple r1
  ∧ accepted (onFindBestSettled "A|B" (Resolved r1) s1) = accepted s1
  ∧ nondecreasing (efficiencyTrace initialState [("A|B", r1); ("A|B", r2)])
  ∧ accepted (onFindBestSettled "C" (Resolved tie) s2) = accepted s2.
Proof.
  intros r1 r2 tie s1 s2.
  destruct strict_improvement_acceptance as (Hstep & Hnone & Hmono & Htie).
  split; [|split; [|split]].
  - apply (Hnone "A|B" r1 initialState). reflexivity.
  - apply (Hstep "A|B" r1 s1). reflexivity.
  - apply (Hmono _ initialState); [reflexivity|exact example_results_wellFormed].
  - apply (Htie "C" tie s2); reflexivity.
Defined.

(** ** The in-flight guard *)

Lemma launch_same_signature (now : Z) (allBounties : list string) (boardOpen : bool)
    (signature reason : string) (s : State) (f : InFlightFind.t) :
  inFlightFind s = Some f → InFlightFind.signature f = signature →
  launchFindBestIfNeeded now allBounties boardOpen signature reason s = (s, []).
Proof.
  intros Hf Hsig. unfold launchFindBestIfNeeded. rewrite Hf, Hsig, String.eqb_refl.
  reflexivity.
Qed.

(** C3, as stated, fails: a trigger with the signature of the stale search
    is ignored, and the stale record stays. *)
Lemma stale_same_signature_still_blocked : ¬ stale_unblocks_every_trigger.
Proof.
  intros H.
  pose (s := set_inFlightFind (Some (InFlightFind.mk "A" 0)) initialState).
  specialize (H 100000%Z ["A"] true "A" "boardRefresh" s (InFlightFind.mk "A" 0)
                eq_refl eq_refl).
  unfold relaunched in H. discriminate H.
Qed.

(** C3, amended.  A trigger whose signature differs from that of the
    in-flight search, arriving after the deadline plus 1000 ms, discards
    the stale record with a warning and starts its search; the method
    returns normally.  A trigger with the same signature is ignored
    whatever the age. *)
Theorem stale_inflight_unblocks_other_signature :
  ∀ (now : Z) (allBounties : list string) (boardOpen : bool) (signature reason : string)
    (s : State) (f : InFlightFind.t),
    inFlightFind s = Some f →
    (InFlightFind.signature f ≠ signature → stale now s f →
     relaunched now allBounties boardOpen signature reason s)
    ∧ (InFlightFind.signature f = signature →
       launchFindBestIfNeeded now allBounties boardOpen signature reason s = (s, [])).
Proof.
  intros now allBounties boardOpen signature reason s f Hf. split.
  - intros Hne Hstale. unfold relaunched, launchFindBestIfNeeded. rewrite Hf.
    apply String.eqb_neq in Hne. rewrite Hne.
    unfold stale in Hstale. apply Z.ltb_lt in Hstale. rewrite Hstale. reflexivity.
  - apply launch_same_signature, Hf.
Qed.

Lemma stale_inflight_unblocks_other_signature_witness :
  let s := set_inFlightFind (Some (InFlightFind.mk "A" 0)) initialState in
  relaunched 100000 ["A"; "B"] true "A|B" "boardRefresh" s
  ∧ launchFindBestIfNeeded 100000 ["A"] true "A" "boardRefresh" s = (s, []).
Proof.
  intros s.
  destruct (stale_inflight_unblocks_other_signature 100000 ["A"; "B"] true "A|B"
              "boardRefresh" s (InFlightFind.mk "A" 0) eq_refl) as [H _].
  destruct (stale_inflight_unblocks_other_signature 100000 ["A"] true "A"
              "boardRefresh" s (InFlightFind.mk "A" 0) eq_refl) as [_ H'].
  split.
  - apply H; [discriminate|reflexivity].
  - apply H'. reflexivity.
Defined.

(** ** The quality table *)

Lemma spawns_launch_options (now : Z) (allBounties : list string) (boardOpen : bool)
    (signature reason : string) (s : State) (req : SearchRequest.t) :
  req ∈ spawns (launchFindBestIfNeeded now allBounties boardOpen signature reason s).2 →
  SearchRequest.pruningOptions req = pruningOptions s.
Proof.
  unfold launchFindBestIfNeeded.
  destruct (inFlightFind s) as [f|].
  - destruct (String.eqb _ _); [intros H; inversion H|].
    destruct (Z.ltb _ _); [|intros H; inversion H].
    simpl. intros H. apply list_elem_of_singleton in H. subst. reflexivity.
  - simpl. intros H. apply list_elem_of_singleton in H. subst. reflexivity.
Qed.

(** ** A search that fails *)

Lemma schedulerState_clearInFlight (signature : string) (s : State) :
  schedulerState (clearInFlight signature s) = schedulerState s.
Proof.
  unfold clearInFlight. destruct (inFlightFind s) as [f|]; [|reflexivity].
  destruct (String.eqb _ _); reflexivity.
Qed.

Lemma forceOptimal_clearInFlight (signature : string) (s : State) :
  forceOptimal (clearInFlight signature s) = forceOptimal s.
Proof.
  unfold clearInFlight. destruct (inFlightFind s) as [f|]; [|reflexivity].
  destruct (String.eqb _ _); reflexivity.
Qed.

Lemma forceOptimal_acceptResult (r : FindBestResult.t) (s : State) :
  forceOptimal (acceptResult r s) = forceOptimal s.
Proof.
  unfold acceptResult.
  repeat match goal with |- context [if ?b then _ else _] => destruct b end; reflexivity.
Qed.

Lemma schedulerState_rejected (signature : string) (e : PoolError) (s : State) :
  schedulerState (onFindBestSettled signature (Rejected e) s) = schedulerState s.
Proof. unfold onFindBestSettled. rewrite schedulerState_clearInFlight. reflexivity. Qed.

Lemma forceOptimal_settled (signature : string) (outcome : SearchOutcome) (s : State) :
  forceOptimal (onFindBestSettled signature outcome s) = false.
Proof.
  unfold onFindBestSettled, computeFindBest. rewrite forceOptimal_clearInFlight.
  destruct outcome as [r|e]; [|reflexivity].
  change (forceOptimal (applyResult r (if forceOptimal s then set_forceOptimal false s else s))
          = false).
  unfold applyResult. destruct (accepts _ r).
  - rewrite forceOptimal_acceptResult. destruct (forceOptimal s) eqn:E; [reflexivity|exact E].
  - destruct (forceOptimal s) eqn:E; [reflexivity|exact E].
Qed.

(** ** The dispatcher *)

Lemma roundRobin_snoc (n : nat) (tasks : list ComboTask.t) (t : ComboTask.t) :
  roundRobin n (tasks ++ [t])
  = alter (λ c, c ++ [t]) (length tasks mod n) (roundRobin n tasks).
Proof.
  unfold roundRobin. rewrite imap_app, foldl_app. simpl.
  rewrite Nat.add_0_r. reflexivity.
Qed.

Lemma everyNth_snoc (n k : nat) (tasks : list ComboTask.t) (t : ComboTask.t) :
  everyNth n k (tasks ++ [t])
  = everyNth n k tasks ++ (if decide (length tasks mod n = k) then [t] else []).
Proof.
  unfold everyNth. rewrite imap_app, filter_app, fmap_app. f_equal.
  simpl. rewrite Nat.add_0_r, filter_cons. simpl.
  destruct (decide (length tasks mod n = k)); reflexivity.
Qed.

Lemma length_roundRobin (n : nat) (tasks : list ComboTask.t) :
  length (roundRobin n tasks) = n.
Proof.
  induction tasks as [|t tasks IH] using rev_ind.
  - apply length_replicate.
  - rewrite roundRobin_snoc, length_alter. exact IH.
Qed.

Lemma lookup_roundRobin (n k : nat) (tasks : list ComboTask.t) :
  k < n → roundRobin n tasks !! k = Some (everyNth n k tasks).
Proof.
  intros Hk. induction tasks as [|t tasks IH] using rev_ind.
  - unfold roundRobin. simpl. apply lookup_replicate_2, Hk.
  - rewrite roundRobin_snoc, everyNth_snoc, list_lookup_alter.
    destruct (decide (length tasks mod n = k)) as [E|E].
    + rewrite E, IH. reflexivity.
    + rewrite IH, app_nil_r. reflexivity.
Qed.

Lemma runOnProcess_shard (maxProcesses : nat) (respond : nat → list ComboTask.t → WorkerEvent)
    (chunk : list ComboTask.t) (k : nat) (timeoutMs : Z) :
  k < maxProcesses →
  runOnProcess maxProcesses respond chunk (k mod maxProcesses) timeoutMs false
  = ResolveList (contribution respond k chunk).
Proof.
  intros Hk. unfold runOnProcess, contribution.
  rewrite (Nat.mod_small k maxProcesses Hk).
  apply Nat.ltb_lt in Hk. rewrite Hk. simpl.
  destruct (respond k chunk) as [|[] results error]; reflexivity.
Qed.

Lemma shardResults_contributions (maxProcesses : nat)
    (respond : nat → list ComboTask.t → WorkerEvent) (n : nat)
    (tasks : list ComboTask.t) (timeoutMs : Z) :
  n ≤ maxProcesses →
  shardResults maxProcesses respond n tasks timeoutMs
  = ResolveList <$> imap (contribution respond) (roundRobin n tasks).
Proof.
  intros Hn. unfold shardResults. rewrite fmap_imap. apply imap_ext.
  intros k chunk Hk. simpl. apply runOnProcess_shard.
  apply lookup_lt_Some in Hk. rewrite length_roundRobin in Hk. lia.
Qed.

Lemma promiseAll_resolved (ls : list (list ComboResult.t)) :
  promiseAll (ResolveList <$> ls) = inr ls.
Proof. induction ls as [|l ls IH]; csimpl; [reflexivity|]. rewrite IH. reflexivity. Qed.

Lemma insertResult_Permutation (x : ComboResult.t) (l : list ComboResult.t) :
  insertResult x l ≡ₚ x :: l.
Proof.
  induction l as [|y l IH]; simpl; [reflexivity|].
  destruct (_ <? _)%float; [|reflexivity].
  rewrite IH. apply Permutation_swap.
Qed.

Lemma sortResults_Permutation (l : list ComboResult.t) : sortResults l ≡ₚ l.
Proof.
  induction l as [|x l IH]; simpl; [reflexivity|].
  rewrite insertResult_Permutation, IH. reflexivity.
Qed.

Lemma findBest_single (maxProcesses : nat) (respond : nat → list ComboTask.t → WorkerEvent)
    (comboTasks : list ComboTask.t) (options : PruningOptions.t) (timeoutMs : Z) :
  1 ≤ length (truncate comboTasks options) → length (truncate comboTasks options) ≤ 20 →
  findBest maxProcesses respond comboTasks options timeoutMs
  = runOnProcess maxProcesses respond (truncate comboTasks options) 0 timeoutMs true.
Proof.
  intros H1 H20. unfold findBest.
  destruct (Nat.eqb_spec (length (truncate comboTasks options)) 0); [lia|].
  destruct (Nat.leb_spec (length (truncate comboTasks options)) 20); [reflexivity|lia].
Qed.

Lemma findBest_multi (maxProcesses : nat) (respond : nat → list ComboTask.t → WorkerEvent)
    (comboTasks : list ComboTask.t) (options : PruningOptions.t) (timeoutMs : Z) :
  1 ≤ maxProcesses → 20 < length (truncate comboTasks options) →
  let tasks := truncate comboTasks options in
  let numProcesses := Nat.min maxProcesses (ceilDiv10 (length tasks)) in
  let merged := concat (imap (contribution respond) (roundRobin numProcesses tasks)) in
  findBest maxProcesses respond comboTasks options timeoutMs
  = match sortResults merged with
    | [] => Reject NoValidRoutesFound
    | best :: _ => ResolveResult (toFindBestResult best)
    end.
Proof.
  intros HP Hlen tasks numProcesses merged. unfold findBest. fold tasks.
  destruct (Nat.eqb_spec (length tasks) 0); [unfold tasks in *; lia|].
  destruct (Nat.leb_spec (length tasks) 20); [unfold tasks in *; lia|].
  fold numProcesses.
  assert (1 ≤ ceilDiv10 (length tasks)) as Hc.
  { unfold ceilDiv10. apply (Nat.div_le_lower_bound _ 10 1); lia. }
  destruct (Nat.eqb_spec numProcesses 0); [unfold numProcesses in *; lia|].
  rewrite shardResults_contributions by (unfold numProcesses; lia).
  rewrite promiseAll_resolved. reflexivity.
Qed.

Lemma runOnProcess_single_fails (maxProcesses : nat)
    (respond : nat → list ComboTask.t → WorkerEvent) (tasks : list ComboTask.t)
    (timeoutMs : Z) :
  1 ≤ maxProcesses → timedOutOrErrored (respond 0 tasks) →
  ∃ e, runOnProcess maxProcesses respond tasks 0 timeoutMs true = Reject e
       ∧ (respond 0 tasks = TimedOut → e = ProcessTimedOut timeoutMs).
Proof.
  intros HP H. unfold runOnProcess.
  destruct (Nat.ltb_spec 0 maxProcesses); [|lia]. simpl.
  destruct H as [->|(results & error & ->)].
  - eexists. split; reflexivity.
  - eexists. split; [reflexivity|discriminate].
Qed.

Lemma contribution_failed (respond : nat → list ComboTask.t → WorkerEvent) (k : nat)
    (chunk : list ComboTask.t) :
  timedOutOrErrored (respond k chunk) → contribution respond k chunk = [].
Proof.
  unfold contribution. intros [->|(results & error & ->)]; reflexivity.
Qed.

(** C8.  At most 20 candidates: one request to process 0, whose timeout
    or error rejects the search.  More than 20: round-robin chunks over
    [min(maxProcesses, ceil(count / 10))] processes; a shard that timed out
    or errored contributes the empty list; the search is rejected, with
    "No valid routes found", exactly when the merged list is empty. *)
Theorem dispatch_by_candidate_count :
  ∀ (maxProcesses : nat) (respond : nat → list ComboTask.t → WorkerEvent)
    (comboTasks : list ComboTask.t) (options : PruningOptions.t) (timeoutMs : Z),
    let tasks := truncate comboTasks options in
    let result := findBest maxProcesses respond comboTasks options timeoutMs in
    1 ≤ maxProcesses → 1 ≤ length tasks →
    (length tasks ≤ 20 →
       result = runOnProcess maxProcesses respond tasks 0 timeoutMs true
       ∧ (timedOutOrErrored (respond 0 tasks) →
          ∃ e, result = Reject e
               ∧ (respond 0 tasks = TimedOut → e = ProcessTimedOut timeoutMs)))
    ∧ (20 < length tasks →
       let numProcesses := Nat.min maxProcesses (ceilDiv10 (length tasks)) in
       let chunks := roundRobin numProcesses tasks in
       let merged := concat (imap (contribution respond) chunks) in
       length chunks = numProcesses
       ∧ (∀ k, k < numProcesses → chunks !! k = Some (everyNth numProcesses k tasks))
       ∧ shardResults maxProcesses respond numProcesses tasks timeoutMs
         = ResolveList <$> imap (contribution respond) chunks
       ∧ (∀ k chunk, chunks !! k = Some chunk → timedOutOrErrored (respond k chunk) →
                     contribution respond k chunk = [])
       ∧ (merged = [] → result = Reject NoValidRoutesFound)
       ∧ (merged ≠ [] →
          ∃ best, best ∈ merged ∧ result = ResolveResult (toFindBestResult best))).
Proof.
  intros maxProcesses respond comboTasks options timeoutMs tasks result HP Hn. split.
  - intros H20. unfold result. rewrite findBest_single by assumption. fold tasks.
    split; [reflexivity|]. intros H. apply runOnProcess_single_fails; assumption.
  - intros H20 numProcesses chunks merged.
    split; [apply length_roundRobin|].
    split; [intros k Hk; apply lookup_roundRobin, Hk|].
    split; [apply shardResults_contributions; unfold numProcesses; lia|].
    split; [intros k chunk _; apply contribution_failed|].
    unfold result. rewrite findBest_multi by assumption.
    fold tasks. fold numProcesses. fold chunks. fold merged.
    pose proof (sortResults_Permutation merged) as Hperm.
    split.
    + intros E. rewrite E. reflexivity.
    + intros Hne. destruct (sortResults merged) as [|best rest] eqn:E.
      * apply Permutation_nil_l in Hperm. congruence.
      * exists best. split; [|reflexivity].
        rewrite <- Hperm. apply list_elem_of_here.
Qed.

(** C9.  A rejected search leaves the accepted solution, the steps, the
    step cursor and the display values as they were, and every settled
    search, resolved or rejected, leaves the force-optimal flag cleared.
    The rejections include the timeout of the single worker and the empty
    merge. *)
Theorem failed_search_keeps_state :
  (∀ (signature : string) (e : PoolError) (s : State),
     schedulerState (onFindBestSettled signature (Rejected e) s) = schedulerState s)
  ∧ (∀ (signature : string) (outcome : SearchOutcome) (s : State),
       forceOptimal (onFindBestSettled signature outcome s) = false)
  ∧ (∀ (maxProcesses : nat) (respond : nat → list ComboTask.t → WorkerEvent)
       (comboTasks : list ComboTask.t) (options : PruningOptions.t) (timeoutMs : Z)
       (signature : string) (s : State),
       let tasks := truncate comboTasks options in
       let result := findBest maxProcesses respond comboTasks options timeoutMs in
       1 ≤ maxProcesses → 1 ≤ length tasks →
       (length tasks ≤ 20 ∧ respond 0 tasks = TimedOut)
       ∨ (20 < length tasks
          ∧ concat (imap (contribution respond)
                      (roundRobin (Nat.min maxProcesses (ceilDiv10 (length tasks))) tasks))
            = []) →
       ∃ e s', result = Reject e
               ∧ settleSearch signature result s = Some s'
               ∧ schedulerState s' = schedulerState s
               ∧ forceOptimal s' = false).
Proof.
  split; [exact schedulerState_rejected|split; [exact forceOptimal_settled|]].
  intros maxProcesses respond comboTasks options timeoutMs signature s tasks result HP Hn H.
  assert (∃ e, result = Reject e) as [e He].
  { unfold result. destruct H as [[H20 Ht]|[H20 Hm]].
    - rewrite findBest_single by assumption. fold tasks.
      destruct (runOnProcess_single_fails maxProcesses respond tasks timeoutMs HP)
        as (e & He & _); [left; exact Ht|].
      exists e. exact He.
    - rewrite findBest_multi by assumption. fold tasks. rewrite Hm.
      exists NoValidRoutesFound. reflexivity. }
  exists e, (onFindBestSettled signature (Rejected e) s).
  split; [exact He|]. rewrite He.
  split; [reflexivity|].
  split; [apply schedulerState_rejected|apply forceOptimal_settled].
Qed.

Lemma dispatch_by_candidate_count_witness :
  (∃ e, findBest (defaultMaxProcesses 4) silentPool fewTasks unbounded 20000 = Reject e
        ∧ (silentPool 0 fewTasks = TimedOut → e = ProcessTimedOut 20000))
  ∧ length (roundRobin 3 manyTasks) = 3
  ∧ contribution oneShardAnswers 0 (everyNth 3 0 manyTasks) = []
  ∧ findBest (defaultMaxProcesses 4) silentPool manyTasks unbounded 20000
    = Reject NoValidRoutesFound
  ∧ ∃ best, best ∈ concat (imap (contribution oneShardAnswers) (roundRobin 3 manyTasks))
            ∧ findBest (defaultMaxProcesses 4) oneShardAnswers manyTasks unbounded 20000
              = ResolveResult (toFindBestResult best).
Proof.
  pose proof (dispatch_by_candidate_count (defaultMaxProcesses 4) silentPool fewTasks
                unbounded 20000) as Hfew.
  pose proof (dispatch_by_candidate_count (defaultMaxProcesses 4) silentPool manyTasks
                unbounded 20000) as Hsilent.
  pose proof (dispatch_by_candidate_count (defaultMaxProcesses 4) oneShardAnswers manyTasks
                unbounded 20000) as Hone.
  simpl in Hfew, Hsilent, Hone.
  destruct Hfew as [Hfew _]; [vm_compute; lia|lia|].
  destruct Hsilent as [_ Hsilent]; [vm_compute; lia|lia|].
  destruct Hone as [_ Hone]; [vm_compute; lia|lia|].
  destruct Hfew as [_ Hfew]; [lia|].
  destruct Hsilent as (_ & _ & _ & _ & Hsilent & _); [lia|].
  destruct Hone as (Hlen & Hchunk & _ & Hfail & _ & Hone); [lia|].
  split; [apply Hfew; left; reflexivity|].
  split; [exact Hlen|].
  split; [apply Hfail; [apply Hchunk; vm_compute; lia|right; eexists _, _; reflexivity]|].
  split; [apply Hsilent; reflexivity|].
  apply Hone. discriminate.
Defined.

Lemma failed_search_keeps_state_witness :
  let accepted1 :=
    onFindBestSettled "A|B" (Resolved (FindBestResult.mk ["A"] 100 [buy "A" "Market" 3] 50))
      (set_forceOptimal true initialState) in
  (∃ e s', findBest (defaultMaxProcesses 4) silentPool fewTasks unbounded 20000 = Reject e
           ∧ settleSearch "A|B"
               (findBest (defaultMaxProcesses 4) silentPool fewTasks unbounded 20000)
               accepted1 = Some s'
           ∧ schedulerState s' = schedulerState accepted1
           ∧ forceOptimal s' = false)
  ∧ (∃ e s', findBest (defaultMaxProcesses 4) silentPool manyTasks unbounded 20000 = Reject e
             ∧ settleSearch "A|B"
                 (findBest (defaultMaxProcesses 4) silentPool manyTasks unbounded 20000)
                 accepted1 = Some s'
             ∧ schedulerState s' = schedulerState accepted1
             ∧ forceOptimal s' = false).
Proof.
  intros accepted1.
  destruct failed_search_keeps_state as (_ & _ & H).
  split.
  - apply (H (defaultMaxProcesses 4) silentPool fewTasks unbounded 20000%Z "A|B" accepted1);
      [vm_compute; lia|simpl; lia|].
    left. split; [simpl; lia|reflexivity].
  - apply (H (defaultMaxProcesses 4) silentPool manyTasks unbounded 20000%Z "A|B" accepted1);
      [vm_compute; lia|simpl; lia|].
    right. split; [simpl; lia|reflexivity].
Defined.

(** ** Slot tables *)

Lemma elem_of_slot_entries_from (m : slots) (i j : nat) (b : string) :
  (j, b) ∈ slot_entries_from i m ↔ ∃ k, j = i + k ∧ m !! k = Some (Some b).
Proof.
  revert i. induction m as [|[c|] m IH]; intros i; simpl.
  - split; [intros H; inversion H|intros (k & _ & H); discriminate].
  - rewrite elem_of_cons, IH. split.
    + intros [E|(k & -> & Hk)].
      * injection E as -> ->. exists 0. split; [lia|reflexivity].
      * exists (S k). split; [lia|exact Hk].
    + intros ([|k] & -> & Hk).
      * left. simpl in Hk. injection Hk as ->. f_equal. lia.
      * right. exists k. split; [lia|exact Hk].
  - rewrite IH. split.
    + intros (k & -> & Hk). exists (S k). split; [lia|exact Hk].
    + intros ([|k] & -> & Hk); [discriminate|].
      exists k. split; [lia|exact Hk].
Qed.

Lemma elem_of_slot_entries (m : slots) (j : nat) (b : string) :
  (j, b) ∈ slot_entries m ↔ slot_get m j = Some b.
Proof.
  unfold slot_entries, slot_get. rewrite elem_of_slot_entries_from. split.
  - intros (k & -> & Hk). simpl. rewrite Hk. reflexivity.
  - intros H. exists j. split; [reflexivity|].
    destruct (m !! j) as [[c|]|]; congruence.
Qed.

Lemma elem_of_slot_keys (m : slots) (j : nat) :
  j ∈ slot_keys m ↔ slot_has m j = true.
Proof.
  unfold slot_keys, slot_has. rewrite list_elem_of_fmap. split.
  - intros ([j' b] & -> & H). apply elem_of_slot_entries in H. simpl. rewrite H. reflexivity.
  - destruct (slot_get m j) as [b|] eqn:E; [|discriminate]. intros _.
    exists (j, b). split; [reflexivity|]. apply elem_of_slot_entries, E.
Qed.

Lemma slot_entries_from_sorted (m : slots) (i : nat) :
  StronglySorted lt (slot_entries_from i m).*1
  ∧ Forall (λ j, i ≤ j) (slot_entries_from i m).*1.
Proof.
  revert i. induction m as [|[c|] m IH]; intros i; simpl.
  - split; constructor.
  - destruct (IH (S i)) as [Hs Hf]. split.
    + constructor; [exact Hs|]. eapply Forall_impl; [exact Hf|]. simpl. lia.
    + constructor; [lia|]. eapply Forall_impl; [exact Hf|]. simpl. lia.
  - destruct (IH (S i)) as [Hs Hf]. split; [exact Hs|].
    eapply Forall_impl; [exact Hf|]. simpl. lia.
Qed.

Lemma slot_keys_sorted (m : slots) : StronglySorted lt (slot_keys m).
Proof. apply slot_entries_from_sorted. Qed.

Lemma slot_get_set (m : slots) (i j : nat) (b : string) :
  slot_get (slot_set m i b) j = if decide (i = j) then Some b else slot_get m j.
Proof.
  unfold slot_get, slot_set. destruct (decide (i < length m)) as [Hi|Hi]; cbv beta iota.
  - destruct (decide (i = j)) as [->|Hne].
    + rewrite list_lookup_insert_eq by exact Hi. reflexivity.
    + rewrite list_lookup_insert_ne by exact Hne. reflexivity.
  - destruct (decide (i = j)) as [<-|Hne].
    + rewrite lookup_app_r by lia.
      rewrite lookup_app_r by (rewrite length_replicate; lia).
      rewrite length_replicate. replace (i - length m - (i - length m)) with 0 by lia.
      reflexivity.
    + destruct (decide (j < length m)) as [Hj|Hj].
      * rewrite lookup_app_l by exact Hj. reflexivity.
      * rewrite lookup_app_r by lia.
        rewrite (lookup_ge_None_2 m j) by lia.
        destruct (decide (j - length m < i - length m)) as [Hlt|Hge].
        -- rewrite lookup_app_l by (rewrite length_replicate; lia).
           rewrite lookup_replicate_2 by lia. reflexivity.
        -- rewrite lookup_app_r by (rewrite length_replicate; lia).
           rewrite length_replicate.
           destruct (j - length m - (i - length m)) as [|n] eqn:E; [lia|reflexivity].
Qed.

Lemma slot_get_delete (m : slots) (i j : nat) :
  slot_get (slot_delete m i) j = if decide (i = j) then None else slot_get m j.
Proof.
  unfold slot_get, slot_delete. destruct (decide (i = j)) as [->|Hne].
  - destruct (decide (j < length m)) as [Hj|Hj].
    + rewrite list_lookup_insert_eq by exact Hj. reflexivity.
    + rewrite list_insert_ge by lia. rewrite (lookup_ge_None_2 m j) by lia. reflexivity.
  - rewrite list_lookup_insert_ne by exact Hne. reflexivity.
Qed.

Lemma slot_has_get (m : slots) (i : nat) :
  slot_has m i = true ↔ ∃ b, slot_get m i = Some b.
Proof.
  unfold slot_has. destruct (slot_get m i) as [b|]; split; eauto; try discriminate.
  intros [? H]. discriminate.
Qed.


Lemma slot_get_keepDetected_fold (detected : slots) (keys : list nat) (m : slots) (j : nat) :
  slot_get (foldl (λ m idx, if slot_has detected idx then m else slot_delete m idx) m keys) j
  = if bool_decide (j ∈ keys) && negb (slot_has detected j) then None else slot_get m j.
Proof.
  revert m. induction keys as [|k keys IH]; intros m; simpl.
  - reflexivity.
  - rewrite IH. destruct (decide (k = j)) as [->|Hne].
    + rewrite (bool_decide_eq_true_2 (j ∈ j :: keys)) by apply list_elem_of_here.
      destruct (slot_has detected j); simpl.
      * rewrite andb_false_r. reflexivity.
      * rewrite slot_get_delete. destruct (decide (j = j)); [|congruence].
        destruct (bool_decide _); reflexivity.
    + assert (bool_decide (j ∈ k :: keys) = bool_decide (j ∈ keys)) as ->.
      { apply bool_decide_ext. rewrite elem_of_cons.
        split; [intros [E|Hin]; [congruence|exact Hin]|intros Hin; right; exact Hin]. }
      destruct (bool_decide (j ∈ keys) && negb (slot_has detected j)); [reflexivity|].
      destruct (slot_has detected k); [reflexivity|].
      rewrite slot_get_delete. destruct (decide (k = j)); [congruence|reflexivity].
Qed.

Lemma slot_get_keepDetected (detected m : slots) (j : nat) :
  slot_get (keepDetected detected m) j
  = if slot_has detected j then slot_get m j else None.
Proof.
  unfold keepDetected. rewrite slot_get_keepDetected_fold.
  destruct (slot_has detected j); simpl.
  - rewrite andb_false_r. reflexivity.
  - rewrite andb_true_r. destruct (bool_decide_reflect (j ∈ slot_keys m)) as [H|H].
    + reflexivity.
    + rewrite elem_of_slot_keys in H. unfold slot_has in H.
      destruct (slot_get m j); [congruence|reflexivity].
Qed.

Lemma persistBoardSlot_accepts (boardBounties : slots) (matchType : nat → option MatchType)
    (updatedBoard : slots) (idx : nat) (newBounty : string) :
  persistBoardSlot boardBounties matchType updatedBoard (idx, newBounty)
  = if boardSlotAccepts boardBounties matchType idx newBounty
    then slot_set updatedBoard idx newBounty else updatedBoard.
Proof.
  unfold persistBoardSlot, boardSlotAccepts.
  destruct (truthy _); simpl; [|reflexivity].
  destruct (isExact _ || bool_decide _); reflexivity.
Qed.

Lemma slot_get_persist_fold (boardBounties : slots) (matchType : nat → option MatchType)
    (entries : list (nat * string)) :
  NoDup entries.*1 →
  ∀ (updatedBoard : slots) (j : nat),
    (∀ new, (j, new) ∈ entries →
       slot_get (foldl (persistBoardSlot boardBounties matchType) updatedBoard entries) j
       = if boardSlotAccepts boardBounties matchType j new then Some new
         else slot_get updatedBoard j)
    ∧ (j ∉ entries.*1 →
       slot_get (foldl (persistBoardSlot boardBounties matchType) updatedBoard entries) j
       = slot_get updatedBoard j).
Proof.
  induction entries as [|[k b] entries IH]; intros Hnd U j.
  - split; [intros new H; inversion H|reflexivity].
  - rewrite fmap_cons in Hnd. apply NoDup_cons in Hnd as [Hk Hnd].
    specialize (IH Hnd). cbn [foldl]. rewrite persistBoardSlot_accepts. split.
    + intros new Hin. apply elem_of_cons in Hin as [E|Hin].
      * injection E as -> ->.
        destruct (IH (if boardSlotAccepts boardBounties matchType k b
                      then slot_set U k b else U) k) as [_ IH2].
        rewrite IH2 by exact Hk.
        destruct (boardSlotAccepts _ _ k b); [|reflexivity].
        rewrite slot_get_set. destruct (decide (k = k)); [reflexivity|congruence].
      * destruct (IH (if boardSlotAccepts boardBounties matchType k b
                      then slot_set U k b else U) j) as [IH1 _].
        rewrite (IH1 new Hin).
        assert (k ≠ j) as Hne.
        { intros ->. apply Hk. apply list_elem_of_fmap. exists (j, new). split; auto. }
        destruct (boardSlotAccepts _ _ j new); [reflexivity|].
        destruct (boardSlotAccepts _ _ k b); [|reflexivity].
        rewrite slot_get_set. destruct (decide (k = j)); [congruence|reflexivity].
    + intros Hj. rewrite fmap_cons, not_elem_of_cons in Hj. destruct Hj as [Hne Hj].
      simpl in Hne.
      destruct (IH (if boardSlotAccepts boardBounties matchType k b
                    then slot_set U k b else U) j) as [_ IH2].
      rewrite IH2 by exact Hj.
      destruct (boardSlotAccepts _ _ k b); [|reflexivity].
      rewrite slot_get_set. destruct (decide (k = j)); [congruence|reflexivity].
Qed.

Lemma StronglySorted_lt_NoDup (l : list nat) : StronglySorted lt l → NoDup l.
Proof.
  induction 1 as [|x l Hs IH Hf]; constructor; [|exact IH].
  intros Hin. rewrite Forall_forall in Hf. specialize (Hf x Hin). lia.
Qed.

(** What [updateBoard] leaves in a slot that was detected this tick. *)
Lemma slot_get_updateBoard (boardBounties : slots) (obs : Observation.t) (idx : nat)
    (new : string) :
  Observation.boardOpen obs = true →
  slot_get (Observation.detectedBoard obs) idx = Some new →
  slot_get (updateBoard boardBounties obs) idx
  = if boardSlotAccepts boardBounties (Observation.boardMatchType obs) idx new
    then Some new else slot_get boardBounties idx.
Proof.
  intros Hopen Hdet. unfold updateBoard. rewrite Hopen. simpl.
  assert (slot_get (foldl (persistBoardSlot boardBounties (Observation.boardMatchType obs))
                      boardBounties (slot_entries (Observation.detectedBoard obs))) idx
          = if boardSlotAccepts boardBounties (Observation.boardMatchType obs) idx new
            then Some new else slot_get boardBounties idx) as Hfold.
  { apply slot_get_persist_fold.
    - apply StronglySorted_lt_NoDup, slot_keys_sorted.
    - apply elem_of_slot_entries, Hdet. }
  destruct (boardCountDecreased _ _); [|exact Hfold].
  rewrite slot_get_keepDetected. unfold slot_has. rewrite Hdet. exact Hfold.
Qed.

(** ** The tick: which fields each step may write *)

Lemma fst_andThen (r : State * list Effect) (k : State → State * list Effect) :
  (andThen r k).1 = (k r.1).1.
Proof. unfold andThen. destruct r as [s es]. simpl. destruct (k s). reflexivity. Qed.

Lemma snd_andThen (r : State * list Effect) (k : State → State * list Effect) :
  (andThen r k).2 = r.2 ++ (k r.1).2.
Proof. unfold andThen. destruct r as [s es]. simpl. destruct (k s). reflexivity. Qed.

Lemma spawns_app (es es' : list Effect) : spawns (es ++ es') = spawns es ++ spawns es'.
Proof. unfold spawns. apply omap_app. Qed.

Lemma frame_fields (s s' : State) :
  frame s = frame s' →
  activeBounties s = activeBounties s' ∧ boardBounties s = boardBounties s'
  ∧ prevActiveBounties s = prevActiveBounties s'
  ∧ recentActiveAdds s = recentActiveAdds s'
  ∧ activeDrops s = activeDrops s' ∧ boardPickups s = boardPickups s'.
Proof. unfold frame. intros H. injection H as -> -> -> -> -> ->. repeat split. Qed.

Lemma frame_launch (now : Z) (allBounties : list string) (boardOpen : bool)
    (signature reason : string) (s : State) :
  frame (launchFindBestIfNeeded now allBounties boardOpen signature reason s).1 = frame s.
Proof. unfold launchFindBestIfNeeded. split_ifs; reflexivity. Qed.

Lemma optimal_launch (now : Z) (allBounties : list string) (boardOpen : bool)
    (signature reason : string) (s : State) :
  prevOptimalBounties (launchFindBestIfNeeded now allBounties boardOpen signature reason s).1
  = prevOptimalBounties s.
Proof. unfold launchFindBestIfNeeded. split_ifs; reflexivity. Qed.

Lemma frame_boardClosedRecalc (now : Z) (boardTransition boardOpen : bool)
    (detectedActive : slots) (s : State) :
  frame (boardClosedRecalc now boardTransition boardOpen detectedActive s).1 = frame s.
Proof.
  unfold boardClosedRecalc. split_ifs; try reflexivity. rewrite frame_launch. reflexivity.
Qed.

Lemma boardClosedRecalc_open (now : Z) (boardTransition : bool) (detectedActive : slots)
    (s : State) :
  boardClosedRecalc now boardTransition true detectedActive s = (s, []).
Proof. unfold boardClosedRecalc. simpl. rewrite andb_false_r. reflexivity. Qed.

Lemma frame_recomputeIfNeeded (now : Z) (obs : Observation.t) (firstRun boardTransition
    signatureChanged : bool) (allBounties : list string) (signature : string)
    (updatedBoard : slots) (s : State) :
  frame (recomputeIfNeeded now obs firstRun boardTransition signatureChanged allBounties
           signature updatedBoard s).1 = frame s.
Proof.
  unfold recomputeIfNeeded. cbv zeta.
  destruct (shouldRecompute _ _ _ _ _ _ _ _ _ _); [|reflexivity].
  rewrite frame_launch. destruct (firstRun || boardTransition); reflexivity.
Qed.

Lemma optimal_recomputeIfNeeded (now : Z) (obs : Observation.t) (firstRun boardTransition
    signatureChanged : bool) (allBounties : list string) (signature : string)
    (updatedBoard : slots) (s : State) :
  prevOptimalBounties (recomputeIfNeeded now obs firstRun boardTransition signatureChanged
                         allBounties signature updatedBoard s).1 = prevOptimalBounties s.
Proof.
  unfold recomputeIfNeeded. cbv zeta.
  destruct (shouldRecompute _ _ _ _ _ _ _ _ _ _); [|reflexivity].
  rewrite optimal_launch. destruct (firstRun || boardTransition); reflexivity.
Qed.

Lemma frame_sanityCheck (now : Z) (detectedActive : slots) (s : State) :
  frame (sanityCheck now detectedActive s).1 = frame s.
Proof.
  unfold sanityCheck. cbv zeta. split_ifs; try reflexivity.
  rewrite frame_launch. reflexivity.
Qed.

Lemma frame_handleCompletion (now : Z) (obs : Observation.t) (prevActiveCount
    currActiveCount : nat) (completedBounty : option string) (s : State) :
  frame (handleCompletion now obs prevActiveCount currActiveCount completedBounty s).1
  = frame s.
Proof.
  unfold handleCompletion. destruct (truthy _ && negb _); [|reflexivity].
  rewrite frame_sanityCheck. destruct (findSellIndex _ _); reflexivity.
Qed.

Lemma handleCompletion_open (now : Z) (obs : Observation.t) (prevActiveCount
    currActiveCount : nat) (completedBounty : option string) (s : State) :
  Observation.boardOpen obs = true →
  handleCompletion now obs prevActiveCount currActiveCount completedBounty s = (s, []).
Proof. intros H. unfold handleCompletion. rewrite H, andb_false_r. reflexivity. Qed.

Lemma frame_handleAllCompleted (prevActiveCount currActiveCount : nat)
    (completedBounty : option string) (s : State) :
  frame (handleAllCompleted prevActiveCount currActiveCount completedBounty s) = frame s.
Proof. unfold handleAllCompleted. split_ifs; reflexivity. Qed.

Lemma inFlight_handleAllCompleted (prevActiveCount currActiveCount : nat)
    (completedBounty : option string) (s : State) :
  inFlightFind (handleAllCompleted prevActiveCount currActiveCount completedBounty s)
  = inFlightFind s.
Proof. unfold handleAllCompleted. split_ifs; reflexivity. Qed.

Lemma frame_checkStepsConsistency (now : Z) (activeBounties : slots) (boardOpen : bool)
    (s : State) :
  frame (checkStepsConsistency now activeBounties boardOpen s).1 = frame s.
Proof.
  unfold checkStepsConsistency. cbv zeta. split_ifs; try reflexivity.
  rewrite frame_launch. reflexivity.
Qed.

Lemma inFlight_checkStepsConsistency_open (now : Z) (activeBounties : slots) (s : State) :
  inFlightFind (checkStepsConsistency now activeBounties true s).1 = inFlightFind s.
Proof. unfold checkStepsConsistency. cbv zeta. split_ifs; reflexivity. Qed.

Lemma computeActiveDrops_closed (recomputeInFlight : bool) (optimalBounties : list string)
    (recent : gmap nat Z) (now : Z) (detectedActive : slots) :
  computeActiveDrops recomputeInFlight false optimalBounties recent now detectedActive = [].
Proof. unfold computeActiveDrops. rewrite orb_true_r. reflexivity. Qed.

(** The indicator phase, lines 801-1018. *)
Lemma frame_withOptimal (now : Z) (obs : Observation.t) (updatedBoard : slots) (s : State) :
  let boardOpen := Observation.boardOpen obs in
  let detectedActive := Observation.detectedActive obs in
  let updatedActive :=
    updateActive (activeBounties s) detectedActive
      (Nat.ltb (slot_count detectedActive) (slot_count (prevActiveBounties s))) in
  frame (withOptimal now obs updatedBoard s).1
  = (updatedActive, updatedBoard, updatedActive, recentActiveAdds s,
     computeActiveDrops (bool_decide (is_Some (inFlightFind s))) boardOpen
       (prevOptimalBounties s) (recentActiveAdds s) now detectedActive,
     computeBoardPickups boardOpen (prevOptimalBounties s) updatedActive updatedBoard).
Proof.
  intros boardOpen detectedActive updatedActive. unfold withOptimal. cbv zeta.
  rewrite !fst_andThen, frame_checkStepsConsistency.
  unfold frame at 1. cbn [activeBounties boardBounties prevActiveBounties recentActiveAdds
    activeDrops boardPickups set_boardPickups set_prevActiveBounties set_boardBounties
    set_activeBounties].
  match goal with
  | |- (_, _, _, recentActiveAdds ?X, activeDrops ?X, _) = _ =>
      assert (frame X = frame (set_activeDrops
                (computeActiveDrops (bool_decide (is_Some (inFlightFind s))) boardOpen
                   (prevOptimalBounties s) (recentActiveAdds s) now detectedActive) s))
        as HX
  end.
  { rewrite frame_handleAllCompleted, frame_handleCompletion.
    destruct (_ && Observation.boardOpen obs); reflexivity. }
  destruct (frame_fields _ _ HX) as (_ & _ & _ & -> & -> & _). reflexivity.
Qed.

Lemma inFlight_withOptimal_open (now : Z) (obs : Observation.t) (updatedBoard : slots)
    (s : State) :
  Observation.boardOpen obs = true →
  inFlightFind (withOptimal now obs updatedBoard s).1 = inFlightFind s.
Proof.
  intros Hopen. unfold withOptimal. cbv zeta. rewrite !fst_andThen, Hopen.
  rewrite inFlight_checkStepsConsistency_open.
  cbn [inFlightFind set_boardPickups set_prevActiveBounties set_boardBounties
         set_activeBounties].
  rewrite inFlight_handleAllCompleted, handleCompletion_open by exact Hopen.
  destruct (_ && true); reflexivity.
Qed.

Lemma frame_resetDisplayOnOpen (boardTransition boardOpen : bool) (s : State) :
  frame (resetDisplayOnOpen boardTransition boardOpen s) = frame s.
Proof. unfold resetDisplayOnOpen. split_ifs; reflexivity. Qed.

Lemma optimal_resetDisplayOnOpen (boardTransition boardOpen : bool) (s : State) :
  prevOptimalBounties (resetDisplayOnOpen boardTransition boardOpen s)
  = prevOptimalBounties s.
Proof. unfold resetDisplayOnOpen. split_ifs; reflexivity. Qed.

Lemma frame_schedule_if (c : bool) (s : State) :
  frame (if c then scheduleAdjustmentRecalculation s else (s, [])).1 = frame s.
Proof. destruct c; reflexivity. Qed.

Lemma optimal_schedule_if (c : bool) (s : State) :
  prevOptimalBounties (if c then scheduleAdjustmentRecalculation s else (s, [])).1
  = prevOptimalBounties s.
Proof. destruct c; reflexivity. Qed.

(** The tick in two halves: [s5] is the state at line 789, after the
    trigger decision; the rest is the indicator phase. *)
Lemma tick_state (now : Z) (obs : Observation.t) (s : State) :
  ∃ s5 : State,
    frame s5 = frame (trackRecentAdds now (Observation.detectedActive obs) s)
    ∧ (Observation.boardOpen obs = true → prevOptimalBounties s5 = prevOptimalBounties s)
    ∧ (processOCRResultsAsync now obs s).1
      = if negb (Nat.ltb 0 (length (prevOptimalBounties s5))) then
          set_prevActiveBounties (Observation.detectedActive obs)
            (set_boardBounties (Observation.detectedBoard obs)
               (set_activeBounties (Observation.detectedActive obs)
                  (set_boardPickups [] (set_activeDrops [] s5))))
        else (withOptimal now obs (updateBoard (boardBounties s) obs) s5).1.
Proof.
  unfold processOCRResultsAsync. cbv zeta. rewrite !fst_andThen.
  match goal with
  | |- context [boardClosedRecalc ?a ?b ?c ?d ?S1] =>
      pose proof (frame_boardClosedRecalc a b c d S1) as H2;
      pose proof (boardClosedRecalc_open a b d S1) as H2o;
      set (S2 := (boardClosedRecalc a b c d S1).1) in *
  end.
  rewrite frame_resetDisplayOnOpen in H2.
  assert (boardBounties S2 = boardBounties s) as HB.
  { destruct (frame_fields _ _ H2) as (_ & -> & _). reflexivity. }
  rewrite HB.
  match goal with
  | |- context [recomputeIfNeeded ?a ?b ?c ?d ?e ?f ?g ?h ?S3] =>
      pose proof (frame_recomputeIfNeeded a b c d e f g h S3) as H4;
      pose proof (optimal_recomputeIfNeeded a b c d e f g h S3) as H4o;
      set (S4 := (recomputeIfNeeded a b c d e f g h S3).1) in *
  end.
  rewrite frame_schedule_if in H4. rewrite optimal_schedule_if in H4o.
  exists (set_prevBoardOpenSignature (Observation.boardOpen obs) S4).
  split; [|split].
  - change (frame S4 = frame (trackRecentAdds now (Observation.detectedActive obs) s)).
    congruence.
  - intros Hopen.
    change (prevOptimalBounties S4 = prevOptimalBounties s). rewrite H4o.
    unfold S2. rewrite Hopen in *. rewrite H2o. simpl.
    rewrite optimal_resetDisplayOnOpen. reflexivity.
  - destruct (negb (0 <? _)); reflexivity.
Qed.

Lemma nonempty_ltb {A : Type} (l : list A) : l ≠ [] → Nat.ltb 0 (length l) = true.
Proof. destruct l; [congruence|reflexivity]. Qed.

(** A tick with the board open and an accepted solution. *)
Lemma tick_frame_open (now : Z) (obs : Observation.t) (s : State) :
  Observation.boardOpen obs = true → prevOptimalBounties s ≠ [] →
  let s' := (processOCRResultsAsync now obs s).1 in
  let detectedActive := Observation.detectedActive obs in
  let recent := recentActiveAdds (trackRecentAdds now detectedActive s) in
  let updatedActive :=
    updateActive (activeBounties s) detectedActive
      (Nat.ltb (slot_count detectedActive) (slot_count (prevActiveBounties s))) in
  let updatedBoard := updateBoard (boardBounties s) obs in
  frame s'
  = (updatedActive, updatedBoard, updatedActive, recent,
     computeActiveDrops (bool_decide (is_Some (inFlightFind s'))) true
       (prevOptimalBounties s) recent now detectedActive,
     computeBoardPickups true (prevOptimalBounties s) updatedActive updatedBoard).
Proof.
  intros Hopen Hopt s' detectedActive recent updatedActive updatedBoard.
  destruct (tick_state now obs s) as (s5 & HF & Ho & Hs).
  specialize (Ho Hopen). unfold s'. rewrite Hs, Ho, (nonempty_ltb _ Hopt). simpl negb.
  cbv iota.
  rewrite inFlight_withOptimal_open by exact Hopen.
  rewrite frame_withOptimal, Hopen, Ho.
  destruct (frame_fields _ _ HF) as (-> & _ & -> & -> & _).
  reflexivity.
Qed.

(** A tick with the board open and no accepted solution. *)
Lemma tick_frame_none (now : Z) (obs : Observation.t) (s : State) :
  Observation.boardOpen obs = true → prevOptimalBounties s = [] →
  frame (processOCRResultsAsync now obs s).1
  = (Observation.detectedActive obs, Observation.detectedBoard obs,
     Observation.detectedActive obs,
     recentActiveAdds (trackRecentAdds now (Observation.detectedActive obs) s), [], []).
Proof.
  intros Hopen Hopt.
  destruct (tick_state now obs s) as (s5 & HF & Ho & Hs).
  specialize (Ho Hopen). rewrite Hs, Ho, Hopt. simpl.
  destruct (frame_fields _ _ HF) as (_ & _ & _ & HR & _).
  unfold frame. simpl. rewrite HR. reflexivity.
Qed.

(** A tick with the board closed shows no drop indicator. *)
Lemma tick_drops_closed (now : Z) (obs : Observation.t) (s : State) :
  Observation.boardOpen obs = false →
  activeDrops (processOCRResultsAsync now obs s).1 = [].
Proof.
  intros Hclosed.
  destruct (tick_state now obs s) as (s5 & _ & _ & Hs). rewrite Hs.
  destruct (negb _); [reflexivity|].
  pose proof (frame_withOptimal now obs (updateBoard (boardBounties s) obs) s5) as H.
  cbv zeta in H. rewrite Hclosed, computeActiveDrops_closed in H.
  apply (f_equal (λ t, t.1.2)) in H. exact H.
Qed.

(** ** Drop indicators *)

Lemma keys_pushIndex (bounty : string) (idx : nat) (acc : list (string * list nat)) :
  (pushIndex bounty idx acc).*1
  = if bool_decide (bounty ∈ acc.*1) then acc.*1 else acc.*1 ++ [bounty].
Proof.
  induction acc as [|[b l] acc IH]; cbn [pushIndex].
  - reflexivity.
  - destruct (String.eqb_spec b bounty) as [->|Hne]; rewrite !fmap_cons; cbn [fst].
    + rewrite bool_decide_eq_true_2 by apply list_elem_of_here. reflexivity.
    + rewrite IH.
      assert (bool_decide (bounty ∈ b :: acc.*1) = bool_decide (bounty ∈ acc.*1)) as ->.
      { apply bool_decide_ext. rewrite elem_of_cons.
        split; [intros [E|Hin]; [congruence|exact Hin]|intros Hin; right; exact Hin]. }
      destruct (bool_decide _); reflexivity.
Qed.

Lemma elem_of_pushIndex (bounty : string) (idx : nat) (acc : list (string * list nat))
    (b : string) (l : list nat) :
  NoDup acc.*1 →
  ((b, l) ∈ pushIndex bounty idx acc) ↔
    ((b ≠ bounty ∧ (b, l) ∈ acc)
     ∨ (b = bounty ∧ ((∃ l0, (bounty, l0) ∈ acc ∧ l = l0 ++ [idx])
                      ∨ ((bounty ∉ acc.*1) ∧ l = [idx])))).
Proof.
  induction acc as [|[b' l'] acc IH]; intros Hnd; cbn [pushIndex].
  - rewrite list_elem_of_singleton. split.
    + intros E. injection E as -> ->. right. split; [reflexivity|].
      right. split; [apply not_elem_of_nil|reflexivity].
    + intros [[_ H]|[-> [(l0 & H & _)|[_ ->]]]]; [inversion H|inversion H|reflexivity].
  - rewrite fmap_cons in Hnd. apply NoDup_cons in Hnd as [Hb' Hnd]. simpl in Hb'.
    specialize (IH Hnd).
    assert (∀ x, (b', x) ∈ acc → False) as Hfresh.
    { intros x Hx. apply Hb'. apply list_elem_of_fmap. exists (b', x). auto. }
    destruct (String.eqb_spec b' bounty) as [->|Hne].
    + split.
      * intros H. apply elem_of_cons in H as [E|Hin].
        -- injection E as -> ->. right. split; [reflexivity|]. left.
           exists l'. split; [apply list_elem_of_here|reflexivity].
        -- left. split; [|apply list_elem_of_further, Hin].
           intros ->. exact (Hfresh _ Hin).
      * intros [[Hne Hin]|[-> [(l0 & Hin & ->)|[Hnot _]]]].
        -- apply elem_of_cons in Hin as [E|Hin]; [congruence|].
           apply list_elem_of_further, Hin.
        -- apply elem_of_cons in Hin as [E|Hin].
           ++ injection E as ->. apply list_elem_of_here.
           ++ exfalso. exact (Hfresh _ Hin).
        -- exfalso. apply Hnot. rewrite fmap_cons. apply list_elem_of_here.
    + split.
      * intros H. apply elem_of_cons in H as [E|Hin].
        -- injection E as -> ->. left. split; [congruence|apply list_elem_of_here].
        -- apply IH in Hin as [[Hb Hin]|[-> [(l0 & Hin & ->)|[Hnot ->]]]].
           ++ left. split; [exact Hb|apply list_elem_of_further, Hin].
           ++ right. split; [reflexivity|]. left. exists l0.
              split; [apply list_elem_of_further, Hin|reflexivity].
           ++ right. split; [reflexivity|]. right. split; [|reflexivity].
              rewrite fmap_cons, not_elem_of_cons. split; [simpl; congruence|exact Hnot].
      * intros [[Hb Hin]|[-> [(l0 & Hin & ->)|[Hnot ->]]]].
        -- apply elem_of_cons in Hin as [E|Hin]; [rewrite E; apply list_elem_of_here|].
           apply list_elem_of_further, IH. left. auto.
        -- apply elem_of_cons in Hin as [E|Hin]; [congruence|].
           apply list_elem_of_further, IH. right. split; [reflexivity|]. left. eauto.
        -- rewrite fmap_cons, not_elem_of_cons in Hnot. destruct Hnot as [_ Hnot].
           apply list_elem_of_further, IH. right. split; [reflexivity|]. right. auto.
Qed.

Lemma holding_snoc (bounty : string) (entries : list (nat * string)) (i : nat) (b : string) :
  holding bounty (entries ++ [(i, b)])
  = holding bounty entries ++ (if decide (b = bounty) then [i] else []).
Proof.
  unfold holding. rewrite filter_app, fmap_app. f_equal.
  rewrite filter_cons. simpl. destruct (decide (b = bounty)); reflexivity.
Qed.

Lemma holding_nonempty (bounty : string) (entries : list (nat * string)) :
  holding bounty entries ≠ [] ↔ bounty ∈ entries.*2.
Proof.
  unfold holding. rewrite list_elem_of_fmap. split.
  - intros H. destruct (filter _ entries) as [|e l] eqn:E; [exfalso; apply H; reflexivity|].
    assert (e ∈ filter (λ entry, entry.2 = bounty) entries) as Hin
      by (rewrite E; apply list_elem_of_here).
    apply list_elem_of_filter in Hin as [He Hin]. exists e. auto.
  - intros (e & -> & Hin) H. apply fmap_nil_inv in H.
    assert (e ∈ filter (λ entry, entry.2 = e.2) entries) as Hin'
      by (apply list_elem_of_filter; auto).
    rewrite H in Hin'. inversion Hin'.
Qed.

Lemma group_spec (entries : list (nat * string)) :
  let acc := foldl (λ acc entry, pushIndex entry.2 entry.1 acc) [] entries in
  NoDup acc.*1
  ∧ (∀ b, b ∈ acc.*1 ↔ b ∈ entries.*2)
  ∧ ∀ b l, (b, l) ∈ acc ↔ l = holding b entries ∧ l ≠ [].
Proof.
  induction entries as [|[i b0] entries IH] using rev_ind; simpl.
  - split; [constructor|]. split.
    + intros b. reflexivity.
    + intros b l. split; [intros H; inversion H|intros [-> H]; exfalso; apply H; reflexivity].
  - rewrite foldl_snoc. simpl. destruct IH as (Hnd & Hkeys & Hin).
    set (acc := foldl (λ acc entry, pushIndex entry.2 entry.1 acc) [] entries) in *.
    split; [|split].
    + rewrite keys_pushIndex. destruct (bool_decide_reflect (b0 ∈ acc.*1)) as [H|H].
      * exact Hnd.
      * apply NoDup_app. split; [exact Hnd|]. split; [|apply NoDup_singleton].
        intros x Hx Hx'. apply list_elem_of_singleton in Hx'. congruence.
    + intros b. rewrite keys_pushIndex, fmap_app, elem_of_app. simpl.
      rewrite list_elem_of_singleton, <- Hkeys.
      destruct (bool_decide_reflect (b0 ∈ acc.*1)) as [H|H].
      * split; [auto|intros [H'| ->]; assumption].
      * rewrite elem_of_app, list_elem_of_singleton. reflexivity.
    + intros b l. rewrite elem_of_pushIndex by exact Hnd. rewrite holding_snoc.
      split.
      * intros [[Hb H]|[-> [(l0 & H & ->)|[Hnot ->]]]].
        -- apply Hin in H as [-> Hl]. destruct (decide (b0 = b)); [congruence|].
           rewrite app_nil_r. auto.
        -- apply Hin in H as [-> Hl]. destruct (decide (b0 = b0)); [|congruence].
           split; [reflexivity|]. intros E. apply app_eq_nil in E as [_ E]. discriminate.
        -- destruct (decide (b0 = b0)); [|congruence].
           rewrite Hkeys in Hnot. rewrite <- holding_nonempty in Hnot.
           destruct (holding b0 entries); [|exfalso; apply Hnot; discriminate].
           split; [reflexivity|discriminate].
      * intros [-> Hl]. destruct (decide (b0 = b)) as [->|Hne].
        -- right. split; [reflexivity|].
           destruct (holding b entries) as [|x l] eqn:E.
           ++ right. split; [|reflexivity]. rewrite Hkeys, <- holding_nonempty. congruence.
           ++ left. exists (x :: l). split; [|reflexivity]. apply Hin. rewrite E.
              split; [reflexivity|discriminate].
        -- left. split; [congruence|]. rewrite app_nil_r in *. apply Hin. auto.
Qed.

Lemma sort_nat_sorted (l : list nat) : StronglySorted lt l → sort_nat l = l.
Proof.
  induction 1 as [|x l Hs IH Hf]; [reflexivity|].
  cbn [sort_nat foldr]. fold (sort_nat l). rewrite IH.
  destruct l as [|y l]; [reflexivity|]. cbn [insert_nat].
  apply Forall_cons in Hf as [Hxy _].
  destruct (Nat.leb_spec x y); [reflexivity|lia].
Qed.

Lemma holding_subseteq (bounty : string) (entries : list (nat * string)) (i : nat) :
  i ∈ holding bounty entries → i ∈ entries.*1.
Proof.
  unfold holding. rewrite !list_elem_of_fmap. intros (e & -> & He).
  apply list_elem_of_filter in He as [_ He]. exists e. auto.
Qed.

Lemma holding_sorted (bounty : string) (entries : list (nat * string)) :
  StronglySorted lt entries.*1 → StronglySorted lt (holding bounty entries).
Proof.
  induction entries as [|[i b] entries IH]; intros Hs.
  - constructor.
  - rewrite fmap_cons in Hs. apply StronglySorted_inv in Hs as [Hs Hf].
    unfold holding. rewrite filter_cons. cbn [snd].
    destruct (decide (b = bounty)) as [->|Hne].
    + rewrite fmap_cons. constructor; [apply IH, Hs|].
      apply Forall_forall. intros j Hj. rewrite Forall_forall in Hf.
      apply Hf. eapply holding_subseteq, Hj.
    + apply IH, Hs.
Qed.

Lemma slotsHolding_sorted (bounty : string) (m : slots) :
  StronglySorted lt (slotsHolding bounty m).
Proof. apply holding_sorted, slot_keys_sorted. Qed.

Lemma elem_of_dropsOf (optimalBounties : list string) (recent : gmap nat Z) (now : Z)
    (bounty : string) (indices : list nat) (idx : nat) :
  StronglySorted lt indices →
  idx ∈ dropsOf optimalBounties recent now (bounty, indices)
  ↔ idx ∈ take (length indices - count_of bounty optimalBounties) indices
    ∧ inGrace recent now idx = false.
Proof.
  intros Hs. unfold dropsOf. rewrite (sort_nat_sorted _ Hs).
  destruct (Nat.ltb_spec (count_of bounty optimalBounties) (length indices)) as [Hlt|Hge].
  - rewrite list_elem_of_filter. tauto.
  - replace (length indices - count_of bounty optimalBounties) with 0 by lia.
    rewrite take_0. split; [intros H; inversion H|intros [H _]; inversion H].
Qed.

(** The drop indicators of a tick with the board open and no search in
    flight. *)
Lemma elem_of_computeActiveDrops (optimalBounties : list string) (recent : gmap nat Z)
    (now : Z) (detectedActive : slots) (idx : nat) :
  idx ∈ computeActiveDrops false true optimalBounties recent now detectedActive
  ↔ ∃ bounty, idx ∈ lowestExcess optimalBounties detectedActive bounty
              ∧ inGrace recent now idx = false.
Proof.
  unfold computeActiveDrops. cbn [orb negb]. rewrite list_elem_of_In, in_flat_map.
  destruct (group_spec (slot_entries detectedActive)) as (_ & _ & Hgroup).
  fold (bountyIndices detectedActive) in Hgroup. split.
  - intros ([b l] & Hin & Hidx). apply list_elem_of_In in Hin, Hidx.
    apply Hgroup in Hin as [-> _].
    apply elem_of_dropsOf in Hidx; [|apply slotsHolding_sorted].
    exists b. exact Hidx.
  - intros (b & Htake & Hgrace). exists (b, slotsHolding b detectedActive).
    rewrite <- !list_elem_of_In. split.
    + apply Hgroup. split; [reflexivity|].
      intros E. unfold lowestExcess in Htake. rewrite E in Htake.
      rewrite take_nil in Htake. inversion Htake.
    + apply elem_of_dropsOf; [apply slotsHolding_sorted|]. split; assumption.
Qed.

Lemma NoDup_flat_map {A B : Type} (f : A → list B) (l : list A) :
  NoDup l → (∀ x, x ∈ l → NoDup (f x)) →
  (∀ x y z, x ∈ l → y ∈ l → x ≠ y → z ∈ f x → z ∈ f y → False) →
  NoDup (flat_map f l).
Proof.
  induction l as [|a l IH]; intros Hnd Hf Hdisj; simpl; [constructor|].
  apply NoDup_cons in Hnd as [Ha Hnd]. apply NoDup_app. split; [|split].
  - apply Hf, list_elem_of_here.
  - intros z Hz Hz'. apply list_elem_of_In, in_flat_map in Hz' as (y & Hy & Hzy).
    apply list_elem_of_In in Hy, Hzy.
    apply (Hdisj a y z); [apply list_elem_of_here|apply list_elem_of_further, Hy| |exact Hz
                          |exact Hzy].
    intros ->. contradiction.
  - apply IH; [exact Hnd| |].
    + intros x Hx. apply Hf, list_elem_of_further, Hx.
    + intros x y z Hx Hy. apply Hdisj; apply list_elem_of_further; assumption.
Qed.

Lemma elem_of_holding (bounty : string) (entries : list (nat * string)) (i : nat) :
  i ∈ holding bounty entries ↔ (i, bounty) ∈ entries.
Proof.
  unfold holding. rewrite list_elem_of_fmap. split.
  - intros ([j b] & -> & H). apply list_elem_of_filter in H as [Hb H].
    simpl in Hb. subst b. exact H.
  - intros H. exists (i, bounty). split; [reflexivity|].
    apply list_elem_of_filter. split; [reflexivity|exact H].
Qed.

Lemma dropsOf_subseteq (optimalBounties : list string) (recent : gmap nat Z) (now : Z)
    (bounty : string) (indices : list nat) (idx : nat) :
  StronglySorted lt indices →
  idx ∈ dropsOf optimalBounties recent now (bounty, indices) → idx ∈ indices.
Proof.
  intros Hs H. apply elem_of_dropsOf in H as [H _]; [|exact Hs].
  eapply elem_of_sublist; [exact H|apply sublist_take].
Qed.

Lemma NoDup_dropsOf (optimalBounties : list string) (recent : gmap nat Z) (now : Z)
    (bounty : string) (indices : list nat) :
  StronglySorted lt indices →
  NoDup (dropsOf optimalBounties recent now (bounty, indices)).
Proof.
  intros Hs. unfold dropsOf. rewrite (sort_nat_sorted _ Hs).
  destruct (Nat.ltb _ _); [|constructor].
  apply NoDup_filter.
  apply (sublist_NoDup _ indices); [|apply sublist_take].
  apply StronglySorted_lt_NoDup, Hs.
Qed.

Lemma NoDup_computeActiveDrops (recomputeInFlight boardOpen : bool)
    (optimalBounties : list string) (recent : gmap nat Z) (now : Z)
    (detectedActive : slots) :
  NoDup (computeActiveDrops recomputeInFlight boardOpen optimalBounties recent now
           detectedActive).
Proof.
  unfold computeActiveDrops. destruct (_ || _); [constructor|].
  destruct (group_spec (slot_entries detectedActive)) as (Hnd & _ & Hgroup).
  fold (bountyIndices detectedActive) in Hnd, Hgroup.
  apply NoDup_flat_map.
  - eapply NoDup_fmap_1, Hnd.
  - intros [b l] Hin. apply Hgroup in Hin as [-> _].
    apply NoDup_dropsOf, slotsHolding_sorted.
  - intros [b l] [b' l'] z Hin Hin' Hne Hz Hz'.
    apply Hgroup in Hin as [-> _]. apply Hgroup in Hin' as [-> _].
    apply dropsOf_subseteq in Hz, Hz'; try apply slotsHolding_sorted.
    apply elem_of_holding, elem_of_slot_entries in Hz, Hz'.
    apply Hne. congruence.
Qed.


(** ** Pickup indicators *)

Lemma filter_below_all (updatedBoard : slots) (bounty : string) (idx : nat)
    (flagged : list nat) :
  (∀ j, j ∈ flagged → j < idx) →
  filter (λ j, j < idx ∧ slot_get updatedBoard j = Some bounty) flagged
  = filter (λ j, slot_get updatedBoard j = Some bounty) flagged.
Proof.
  induction flagged as [|x l IH]; intros H; [reflexivity|].
  rewrite !filter_cons, IH by (intros j Hj; apply H, list_elem_of_further, Hj).
  assert (x < idx) by apply H, list_elem_of_here.
  destruct (decide (slot_get updatedBoard x = Some bounty)) as [E|E].
  - rewrite decide_True by auto. reflexivity.
  - rewrite decide_False by tauto. reflexivity.
Qed.

Lemma filter_below_snoc (updatedBoard : slots) (bounty : string) (idx last : nat)
    (flagged : list nat) :
  idx ≤ last →
  filter (λ j, j < idx ∧ slot_get updatedBoard j = Some bounty) (flagged ++ [last])
  = filter (λ j, j < idx ∧ slot_get updatedBoard j = Some bounty) flagged.
Proof.
  intros H. rewrite filter_app, filter_cons, decide_False by lia.
  rewrite filter_nil, app_nil_r. reflexivity.
Qed.

Lemma pickup_fold_spec (optimalBounties : list string) (updatedActive updatedBoard : slots)
    (keys : list nat) :
  StronglySorted lt keys → (∀ idx, idx ∈ keys → is_Some (slot_get updatedBoard idx)) →
  let acc := foldl (pickupStep optimalBounties updatedActive updatedBoard) ([], ∅) keys in
  (∀ b, default 0 (acc.2 !! b)
        = length (filter (λ j, slot_get updatedBoard j = Some b) acc.1))
  ∧ acc.1 `sublist_of` keys
  ∧ ∀ idx, idx ∈ keys →
           (idx ∈ acc.1 ↔ flaggable optimalBounties updatedActive updatedBoard acc.1 idx).
Proof.
  induction keys as [|last keys IH] using rev_ind; intros Hs Hkeys.
  - simpl. split; [intros b; rewrite lookup_empty; reflexivity|].
    split; [constructor|]. intros idx H. inversion H.
  - apply StronglySorted_app in Hs as (Hlt & Hs & _).
    assert (∀ j, j ∈ keys → j < last) as Hbelow
      by (intros j Hj; apply Hlt; [exact Hj|apply list_elem_of_here]).
    destruct IH as (Hcnt & Hsub & Hflag);
      [exact Hs|intros idx Hidx; apply Hkeys, elem_of_app; left; exact Hidx|].
    rewrite foldl_snoc.
    set (acc := foldl (pickupStep optimalBounties updatedActive updatedBoard) ([], ∅) keys)
      in *.
    assert (∀ j, j ∈ acc.1 → j < last) as Hflagged_below
      by (intros j Hj; apply Hbelow; eapply elem_of_sublist; eassumption).
    assert (last ∉ acc.1) as Hlast
      by (intros H; apply Hflagged_below in H; lia).
    destruct (Hkeys last) as [bounty Hb]; [apply elem_of_app; right; apply list_elem_of_here|].
    unfold pickupStep. rewrite Hb. cbv zeta.
    assert (length (filter (λ j, j < last ∧ slot_get updatedBoard j = Some bounty) acc.1)
            = default 0 (acc.2 !! bounty)) as Hcur
      by (rewrite filter_below_all by exact Hflagged_below; symmetry; apply Hcnt).
    destruct (includes optimalBounties bounty
              && Nat.ltb (count_of bounty (slot_values updatedActive)
                          + default 0 (acc.2 !! bounty))
                         (count_of bounty optimalBounties)) eqn:Hcheck.
    + apply andb_true_iff in Hcheck as [Hinc Hroom]. rewrite Hinc, Hroom.
      apply bool_decide_eq_true in Hinc. apply Nat.ltb_lt in Hroom.
      cbn [fst snd]. split; [|split].
      * intros b. rewrite filter_app, length_app, filter_cons, filter_nil.
        destruct (decide (bounty = b)) as [->|Hne].
        -- rewrite lookup_insert_eq, decide_True by exact Hb. simpl. rewrite <- Hcnt. lia.
        -- rewrite lookup_insert_ne by exact Hne.
           rewrite decide_False by congruence. simpl. rewrite <- Hcnt. lia.
      * apply sublist_app; [exact Hsub|reflexivity].
      * intros idx Hidx. apply elem_of_app in Hidx as [Hidx|Hidx].
        -- unfold flaggable. setoid_rewrite filter_below_snoc; [|apply Hbelow in Hidx; lia].
           rewrite elem_of_app, list_elem_of_singleton, (Hflag idx Hidx).
           split; [intros [H| ->]; [exact H|apply Hbelow in Hidx; lia]|auto].
        -- apply list_elem_of_singleton in Hidx as ->.
           split; [intros _|intros _; apply elem_of_app; right; apply list_elem_of_here].
           exists bounty. split; [exact Hb|]. split; [exact Hinc|].
           rewrite filter_below_snoc, Hcur by lia. exact Hroom.
    + assert ((if includes optimalBounties bounty
               then if Nat.ltb (count_of bounty (slot_values updatedActive)
                                + default 0 (acc.2 !! bounty))
                               (count_of bounty optimalBounties)
                    then (acc.1 ++ [last], <[bounty:=default 0 (acc.2 !! bounty) + 1]> acc.2)
                    else acc
               else acc) = acc) as ->.
      { destruct (includes _ _); [|reflexivity]. simpl in Hcheck. rewrite Hcheck.
        reflexivity. }
      split; [exact Hcnt|]. split; [apply sublist_inserts_r, Hsub|].
      intros idx Hidx. apply elem_of_app in Hidx as [Hidx|Hidx]; [apply Hflag, Hidx|].
      apply list_elem_of_singleton in Hidx as ->.
      split; [intros H; contradiction|].
      intros (b & Hb' & Hin & Hroom). exfalso.
      rewrite Hb in Hb'. injection Hb' as <-. rewrite Hcur in Hroom.
      apply andb_false_iff in Hcheck as [Hinc|Hfull].
      * apply bool_decide_eq_false in Hinc. contradiction.
      * apply Nat.ltb_ge in Hfull. lia.
Qed.

(** The pickup indicators of a tick with the board open. *)
Lemma computeBoardPickups_spec (optimalBounties : list string)
    (updatedActive updatedBoard : slots) :
  let flagged := computeBoardPickups true optimalBounties updatedActive updatedBoard in
  flagged `sublist_of` slot_keys updatedBoard
  ∧ ∀ idx, idx ∈ flagged
           ↔ flaggable optimalBounties updatedActive updatedBoard flagged idx.
Proof.
  unfold computeBoardPickups. rewrite (sort_nat_sorted _ (slot_keys_sorted updatedBoard)).
  destruct (pickup_fold_spec optimalBounties updatedActive updatedBoard
              (slot_keys updatedBoard)) as (_ & Hsub & Hflag).
  - apply slot_keys_sorted.
  - intros idx Hidx. apply elem_of_slot_keys, slot_has_get in Hidx. exact Hidx.
  - cbv zeta. split; [exact Hsub|]. intros idx.
    destruct (decide (idx ∈ slot_keys updatedBoard)) as [Hk|Hk]; [apply Hflag, Hk|].
    split.
    + intros H. exfalso. apply Hk. eapply elem_of_sublist; eassumption.
    + intros (b & Hb & _). exfalso. apply Hk. apply elem_of_slot_keys, slot_has_get. eauto.
Qed.

Lemma sublist_StronglySorted (l k : list nat) :
  l `sublist_of` k → StronglySorted lt k → StronglySorted lt l.
Proof.
  induction 1 as [|x l k Hsub IH|x l k Hsub IH]; intros Hs.
  - constructor.
  - apply StronglySorted_inv in Hs as [Hs Hf]. constructor; [apply IH, Hs|].
    apply Forall_forall. intros y Hy. rewrite Forall_forall in Hf. apply Hf.
    eapply elem_of_sublist; eassumption.
  - apply StronglySorted_inv in Hs as [Hs _]. apply IH, Hs.
Qed.

(** ** A tick while the matching search is in flight *)

Lemma quiet_andThen (f : InFlightFind.t) (r : State * list Effect)
    (k : State → State * list Effect) :
  quiet f r → (∀ s, inFlightFind s = Some f → quiet f (k s)) → quiet f (andThen r k).
Proof.
  intros [Hf Hs] Hk. destruct (Hk r.1 Hf) as [Hf' Hs']. split.
  - rewrite fst_andThen. exact Hf'.
  - rewrite snd_andThen, spawns_app, Hs, Hs'. reflexivity.
Qed.

Lemma quiet_launch (f : InFlightFind.t) (now : Z) (allBounties : list string)
    (boardOpen : bool) (signature reason : string) (s : State) :
  inFlightFind s = Some f → InFlightFind.signature f = signature →
  quiet f (launchFindBestIfNeeded now allBounties boardOpen signature reason s).
Proof.
  intros Hf Hsig. rewrite (launch_same_signature _ _ _ _ _ _ f Hf Hsig).
  split; [exact Hf|reflexivity].
Qed.

Lemma quiet_schedule_if (f : InFlightFind.t) (c : bool) (s : State) :
  inFlightFind s = Some f →
  quiet f (if c then scheduleAdjustmentRecalculation s else (s, [])).
Proof. intros Hf. destruct c; split; auto. Qed.

Lemma closed_signature (obs : Observation.t) :
  closedBoardUnread obs → Observation.boardOpen obs = false →
  makeAllBountiesSignature (slot_values (Observation.detectedActive obs))
  = observedSignature obs.
Proof.
  intros H Hc. unfold observedSignature. rewrite (H Hc), app_nil_r. reflexivity.
Qed.

Lemma quiet_boardClosedRecalc (f : InFlightFind.t) (now : Z) (obs : Observation.t)
    (boardTransition : bool) (s : State) :
  closedBoardUnread obs → InFlightFind.signature f = observedSignature obs →
  inFlightFind s = Some f →
  quiet f (boardClosedRecalc now boardTransition (Observation.boardOpen obs)
             (Observation.detectedActive obs) s).
Proof.
  intros Hun Hsig Hf. unfold boardClosedRecalc.
  destruct (Observation.boardOpen obs) eqn:Hopen.
  - rewrite andb_false_r. split; [exact Hf|reflexivity].
  - destruct (boardTransition && negb false && prevBoardOpenSignature s);
      [|split; [exact Hf|reflexivity]].
    destruct (Nat.ltb _ _); [|split; [exact Hf|reflexivity]].
    destruct (negb _); [|split; [exact Hf|reflexivity]].
    apply quiet_launch; [exact Hf|].
    rewrite closed_signature by assumption. exact Hsig.
Qed.

Lemma quiet_recomputeIfNeeded (f : InFlightFind.t) (now : Z) (obs : Observation.t)
    (firstRun boardTransition signatureChanged : bool) (allBounties : list string)
    (updatedBoard : slots) (s : State) :
  InFlightFind.signature f = observedSignature obs → inFlightFind s = Some f →
  quiet f (recomputeIfNeeded now obs firstRun boardTransition signatureChanged allBounties
             (observedSignature obs) updatedBoard s).
Proof.
  intros Hsig Hf. unfold recomputeIfNeeded. cbv zeta.
  destruct (shouldRecompute _ _ _ _ _ _ _ _ _ _); [|split; [exact Hf|reflexivity]].
  apply quiet_launch; [|exact Hsig]. destruct (firstRun || boardTransition); exact Hf.
Qed.

Lemma quiet_sanityCheck (f : InFlightFind.t) (now : Z) (obs : Observation.t) (s : State) :
  closedBoardUnread obs → Observation.boardOpen obs = false →
  InFlightFind.signature f = observedSignature obs → inFlightFind s = Some f →
  quiet f (sanityCheck now (Observation.detectedActive obs) s).
Proof.
  intros Hun Hc Hsig Hf. unfold sanityCheck. cbv zeta.
  destruct (Nat.ltb _ _); [|split; [exact Hf|reflexivity]].
  destruct (Nat.ltb _ _); [|split; [exact Hf|reflexivity]].
  apply quiet_launch; [exact Hf|]. rewrite closed_signature by assumption. exact Hsig.
Qed.

Lemma quiet_handleCompletion (f : InFlightFind.t) (now : Z) (obs : Observation.t)
    (prevActiveCount currActiveCount : nat) (completedBounty : option string) (s : State) :
  closedBoardUnread obs → InFlightFind.signature f = observedSignature obs →
  inFlightFind s = Some f →
  quiet f (handleCompletion now obs prevActiveCount currActiveCount completedBounty s).
Proof.
  intros Hun Hsig Hf. unfold handleCompletion.
  destruct (Observation.boardOpen obs) eqn:Hopen.
  - rewrite andb_false_r. split; [exact Hf|reflexivity].
  - destruct (truthy _ && negb false); [|split; [exact Hf|reflexivity]].
    apply quiet_sanityCheck; try assumption.
    destruct (findSellIndex _ _); exact Hf.
Qed.

Lemma quiet_checkStepsConsistency (f : InFlightFind.t) (now : Z) (activeBounties : slots)
    (boardOpen : bool) (s : State) :
  inFlightFind s = Some f →
  quiet f (checkStepsConsistency now activeBounties boardOpen s).
Proof.
  intros Hf. unfold checkStepsConsistency. cbv zeta.
  destruct (Z.ltb _ _); [split; [exact Hf|reflexivity]|].
  destruct boardOpen; [split; [exact Hf|reflexivity]|].
  destruct (Nat.eqb _ _); [split; [exact Hf|reflexivity]|].
  rewrite bool_decide_eq_true_2; [split; [exact Hf|reflexivity]|].
  cbn. rewrite Hf. eauto.
Qed.

Lemma quiet_withOptimal (f : InFlightFind.t) (now : Z) (obs : Observation.t)
    (updatedBoard : slots) (s : State) :
  closedBoardUnread obs → InFlightFind.signature f = observedSignature obs →
  inFlightFind s = Some f →
  quiet f (withOptimal now obs updatedBoard s).
Proof.
  intros Hun Hsig Hf. unfold withOptimal. cbv zeta.
  apply quiet_andThen; [apply quiet_schedule_if; exact Hf|]. intros s1 Hf1.
  apply quiet_andThen; [apply quiet_handleCompletion; assumption|]. intros s2 Hf2.
  apply quiet_checkStepsConsistency.
  cbn [inFlightFind set_boardPickups set_prevActiveBounties set_boardBounties
         set_activeBounties].
  rewrite inFlight_handleAllCompleted. exact Hf2.
Qed.

Lemma quiet_tick (f : InFlightFind.t) (now : Z) (obs : Observation.t) (s : State) :
  closedBoardUnread obs → InFlightFind.signature f = observedSignature obs →
  inFlightFind s = Some f →
  quiet f (processOCRResultsAsync now obs s).
Proof.
  intros Hun Hsig Hf. unfold processOCRResultsAsync. cbv zeta.
  fold (observedSignature obs).
  apply quiet_andThen.
  { apply quiet_boardClosedRecalc; try assumption.
    unfold resetDisplayOnOpen. destruct (_ && _); exact Hf. }
  intros s1 Hf1.
  apply quiet_andThen; [apply quiet_schedule_if; exact Hf1|]. intros s2 Hf2.
  apply quiet_andThen; [apply quiet_recomputeIfNeeded; assumption|]. intros s3 Hf3.
  destruct (negb _).
  - split; [exact Hf3|reflexivity].
  - apply quiet_withOptimal; assumption.
Qed.

(** ** The claims about a tick *)

(** C2.  A trigger with the signature of the in-flight search returns at
    once: nothing is started and the state is unchanged.  A snapshot whose
    signature is that of the in-flight search, fed once or twice, starts no
    search and leaves the in-flight record in place. *)
Theorem same_signature_trigger_ignored :
  (∀ (now : Z) (allBounties : list string) (boardOpen : bool) (signature reason : string)
     (s : State) (f : InFlightFind.t),
     inFlightFind s = Some f → InFlightFind.signature f = signature →
     launchFindBestIfNeeded now allBounties boardOpen signature reason s = (s, []))
  ∧ (∀ (now : Z) (obs : Observation.t) (s : State) (f : InFlightFind.t),
       closedBoardUnread obs →
       inFlightFind s = Some f → InFlightFind.signature f = observedSignature obs →
       quiet f (processOCRResultsAsync now obs s))
  ∧ (∀ (now now' : Z) (obs : Observation.t) (s : State) (f : InFlightFind.t),
       closedBoardUnread obs →
       inFlightFind s = Some f → InFlightFind.signature f = observedSignature obs →
       let first := processOCRResultsAsync now obs s in
       let second := processOCRResultsAsync now' obs first.1 in
       inFlightFind second.1 = Some f ∧ spawns (first.2 ++ second.2) = []).
Proof.
  split; [exact launch_same_signature|split].
  - intros now obs s f Hun Hf Hsig. apply quiet_tick; assumption.
  - intros now now' obs s f Hun Hf Hsig first second.
    destruct (quiet_tick f now obs s Hun Hsig Hf) as [Hf1 Hs1]. fold first in Hf1, Hs1.
    destruct (quiet_tick f now' obs first.1 Hun Hsig Hf1) as [Hf2 Hs2].
    fold second in Hf2, Hs2.
    split; [exact Hf2|]. rewrite spawns_app, Hs1, Hs2. reflexivity.
Qed.

Lemma same_signature_trigger_ignored_witness :
  let obs := snapshot [] [Some "A"] (Some exact) in
  let closed := Observation.mk [Some "A"] [] (λ _, None) false in
  launchFindBestIfNeeded 100 ["A"] true "A" "boardRefresh" waitingState = (waitingState, [])
  ∧ quiet (InFlightFind.mk "A" 0) (processOCRResultsAsync 100 obs waitingState)
  ∧ (let first := processOCRResultsAsync 100 obs waitingState in
     let second := processOCRResultsAsync 200 obs first.1 in
     inFlightFind second.1 = Some (InFlightFind.mk "A" 0)
     ∧ spawns (first.2 ++ second.2) = [])
  ∧ quiet (InFlightFind.mk "A" 0) (processOCRResultsAsync 100 closed waitingState).
Proof.
  intros obs closed.
  destruct same_signature_trigger_ignored as (Hlaunch & Htick & Htwice).
  split; [|split; [|split]]; cycle 3.
  { apply (Htick 100%Z closed waitingState (InFlightFind.mk "A" 0));
      [intros _; reflexivity|reflexivity|reflexivity]. }
  - apply (Hlaunch 100%Z ["A"] true "A" "boardRefresh" waitingState (InFlightFind.mk "A" 0));
      reflexivity.
  - apply (Htick 100%Z obs waitingState (InFlightFind.mk "A" 0));
      [intros H; discriminate H|reflexivity|reflexivity].
  - apply (Htwice 100%Z 200%Z obs waitingState (InFlightFind.mk "A" 0));
      [intros H; discriminate H|reflexivity|reflexivity].
Defined.

Lemma frame_eq_tuple (s : State) (a b c : slots) (d : gmap nat Z) (e f : list nat) :
  frame s = (a, b, c, d, e, f) →
  activeBounties s = a ∧ boardBounties s = b ∧ prevActiveBounties s = c
  ∧ recentActiveAdds s = d ∧ activeDrops s = e ∧ boardPickups s = f.
Proof. unfold frame. intros H. injection H as <- <- <- <- <- <-. repeat split. Qed.

Lemma tick_drops_in_flight (now : Z) (obs : Observation.t) (s : State) :
  is_Some (inFlightFind (processOCRResultsAsync now obs s).1) →
  activeDrops (processOCRResultsAsync now obs s).1 = [].
Proof.
  intros Hf. destruct (Observation.boardOpen obs) eqn:Hopen;
    [|apply tick_drops_closed, Hopen].
  destruct (prevOptimalBounties s) as [|b l] eqn:Hopt.
  - pose proof (tick_frame_none now obs s Hopen Hopt) as H.
    apply frame_eq_tuple in H as (_ & _ & _ & _ & Hd & _). exact Hd.
  - assert (prevOptimalBounties s ≠ []) as Hne by congruence.
    pose proof (tick_frame_open now obs s Hopen Hne) as H. cbv zeta in H.
    apply frame_eq_tuple in H as (_ & _ & _ & _ & Hd & _). rewrite Hd.
    rewrite bool_decide_eq_true_2 by exact Hf. reflexivity.
Qed.

Lemma tick_drops_open (now : Z) (obs : Observation.t) (s : State) :
  Observation.boardOpen obs = true → prevOptimalBounties s ≠ [] →
  inFlightFind (processOCRResultsAsync now obs s).1 = None →
  activeDrops (processOCRResultsAsync now obs s).1
  = computeActiveDrops false true (prevOptimalBounties s)
      (recentActiveAdds (processOCRResultsAsync now obs s).1) now
      (Observation.detectedActive obs).
Proof.
  intros Hopen Hne Hnone.
  pose proof (tick_frame_open now obs s Hopen Hne) as H. cbv zeta in H.
  apply frame_eq_tuple in H as (_ & _ & _ & Hr & Hd & _).
  rewrite Hd, Hr, Hnone. rewrite bool_decide_eq_false_2 by (intros [x Hx]; discriminate).
  reflexivity.
Qed.

(** C4.  After a tick the drop list is empty when the board is closed or
    a search is in flight.  With the board open, an accepted solution and
    no search in flight, the flagged slots are, for each held bounty, the
    lowest slots of its excess over the accepted count that are outside
    their grace window; no slot is listed twice. *)
Theorem drop_indicators_lowest_excess :
  ∀ (now : Z) (obs : Observation.t) (s : State),
    let s' := (processOCRResultsAsync now obs s).1 in
    (Observation.boardOpen obs = false ∨ is_Some (inFlightFind s') → activeDrops s' = [])
    ∧ NoDup (activeDrops s')
    ∧ (Observation.boardOpen obs = true → inFlightFind s' = None →
       prevOptimalBounties s ≠ [] →
       ∀ idx, idx ∈ activeDrops s'
              ↔ ∃ bounty,
                  idx ∈ lowestExcess (prevOptimalBounties s)
                          (Observation.detectedActive obs) bounty
                  ∧ inGrace (recentActiveAdds s') now idx = false).
Proof.
  intros now obs s s'. split; [|split].
  - intros [Hclosed|Hf]; [apply tick_drops_closed, Hclosed|apply tick_drops_in_flight, Hf].
  - destruct (Observation.boardOpen obs) eqn:Hopen;
      [|unfold s'; rewrite tick_drops_closed by exact Hopen; constructor].
    destruct (inFlightFind s') as [f|] eqn:Hf.
    { unfold s' in *. rewrite tick_drops_in_flight by (rewrite Hf; eauto). constructor. }
    destruct (prevOptimalBounties s) as [|b l] eqn:Hopt.
    + pose proof (tick_frame_none now obs s Hopen Hopt) as H.
      apply frame_eq_tuple in H as (_ & _ & _ & _ & Hd & _).
      unfold s'. rewrite Hd. constructor.
    + unfold s' in *. rewrite tick_drops_open; [|exact Hopen|congruence|exact Hf].
      apply NoDup_computeActiveDrops.
  - intros Hopen Hnone Hne idx. unfold s' in *.
    rewrite tick_drops_open by assumption. apply elem_of_computeActiveDrops.
Qed.

Lemma drop_indicators_lowest_excess_witness :
  let s' := (processOCRResultsAsync 5000 dropExampleObs dropExampleState).1 in
  let early := (processOCRResultsAsync 1000 dropExampleObs dropExampleState).1 in
  let closed := Observation.mk dropExampleActive [] (λ _, None) false in
  activeDrops (processOCRResultsAsync 5000 closed dropExampleState).1 = []
  ∧ (0 ∉ activeDrops early)
  ∧ (0 ∈ activeDrops s'
     ↔ ∃ bounty, 0 ∈ lowestExcess ["A"; "A"; "B"] dropExampleActive bounty
                 ∧ inGrace (recentActiveAdds s') 5000 0 = false)
  ∧ 0 ∈ activeDrops s'.
Proof.
  intros s' early closed.
  destruct (drop_indicators_lowest_excess 5000 closed dropExampleState) as (Hclosed & _).
  destruct (drop_indicators_lowest_excess 5000 dropExampleObs dropExampleState)
    as (_ & _ & Hopen).
  destruct (drop_indicators_lowest_excess 1000 dropExampleObs dropExampleState)
    as (_ & _ & Hearly).
  split; [apply Hclosed; left; reflexivity|].
  split.
  { intros Hin. apply Hearly in Hin as (bounty & _ & Hgrace);
      [discriminate Hgrace|reflexivity|reflexivity|discriminate]. }
  assert (0 ∈ activeDrops s'
          ↔ ∃ bounty, 0 ∈ lowestExcess ["A"; "A"; "B"] dropExampleActive bounty
                      ∧ inGrace (recentActiveAdds s') 5000 0 = false) as H
    by (apply Hopen; [reflexivity|reflexivity|discriminate]).
  split; [exact H|]. apply H. exists "A". split; [|reflexivity].
  vm_compute. apply list_elem_of_here.
Defined.

Lemma length_holding (bounty : string) (entries : list (nat * string)) :
  length (holding bounty entries) = count_of bounty entries.*2.
Proof.
  unfold holding, count_of. rewrite length_fmap.
  induction entries as [|[i b] entries IH]; [reflexivity|].
  rewrite fmap_cons, !filter_cons. cbn [snd].
  destruct (decide (b = bounty)); simpl; rewrite IH; reflexivity.
Qed.

Lemma length_slotsHolding (bounty : string) (m : slots) :
  length (slotsHolding bounty m) = count_of bounty (slot_values m).
Proof. apply length_holding. Qed.

Lemma count_of_Permutation (bounty : string) (l k : list string) :
  l ≡ₚ k → count_of bounty l = count_of bounty k.
Proof. intros H. unfold count_of. rewrite H. reflexivity. Qed.

Lemma count_of_cons (bounty x : string) (l : list string) :
  count_of bounty (x :: l) = (if decide (x = bounty) then 1 else 0) + count_of bounty l.
Proof. unfold count_of. rewrite filter_cons. destruct (decide _); reflexivity. Qed.

Lemma NoDup_singleton_eq (l : list nat) (a : nat) :
  NoDup l → (∀ x, x ∈ l ↔ x = a) → l = [a].
Proof.
  intros Hnd H. destruct l as [|x l].
  - exfalso. assert (a ∈ @nil nat) as Ha by (apply H; reflexivity). inversion Ha.
  - assert (x = a) as -> by (apply H, list_elem_of_here).
    apply NoDup_cons in Hnd as [Hx Hnd]. destruct l as [|y l]; [reflexivity|].
    exfalso. apply Hx. assert (y = a) as -> by (apply H; do 2 constructor).
    apply list_elem_of_here.
Qed.

(** C5, as stated, fails: with A in slots 0, 1, 2 and B in slot 3 the
    flagged slot is 0, the lowest A slot, not slot 2. *)
Lemma drop_example_flags_lowest_not_highest : ¬ drop_flags_highest_extra.
Proof.
  intros H.
  destruct (H 5000%Z dropExampleObs dropExampleState "A" "B") as (idx & Hdrops & Hlast).
  - discriminate.
  - reflexivity.
  - reflexivity.
  - reflexivity.
  - reflexivity.
  - intros idx. reflexivity.
  - vm_compute in Hdrops, Hlast. congruence.
Qed.

(** C5, amended.  Accepted [{A:2, B:1}], held [{A:3, B:1}], board open, no
    search in flight, no slot in its grace window: exactly one slot is
    flagged, the lowest slot holding A. *)
Theorem drop_example_flags_lowest_slot :
  ∀ (now : Z) (obs : Observation.t) (s : State) (A B : string),
    A ≠ B → Observation.boardOpen obs = true →
    prevOptimalBounties s ≡ₚ [A; A; B] →
    slot_values (Observation.detectedActive obs) ≡ₚ [A; A; A; B] →
    let s' := (processOCRResultsAsync now obs s).1 in
    inFlightFind s' = None →
    (∀ idx, inGrace (recentActiveAdds s') now idx = false) →
    ∃ idx, activeDrops s' = [idx]
           ∧ head (slotsHolding A (Observation.detectedActive obs)) = Some idx.
Proof.
  intros now obs s A B HAB Hopen Hopt Hheld s' Hnone Hgrace.
  assert (prevOptimalBounties s ≠ []) as Hne.
  { intros E. rewrite E in Hopt. apply Permutation_nil_l in Hopt. discriminate. }
  unfold s' in *. rewrite tick_drops_open by assumption.
  set (det := Observation.detectedActive obs) in *.
  set (recent := recentActiveAdds (processOCRResultsAsync now obs s).1) in *.
  assert (∀ b, count_of b (prevOptimalBounties s)
               = (if decide (A = b) then 2 else 0) + (if decide (B = b) then 1 else 0))
    as Hallowed.
  { intros b. rewrite (count_of_Permutation _ _ _ Hopt), !count_of_cons.
    unfold count_of. rewrite filter_nil. simpl. destruct (decide (A = b)); lia. }
  assert (∀ b, length (slotsHolding b det)
               = (if decide (A = b) then 3 else 0) + (if decide (B = b) then 1 else 0))
    as Hlen.
  { intros b. rewrite length_slotsHolding, (count_of_Permutation _ _ _ Hheld), !count_of_cons.
    unfold count_of. rewrite filter_nil. simpl. destruct (decide (A = b)); lia. }
  destruct (slotsHolding A det) as [|a1 rest] eqn:EA.
  { specialize (Hlen A). rewrite EA in Hlen. rewrite decide_True in Hlen by reflexivity.
    simpl in Hlen. lia. }
  exists a1. split; [|reflexivity].
  apply NoDup_singleton_eq; [apply NoDup_computeActiveDrops|].
  intros idx. rewrite elem_of_computeActiveDrops. unfold lowestExcess. split.
  - intros (b & Hin & _). rewrite Hlen, Hallowed in Hin.
    destruct (decide (A = b)) as [<-|HA].
    + rewrite decide_False in Hin by congruence. rewrite EA in Hin. simpl in Hin.
      apply list_elem_of_singleton in Hin. exact Hin.
    + replace (0 + (if decide (B = b) then 1 else 0)
               - (0 + (if decide (B = b) then 1 else 0))) with 0 in Hin by lia.
      rewrite take_0 in Hin. inversion Hin.
  - intros ->. exists A. split; [|apply Hgrace].
    rewrite Hlen, Hallowed, EA.
    destruct (decide (A = A)); [|congruence]. destruct (decide (B = A)); [congruence|].
    simpl. apply list_elem_of_here.
Qed.

Lemma drop_example_flags_lowest_slot_witness :
  ∃ idx, activeDrops (processOCRResultsAsync 5000 dropExampleObs dropExampleState).1 = [idx]
         ∧ head (slotsHolding "A" dropExampleActive) = Some idx.
Proof.
  apply (drop_example_flags_lowest_slot 5000 dropExampleObs dropExampleState "A" "B").
  - discriminate.
  - reflexivity.
  - reflexivity.
  - reflexivity.
  - reflexivity.
  - intros idx. reflexivity.
Defined.

(** C6.  After a tick with the board open and an accepted solution, the
    flagged board slots are in ascending order; a slot is flagged exactly
    when its bounty belongs to the accepted solution and the slots already
    held plus the slots flagged below it have not reached the accepted
    count; a bounty outside the accepted solution is never flagged.  On the
    spec's example, accepted [{A:2, B:1}], held [{A:1}], board [A, A, C],
    the flagged slots are the first A slot alone. *)
Theorem pickup_indicators_until_allowed :
  (∀ (now : Z) (obs : Observation.t) (s : State),
     Observation.boardOpen obs = true → prevOptimalBounties s ≠ [] →
     let s' := (processOCRResultsAsync now obs s).1 in
     StronglySorted lt (boardPickups s')
     ∧ (∀ idx, idx ∈ boardPickups s'
               ↔ flaggable (prevOptimalBounties s) (activeBounties s') (boardBounties s')
                   (boardPickups s') idx)
     ∧ (∀ idx bounty, slot_get (boardBounties s') idx = Some bounty →
                      bounty ∉ prevOptimalBounties s → idx ∉ boardPickups s'))
  ∧ (prevOptimalBounties pickupExampleState = ["A"; "A"; "B"]
     ∧ slot_values (Observation.detectedActive pickupExampleObs) = ["A"]
     ∧ slot_values (Observation.detectedBoard pickupExampleObs) = ["A"; "A"; "C"]
     ∧ boardPickups (processOCRResultsAsync 5000 pickupExampleObs pickupExampleState).1
       = [0]).
Proof.
  split; [|repeat split; vm_compute; reflexivity].
  intros now obs s Hopen Hne s'.
  pose proof (tick_frame_open now obs s Hopen Hne) as H. cbv zeta in H.
  apply frame_eq_tuple in H as (Ha & Hb & _ & _ & _ & Hp). fold s' in Ha, Hb, Hp.
  rewrite Hp, Ha, Hb.
  destruct (computeBoardPickups_spec (prevOptimalBounties s) (activeBounties s')
              (boardBounties s')) as [Hsub Hflag].
  rewrite Ha, Hb in Hsub, Hflag.
  split; [|split].
  - eapply sublist_StronglySorted; [exact Hsub|apply slot_keys_sorted].
  - exact Hflag.
  - intros idx bounty Hget Hnot Hin. apply Hflag in Hin as (b & Hget' & Hb' & _).
    rewrite Hget in Hget'. injection Hget' as <-. contradiction.
Qed.

Lemma pickup_indicators_until_allowed_witness :
  let s' := (processOCRResultsAsync 5000 pickupExampleObs pickupExampleState).1 in
  StronglySorted lt (boardPickups s')
  ∧ (∀ idx, idx ∈ boardPickups s'
            ↔ flaggable ["A"; "A"; "B"] (activeBounties s') (boardBounties s')
                (boardPickups s') idx)
  ∧ 2 ∉ boardPickups s'.
Proof.
  intros s'.
  destruct pickup_indicators_until_allowed as [H _].
  destruct (H 5000%Z pickupExampleObs pickupExampleState) as (Hs & Hflag & Hnot);
    [reflexivity|discriminate|].
  split; [exact Hs|split; [exact Hflag|]].
  apply (Hnot 2 "C"); [reflexivity|].
  intros Hin. repeat (apply elem_of_cons in Hin as [Hin|Hin]; [discriminate|]).
  inversion Hin.
Defined.

(** C10, as stated, fails: while no solution is accepted the stored board
    table is overwritten with what was detected, fuzzy or not. *)
Lemma fuzzy_overwrites_board_without_accepted : ¬ fuzzy_never_overwrites_board.
Proof.
  intros H.
  specialize (H 5000%Z (snapshot [] [Some "B"] (Some fuzzy)) waitingState 0 "A" "B").
  vm_compute in H.
  assert (Some "B" = Some "A") as E; [|discriminate E].
  apply H; try reflexivity; discriminate.
Qed.

(** C10, amended.  After a tick with the board open and an accepted
    solution, a detected board slot holds the new bounty when the slot was
    empty or the match is exact, and keeps its bounty when a fuzzy match
    disagrees with it: the stored bounty changes only on an exact match.
    After a tick with the board open and no accepted solution the stored
    board table is the detected one. *)
Theorem board_slot_changes_only_on_exact_match :
  (∀ (now : Z) (obs : Observation.t) (s : State) (idx : nat) (new : string),
     Observation.boardOpen obs = true → prevOptimalBounties s ≠ [] →
     slot_get (Observation.detectedBoard obs) idx = Some new →
     let old := slot_get (boardBounties s) idx in
     let stored := slot_get (boardBounties (processOCRResultsAsync now obs s).1) idx in
     (truthy old = false → stored = Some new)
     ∧ (isExact (Observation.boardMatchType obs idx) = true → stored = Some new)
     ∧ (truthy old = true → isExact (Observation.boardMatchType obs idx) = false →
        Some new ≠ old → stored = old)
     ∧ (truthy old = true → stored ≠ old →
        isExact (Observation.boardMatchType obs idx) = true))
  ∧ (∀ (now : Z) (obs : Observation.t) (s : State),
       Observation.boardOpen obs = true → prevOptimalBounties s = [] →
       boardBounties (processOCRResultsAsync now obs s).1 = Observation.detectedBoard obs).
Proof.
  split.
  - intros now obs s idx new Hopen Hne Hdet old stored.
    pose proof (tick_frame_open now obs s Hopen Hne) as H. cbv zeta in H.
    apply frame_eq_tuple in H as (_ & Hb & _).
    assert (stored = if boardSlotAccepts (boardBounties s) (Observation.boardMatchType obs)
                          idx new
                     then Some new else old) as Hstored.
    { unfold stored. rewrite Hb. apply slot_get_updateBoard; assumption. }
    unfold boardSlotAccepts in Hstored. fold old in Hstored.
    split; [|split; [|split]].
    + intros Hold. rewrite Hold in Hstored. exact Hstored.
    + intros Hex. rewrite Hex, orb_true_r in Hstored. exact Hstored.
    + intros Hold Hex Hdiff. rewrite Hold, Hex in Hstored.
      rewrite bool_decide_eq_false_2 in Hstored by exact Hdiff. exact Hstored.
    + intros Hold Hchanged. rewrite Hold in Hstored.
      destruct (isExact _); [reflexivity|]. exfalso. apply Hchanged.
      simpl in Hstored. destruct (bool_decide_reflect (Some new = old)) as [E|E];
        congruence.
  - intros now obs s Hopen Hnone.
    pose proof (tick_frame_none now obs s Hopen Hnone) as H.
    apply frame_eq_tuple in H as (_ & Hb & _). exact Hb.
Qed.

Lemma board_slot_changes_only_on_exact_match_witness :
  let fuzzyB := snapshot [Some "A"] [Some "B"; Some "A"; Some "C"] (Some fuzzy) in
  let exactB := snapshot [Some "A"] [Some "B"; Some "A"; Some "C"] (Some exact) in
  let emptied := set_boardBounties [None; Some "A"; Some "C"] pickupExampleState in
  slot_get (boardBounties (processOCRResultsAsync 5000 fuzzyB emptied).1) 0 = Some "B"
  ∧ slot_get (boardBounties (processOCRResultsAsync 5000 exactB pickupExampleState).1) 0
    = Some "B"
  ∧ slot_get (boardBounties (processOCRResultsAsync 5000 fuzzyB pickupExampleState).1) 0
    = Some "A"
  ∧ isExact (Observation.boardMatchType exactB 0) = true
  ∧ boardBounties (processOCRResultsAsync 5000 fuzzyB waitingState).1
    = [Some "B"; Some "A"; Some "C"].
Proof.
  intros fuzzyB exactB emptied.
  destruct board_slot_changes_only_on_exact_match as [Hslot Hnone].
  destruct (Hslot 5000%Z fuzzyB emptied 0 "B")
    as (Hempty & _); [reflexivity|discriminate|reflexivity|].
  destruct (Hslot 5000%Z exactB pickupExampleState 0 "B")
    as (_ & Hexact & _ & Honly); [reflexivity|discriminate|reflexivity|].
  destruct (Hslot 5000%Z fuzzyB pickupExampleState 0 "B")
    as (_ & _ & Hfuzzy & _); [reflexivity|discriminate|reflexivity|].
  split; [apply Hempty; reflexivity|].
  split; [apply Hexact; reflexivity|].
  split; [apply Hfuzzy; [reflexivity|reflexivity|discriminate]|].
  split; [apply Honly; [reflexivity|]; rewrite Hexact by reflexivity; discriminate|].
  apply (Hnone 5000%Z fuzzyB waitingState); reflexivity.
Defined.

(** ** Signatures and joined keys *)

Lemma ascii_compare_eq (a b : Ascii.ascii) : Ascii.compare a b = Eq → a = b.
Proof.
  unfold Ascii.compare. intros H. apply N.compare_eq in H.
  rewrite <- (Ascii.ascii_N_embedding a), <- (Ascii.ascii_N_embedding b), H. reflexivity.
Qed.

Lemma string_leb_trans (x y z : string) :
  String.leb x y = true → String.leb y z = true → String.leb x z = true.
Proof.
  unfold String.leb. revert y z.
  induction x as [|a x IH]; intros [|b y] [|c z]; simpl; try congruence.
  destruct (Ascii.compare a b) eqn:Eab; try congruence;
    destruct (Ascii.compare b c) eqn:Ebc; try congruence; intros H1 H2.
  - apply ascii_compare_eq in Eab, Ebc. subst. unfold Ascii.compare at 1.
    rewrite N.compare_refl. apply (IH y z); assumption.
  - apply ascii_compare_eq in Eab. subst. rewrite Ebc. reflexivity.
  - apply ascii_compare_eq in Ebc. subst. rewrite Eab. reflexivity.
  - assert (Ascii.compare a c = Lt) as ->; [|reflexivity].
    unfold Ascii.compare in *. apply N.compare_lt_iff.
    apply N.compare_lt_iff in Eab, Ebc. eapply N.lt_trans; eassumption.
Qed.

Lemma sort_insert_Permutation (x : string) (l : list string) : sort_insert x l ≡ₚ x :: l.
Proof.
  induction l as [|y l IH]; [reflexivity|]. simpl.
  destruct (String.leb x y); [reflexivity|]. rewrite IH. apply Permutation_swap.
Qed.

Lemma sort_strings_Permutation (l : list string) : sort_strings l ≡ₚ l.
Proof.
  induction l as [|x l IH]; [reflexivity|]. unfold sort_strings in *. simpl.
  rewrite sort_insert_Permutation, IH. reflexivity.
Qed.

Lemma sort_insert_sorted (x : string) (l : list string) :
  StronglySorted string_le l → StronglySorted string_le (sort_insert x l).
Proof.
  induction 1 as [|y l Hs IH Hy]; simpl.
  - repeat constructor.
  - destruct (String.leb x y) eqn:E.
    + constructor; [constructor; assumption|]. constructor; [exact E|].
      eapply Forall_impl; [exact Hy|]. intros z Hz. eapply string_leb_trans; eassumption.
    + constructor; [exact IH|]. rewrite sort_insert_Permutation.
      constructor; [|exact Hy].
      destruct (String.leb_total x y) as [H|H]; [congruence|exact H].
Qed.

Lemma sort_strings_sorted (l : list string) : StronglySorted string_le (sort_strings l).
Proof.
  induction l as [|x l IH]; [constructor|]. apply sort_insert_sorted, IH.
Qed.

Lemma sort_strings_proper (l k : list string) : l ≡ₚ k → sort_strings l = sort_strings k.
Proof.
  intros H. apply (StronglySorted_unique_strong string_le).
  - intros x y _ _. apply String.leb_antisym.
  - apply sort_strings_sorted.
  - apply sort_strings_sorted.
  - rewrite !sort_strings_Permutation. exact H.
Qed.

Lemma splitOn_app (c : Ascii.ascii) (x rest : string) :
  contains c x = false →
  splitOn c (String.append x (String c rest)) = x :: splitOn c rest.
Proof.
  induction x as [|a x IH]; simpl.
  - intros _. rewrite Ascii.eqb_refl. reflexivity.
  - intros H. apply orb_false_iff in H as [Ha Hx]. rewrite Ha, (IH Hx). reflexivity.
Qed.

Lemma splitOn_free (c : Ascii.ascii) (x : string) : contains c x = false → splitOn c x = [x].
Proof.
  induction x as [|a x IH]; simpl; [reflexivity|].
  intros H. apply orb_false_iff in H as [Ha Hx]. rewrite Ha, (IH Hx). reflexivity.
Qed.

Lemma splitOn_concat (c : Ascii.ascii) (x : string) (l : list string) :
  Forall (λ y, contains c y = false) (x :: l) →
  splitOn c (String.concat (String c "") (x :: l)) = x :: l.
Proof.
  revert x. induction l as [|y l IH]; intros x H.
  - simpl. apply splitOn_free. inversion H; assumption.
  - change (String.concat (String c "") (x :: y :: l))
      with (String.append x (String c (String.concat (String c "") (y :: l)))).
    inversion H as [|? ? Hx Hl]; subst.
    rewrite (splitOn_app _ _ _ Hx), (IH y Hl). reflexivity.
Qed.

(** Joining is injective on valid keys. *)
Lemma concat_inj (c : Ascii.ascii) (l k : list string) :
  Forall (validKey c) l → Forall (validKey c) k →
  String.concat (String c "") l = String.concat (String c "") k → l = k.
Proof.
  intros Hl Hk E.
  assert (∀ m, Forall (validKey c) m → Forall (λ y, contains c y = false) m) as Hfree.
  { intros m Hm. eapply Forall_impl; [exact Hm|]. intros y [_ Hy]. exact Hy. }
  destruct l as [|x l], k as [|y k]; [reflexivity| | |].
  - exfalso. apply (f_equal (splitOn c)) in E.
    rewrite (splitOn_concat c y k (Hfree _ Hk)) in E. simpl in E.
    injection E as <- _. inversion Hk as [|? ? [Hy _] _]. congruence.
  - exfalso. apply (f_equal (splitOn c)) in E.
    rewrite (splitOn_concat c x l (Hfree _ Hl)) in E. simpl in E.
    injection E as -> _. inversion Hl as [|? ? [Hx _] _]. congruence.
  - apply (f_equal (splitOn c)) in E.
    rewrite (splitOn_concat c x l (Hfree _ Hl)), (splitOn_concat c y k (Hfree _ Hk)) in E.
    exact E.
Qed.

Lemma sorted_join_Permutation (c : Ascii.ascii) (l k : list string) :
  Forall (validKey c) l → Forall (validKey c) k →
  String.concat (String c "") (sort_strings l) = String.concat (String c "") (sort_strings k) →
  l ≡ₚ k.
Proof.
  intros Hl Hk E.
  rewrite <- (sort_strings_Permutation l), <- (sort_strings_Permutation k).
  rewrite (concat_inj c (sort_strings l) (sort_strings k)); [reflexivity| | |exact E].
  - rewrite sort_strings_Permutation. exact Hl.
  - rewrite sort_strings_Permutation. exact Hk.
Qed.

(** X1.  The signature of a list of bounties does not depend on their
    order: lists that are permutations of each other have the same
    signature.  For bounty keys that are not empty and hold no "|" the
    converse holds: equal signatures mean the same bounties with the same
    multiplicities. *)
Theorem signature_identifies_multiset :
  ∀ l k : list string,
    (l ≡ₚ k → makeAllBountiesSignature l = makeAllBountiesSignature k)
    ∧ (Forall (validKey "|"%char) l → Forall (validKey "|"%char) k →
       makeAllBountiesSignature l = makeAllBountiesSignature k → l ≡ₚ k).
Proof.
  intros l k. split.
  - intros H. unfold makeAllBountiesSignature. rewrite (sort_strings_proper l k H).
    reflexivity.
  - apply sorted_join_Permutation.
Qed.

Lemma signature_identifies_multiset_witness :
  makeAllBountiesSignature ["SOAP"; "CLOCK"; "SOAP"]
  = makeAllBountiesSignature ["CLOCK"; "SOAP"; "SOAP"]
  ∧ ["SOAP"; "CLOCK"; "SOAP"] ≡ₚ ["CLOCK"; "SOAP"; "SOAP"].
Proof.
  destruct (signature_identifies_multiset ["SOAP"; "CLOCK"; "SOAP"] ["CLOCK"; "SOAP"; "SOAP"])
    as [Hperm Hsig].
  split.
  - apply Hperm. apply Permutation_swap.
  - apply Hsig; [| |reflexivity];
      repeat (constructor; [split; [discriminate|reflexivity]|]); constructor.
Defined.

(** ** Rectangles *)

Lemma round_safe (z : Z) : (Z.abs z < 2 ^ 53)%Z → Number.round z = Number.int z.
Proof.
  intros H. unfold Number.round, Number.fl. cbv zeta.
  destruct (Z.ltb_spec (Z.abs z) (2 ^ 53)) as [_|]; [|lia].
  destruct (Z.leb_spec (2 ^ 1024) (Z.abs z)) as [Hbig|]; [|reflexivity].
  exfalso. assert (2 ^ 53 ≤ 2 ^ 1024)%Z by (apply Z.pow_le_mono_r; lia). lia.
Qed.

Lemma add_safe (a b : Z) :
  (Z.abs (a + b) < 2 ^ 53)%Z → Number.add (Number.int a) (Number.int b) = Number.int (a + b).
Proof. intros H. cbn [Number.add]. apply round_safe, H. Qed.

Lemma sub_safe (a b : Z) :
  (Z.abs (a - b) < 2 ^ 53)%Z → Number.sub (Number.int a) (Number.int b) = Number.int (a - b).
Proof.
  intros H. unfold Number.sub. cbn [Number.opp]. rewrite add_safe by (rewrite Z.add_opp_r; exact H).
  rewrite Z.add_opp_r. reflexivity.
Qed.

Lemma max_int (a b : Z) :
  Number.max (Number.int a) (Number.int b) = Number.int (Z.max a b).
Proof. cbn. destruct (Z.ltb_spec a b); f_equal; lia. Qed.

Lemma min_int (a b : Z) :
  Number.min (Number.int a) (Number.int b) = Number.int (Z.min a b).
Proof. cbn. destruct (Z.ltb_spec b a); f_equal; lia. Qed.

(** One axis of lines 314-319 on integers that binary64 adds exactly. *)
Lemma clamp_axis (pos size limit : Z) :
  (1 ≤ limit ≤ 2 ^ 52)%Z → (size ≤ 2 ^ 52)%Z →
  let l := Z.max 0 (Z.min pos (limit - 1)) in
  let w := Z.max 1 size in
  let w' := if (limit <? l + w)%Z then Z.max 1 (limit - l) else w in
  Number.max (Number.int 0)
    (Number.min (Number.int pos) (Number.sub (Number.int limit) (Number.int 1)))
  = Number.int l
  ∧ (if Number.ltb (Number.int limit)
          (Number.add (Number.int l) (Number.max (Number.int 1) (Number.int size)))
     then Number.max (Number.int 1) (Number.sub (Number.int limit) (Number.int l))
     else Number.max (Number.int 1) (Number.int size))
    = Number.int w'
  ∧ (0 ≤ l ∧ 1 ≤ w' ∧ l + w' ≤ limit)%Z
  ∧ ((0 ≤ pos ∧ 1 ≤ size ∧ pos + size ≤ limit)%Z → l = pos ∧ w' = size).
Proof.
  intros HL HS l w w'.
  assert (2 ^ 53 = 2 ^ 52 + 2 ^ 52)%Z as Hpow by reflexivity.
  assert (0 ≤ l ≤ limit - 1)%Z as Hl by (unfold l; lia).
  assert (1 ≤ w ≤ 2 ^ 52)%Z as Hw by (unfold w; lia).
  split; [|split; [|split]].
  - rewrite sub_safe by lia. rewrite min_int, max_int. reflexivity.
  - rewrite max_int. fold w. rewrite add_safe by lia. cbn [Number.ltb]. unfold w'.
    destruct (limit <? l + w)%Z; [|reflexivity].
    rewrite sub_safe by lia. apply max_int.
  - unfold w'. destruct (Z.ltb_spec limit (l + w)); lia.
  - intros (H1 & H2 & H3). unfold w'.
    assert (l = pos) as El by (unfold l; lia). assert (w = size) as Ew by (unfold w; lia).
    destruct (Z.ltb_spec limit (l + w)); [lia|]. split; assumption.
Qed.

(** X2.  For a region of integer coordinates and an image of at least
    one pixel each way, with the image and the region no wider and no
    higher than [2^52], the rectangle [clampRect] returns has integer
    fields, lies inside the image and is at least one pixel wide and high;
    a rectangle that already does is returned unchanged. *)
Theorem clampRect_inside_image :
  ∀ left top width height maxW maxH : Z,
    (1 ≤ maxW ≤ 2 ^ 52)%Z → (1 ≤ maxH ≤ 2 ^ 52)%Z →
    (width ≤ 2 ^ 52)%Z → (height ≤ 2 ^ 52)%Z →
    let r :=
      clampRect (Number.int left) (Number.int top) (Number.int width) (Number.int height)
        (Number.int maxW) (Number.int maxH) in
    (∃ l t w h : Z,
       r = Rect.mk (Number.int l) (Number.int t) (Number.int w) (Number.int h)
       ∧ (0 ≤ l ∧ 1 ≤ w ∧ l + w ≤ maxW ∧ 0 ≤ t ∧ 1 ≤ h ∧ t + h ≤ maxH)%Z)
    ∧ ((0 ≤ left ∧ 1 ≤ width ∧ left + width ≤ maxW
        ∧ 0 ≤ top ∧ 1 ≤ height ∧ top + height ≤ maxH)%Z →
       r = Rect.mk (Number.int left) (Number.int top) (Number.int width)
             (Number.int height)).
Proof.
  intros left top width height maxW maxH HW HH Hw Hh r.
  destruct (clamp_axis left width maxW HW Hw) as (Hl & Hwd & Hx & Hfx).
  destruct (clamp_axis top height maxH HH Hh) as (Ht & Hhd & Hy & Hfy).
  cbv zeta in Hl, Hwd, Hx, Hfx, Ht, Hhd, Hy, Hfy.
  assert (r = Rect.mk (Number.int (Z.max 0 (Z.min left (maxW - 1))))
                (Number.int (Z.max 0 (Z.min top (maxH - 1))))
                (Number.int
                   (if (maxW <? Z.max 0 (Z.min left (maxW - 1)) + Z.max 1 width)%Z
                    then Z.max 1 (maxW - Z.max 0 (Z.min left (maxW - 1)))
                    else Z.max 1 width))
                (Number.int
                   (if (maxH <? Z.max 0 (Z.min top (maxH - 1)) + Z.max 1 height)%Z
                    then Z.max 1 (maxH - Z.max 0 (Z.min top (maxH - 1)))
                    else Z.max 1 height))) as Hr.
  { unfold r, clampRect. cbv zeta. rewrite Hl, Ht, Hwd, Hhd. reflexivity. }
  split.
  - eexists _, _, _, _. split; [exact Hr|]. lia.
  - intros (H1 & H2 & H3 & H4 & H5 & H6). rewrite Hr.
    destruct Hfx as [-> ->]; [lia|]. destruct Hfy as [-> ->]; [lia|]. reflexivity.
Qed.

Lemma clampRect_inside_image_witness :
  let r :=
    clampRect (Number.int 1900) (Number.int (-5)) (Number.int 300) (Number.int 70)
      (Number.int 1920) (Number.int 1080) in
  r = Rect.mk (Number.int 1900) (Number.int 0) (Number.int 20) (Number.int 70)
  ∧ (∃ l t w h : Z,
       r = Rect.mk (Number.int l) (Number.int t) (Number.int w) (Number.int h)
       ∧ (0 ≤ l ∧ 1 ≤ w ∧ l + w ≤ 1920 ∧ 0 ≤ t ∧ 1 ≤ h ∧ t + h ≤ 1080)%Z)
  ∧ clampRect (Number.int 20) (Number.int 150) (Number.int 300) (Number.int 70)
      (Number.int 1920) (Number.int 1080)
    = Rect.mk (Number.int 20) (Number.int 150) (Number.int 300) (Number.int 70).
Proof.
  intros r.
  assert (1920 ≤ 2 ^ 52)%Z as Hbound by (vm_compute; discriminate).
  destruct (clampRect_inside_image 1900 (-5) 300 70 1920 1080) as [Hin _]; try lia.
  destruct (clampRect_inside_image 20 150 300 70 1920 1080) as [_ Hfix]; try lia.
  split; [vm_compute; reflexivity|]. split; [exact Hin|]. apply Hfix. lia.
Defined.

(** Beyond [2^53] the sum of line 318 is rounded: the rectangle is kept
    although it ends one pixel outside the image.  A NaN coordinate is
    handed on. *)
Lemma clampRect_beyond_safe_integers :
  clampRect (Number.int 1) (Number.int 0) (Number.int (2 ^ 53)) (Number.int 1)
    (Number.int (2 ^ 53)) (Number.int 10)
  = Rect.mk (Number.int 1) (Number.int 0) (Number.int (2 ^ 53)) (Number.int 1)
  ∧ Rect.left (clampRect Number.nan (Number.int 0) (Number.int 5) (Number.int 5)
                 (Number.int 100) (Number.int 100)) = Number.nan
  ∧ Number.add (Number.int (2 ^ 53)) (Number.int 1) = Number.int (2 ^ 53)
  ∧ Number.add (Number.int (2 ^ 53)) (Number.int 3) = Number.int (2 ^ 53 + 4).
Proof. repeat split; vm_compute; reflexivity. Qed.
(** ** The dispatcher: chunks and rejections *)

Lemma concat_replicate_nil {A : Type} (n : nat) : concat (replicate n (@nil A)) = [].
Proof. induction n as [|n IH]; [reflexivity|exact IH]. Qed.

Lemma concat_alter_snoc {A : Type} (x : A) (i : nat) (chunks : list (list A)) :
  i < length chunks → concat (alter (λ c, c ++ [x]) i chunks) ≡ₚ x :: concat chunks.
Proof.
  revert i. induction chunks as [|c chunks IH]; intros i Hi; [simpl in Hi; lia|].
  destruct i as [|i].
  - change (concat ((c ++ [x]) :: chunks) ≡ₚ x :: concat (c :: chunks)).
    simpl. rewrite <- app_assoc. simpl. rewrite <- Permutation_middle. reflexivity.
  - change (concat (c :: alter (λ c, c ++ [x]) i chunks) ≡ₚ x :: concat (c :: chunks)).
    simpl. rewrite IH by (simpl in Hi; lia). rewrite <- Permutation_middle. reflexivity.
Qed.

Lemma roundRobin_Permutation (n : nat) (tasks : list ComboTask.t) :
  1 ≤ n → concat (roundRobin n tasks) ≡ₚ tasks.
Proof.
  intros Hn. induction tasks as [|t tasks IH] using rev_ind.
  - unfold roundRobin. simpl. rewrite concat_replicate_nil. reflexivity.
  - rewrite roundRobin_snoc, concat_alter_snoc, IH.
    + apply Permutation_cons_append.
    + rewrite length_roundRobin. apply Nat.mod_upper_bound. lia.
Qed.

Lemma imap_pair_snd {A : Type} (l : list A) : (imap pair l).*2 = l.
Proof.
  induction l as [|x l IH] using rev_ind; [reflexivity|].
  rewrite imap_app, fmap_app, IH. reflexivity.
Qed.

Lemma everyNth_sublist (n k : nat) (tasks : list ComboTask.t) :
  everyNth n k tasks `sublist_of` tasks.
Proof.
  unfold everyNth. rewrite <- (imap_pair_snd tasks) at 2.
  apply fmap_sublist, sublist_filter.
Qed.

Lemma succ_div_mod (m n : nat) :
  1 ≤ n →
  if decide (S (m mod n) = n)
  then S m / n = S (m / n) ∧ S m mod n = 0
  else S m / n = m / n ∧ S m mod n = S (m mod n).
Proof.
  intros Hn. pose proof (Nat.div_mod_eq m n) as E.
  pose proof (Nat.mod_upper_bound m n ltac:(lia)) as Hr.
  pose proof (Nat.div_mod_eq (S m) n) as E'.
  pose proof (Nat.mod_upper_bound (S m) n ltac:(lia)) as Hr'.
  destruct (decide _) as [H|H].
  - apply (Nat.div_mod_unique n); [lia|lia|]. nia.
  - apply (Nat.div_mod_unique n); [lia|lia|]. nia.
Qed.

Lemma length_everyNth (n k : nat) (tasks : list ComboTask.t) :
  k < n →
  length (everyNth n k tasks)
  = length tasks / n + (if Nat.ltb k (length tasks mod n) then 1 else 0).
Proof.
  intros Hk. induction tasks as [|t tasks IH] using rev_ind.
  - simpl. rewrite Nat.Div0.div_0_l, Nat.Div0.mod_0_l. reflexivity.
  - rewrite everyNth_snoc, !length_app, IH. simpl length.
    replace (length tasks + 1) with (S (length tasks)) by lia.
    pose proof (succ_div_mod (length tasks) n ltac:(lia)) as H.
    pose proof (Nat.mod_upper_bound (length tasks) n ltac:(lia)) as Hr.
    destruct (decide (S _ = n)) as [E|E]; destruct H as [-> ->];
      destruct (decide (length tasks mod n = k)) as [D|D]; simpl length;
      repeat match goal with |- context [Nat.ltb ?a ?b] => destruct (Nat.ltb_spec a b) end;
      lia.
Qed.

Lemma shard_floor (maxProcesses n : nat) :
  1 ≤ maxProcesses → 20 < n → 7 ≤ n / Nat.min maxProcesses (ceilDiv10 n).
Proof.
  intros HP Hn. unfold ceilDiv10.
  set (p := Nat.min maxProcesses ((n + 9) / 10)).
  assert (1 ≤ p) as Hp1.
  { unfold p. apply Nat.min_glb; [exact HP|].
    apply Nat.div_le_lower_bound; lia. }
  assert (p * 10 ≤ n + 9) as Hp10.
  { transitivity ((n + 9) / 10 * 10); [unfold p; nia|].
    pose proof (Nat.div_mod_eq (n + 9) 10). lia. }
  apply Nat.div_le_lower_bound; [lia|]. nia.
Qed.

(** X3.  Round-robin over at least one process is a partition of the
    tasks: every task goes to exactly one chunk, each chunk keeps the
    order of the ranking, and chunk [k] receives [count / numProcesses]
    tasks, one more when [k] is below the remainder, so chunk sizes differ
    by at most one.  With more than 20 tasks and the process count
    [findBest] uses, every chunk holds at least 7 tasks. *)
Theorem round_robin_partitions_evenly :
  ∀ (numProcesses : nat) (tasks : list ComboTask.t),
    1 ≤ numProcesses →
    let chunks := roundRobin numProcesses tasks in
    concat chunks ≡ₚ tasks
    ∧ (∀ k chunk, chunks !! k = Some chunk →
         chunk `sublist_of` tasks
         ∧ length chunk
           = length tasks / numProcesses
             + (if Nat.ltb k (length tasks mod numProcesses) then 1 else 0))
    ∧ (∀ maxProcesses, 1 ≤ maxProcesses → 20 < length tasks →
         numProcesses = Nat.min maxProcesses (ceilDiv10 (length tasks)) →
         ∀ chunk, chunk ∈ chunks → 7 ≤ length chunk).
Proof.
  intros numProcesses tasks Hn chunks.
  assert (∀ k chunk, chunks !! k = Some chunk →
            chunk `sublist_of` tasks
            ∧ length chunk
              = length tasks / numProcesses
                + (if Nat.ltb k (length tasks mod numProcesses) then 1 else 0)) as Hchunk.
  { intros k chunk Hk.
    assert (k < numProcesses) as Hlt.
    { apply lookup_lt_Some in Hk. unfold chunks in Hk.
      rewrite length_roundRobin in Hk. exact Hk. }
    unfold chunks in Hk. rewrite lookup_roundRobin in Hk by exact Hlt.
    injection Hk as <-. split; [apply everyNth_sublist|apply length_everyNth, Hlt]. }
  split; [apply roundRobin_Permutation, Hn|]. split; [exact Hchunk|].
  intros maxProcesses HP H20 -> chunk Hin.
  apply list_elem_of_lookup in Hin as [k Hk].
  destruct (Hchunk k chunk Hk) as [_ ->].
  pose proof (shard_floor maxProcesses (length tasks) HP H20). lia.
Qed.

Lemma round_robin_partitions_evenly_witness :
  concat (roundRobin 3 manyTasks) ≡ₚ manyTasks
  ∧ (∀ k chunk, roundRobin 3 manyTasks !! k = Some chunk →
       chunk `sublist_of` manyTasks
       ∧ length chunk = 25 / 3 + (if Nat.ltb k (25 mod 3) then 1 else 0))
  ∧ (∀ chunk, chunk ∈ roundRobin 3 manyTasks → 7 ≤ length chunk)
  ∧ length <$> roundRobin 3 manyTasks = [9; 8; 8].
Proof.
  destruct (round_robin_partitions_evenly 3 manyTasks) as (Hperm & Hchunk & Hfloor); [lia|].
  split; [exact Hperm|]. split; [exact Hchunk|].
  split; [|reflexivity].
  apply (Hfloor (defaultMaxProcesses 4)); [vm_compute; lia|vm_compute; lia|reflexivity].
Defined.

(** ** The quality level in the pool *)

Lemma truncate_limit (comboTasks : list ComboTask.t) (options : PruningOptions.t) :
  match PruningOptions.maxCombinations options with
  | Finite n => truncate comboTasks options = take n comboTasks
  | Infinity => truncate comboTasks options = comboTasks
  end.
Proof. unfold truncate. destruct (PruningOptions.maxCombinations options); reflexivity. Qed.

Lemma findBest_of_truncated (maxProcesses : nat)
    (respond : nat → list ComboTask.t → WorkerEvent) (comboTasks : list ComboTask.t)
    (options : PruningOptions.t) (timeoutMs : Z) :
  findBest maxProcesses respond comboTasks options timeoutMs
  = findBest maxProcesses respond (truncate comboTasks options)
      (PruningOptions.mk Infinity (PruningOptions.pruningThreshold options)) timeoutMs.
Proof. reflexivity. Qed.

Lemma elem_of_posted (maxProcesses : nat) (comboTasks : list ComboTask.t)
    (options : PruningOptions.t) (p : nat) (msg : EvaluateChunk.t) :
  (p, msg) ∈ posted maxProcesses comboTasks options →
  EvaluateChunk.pruningThreshold msg = PruningOptions.pruningThreshold options
  ∧ EvaluateChunk.tasks msg `sublist_of` truncate comboTasks options.
Proof.
  unfold posted. cbv zeta.
  set (tasks := truncate comboTasks options).
  destruct (Nat.eqb (length tasks) 0); [intros H; inversion H|].
  destruct (Nat.leb (length tasks) 20).
  - destruct (Nat.ltb 0 maxProcesses); [|intros H; inversion H].
    intros H. apply list_elem_of_singleton in H. injection H as -> ->.
    split; reflexivity.
  - intros H. apply elem_of_lookup_imap in H as (k & chunk & Heq & Hk).
    injection Heq as -> ->. split; [reflexivity|]. cbn [EvaluateChunk.tasks].
    assert (k < Nat.min maxProcesses (ceilDiv10 (length tasks))) as Hlt
      by (apply lookup_lt_Some in Hk; rewrite length_roundRobin in Hk; exact Hk).
    rewrite lookup_roundRobin in Hk by exact Hlt. injection Hk as <-.
    apply everyNth_sublist.
Qed.

Lemma posted_tasks (maxProcesses : nat) (comboTasks : list ComboTask.t)
    (options : PruningOptions.t) :
  1 ≤ maxProcesses →
  concat (EvaluateChunk.tasks <$> (posted maxProcesses comboTasks options).*2)
  ≡ₚ truncate comboTasks options.
Proof.
  intros HP. unfold posted. cbv zeta.
  set (tasks := truncate comboTasks options).
  destruct (Nat.eqb_spec (length tasks) 0) as [E|E].
  - destruct tasks; [reflexivity|discriminate E].
  - destruct (Nat.leb (length tasks) 20).
    + destruct (Nat.ltb_spec 0 maxProcesses); [|lia]. simpl. rewrite app_nil_r. reflexivity.
    + rewrite !fmap_imap.
      rewrite (imap_ext _ (const id)) by (intros; reflexivity).
      rewrite imap_const, list_fmap_id. apply roundRobin_Permutation.
      unfold ceilDiv10. assert (1 ≤ (length tasks + 9) / 10)
        by (apply Nat.div_le_lower_bound; lia). lia.
Qed.

Lemma findBest_reads_posted (maxProcesses : nat)
    (respond respond' : nat → list ComboTask.t → WorkerEvent)
    (comboTasks : list ComboTask.t) (options : PruningOptions.t) (timeoutMs : Z) :
  (∀ p msg, (p, msg) ∈ posted maxProcesses comboTasks options →
            respond' p (EvaluateChunk.tasks msg) = respond p (EvaluateChunk.tasks msg)) →
  findBest maxProcesses respond' comboTasks options timeoutMs
  = findBest maxProcesses respond comboTasks options timeoutMs.
Proof.
  unfold posted, findBest. cbv zeta.
  set (tasks := truncate comboTasks options).
  destruct (Nat.eqb (length tasks) 0); [reflexivity|].
  destruct (Nat.leb (length tasks) 20).
  - intros H. unfold runOnProcess. destruct (Nat.ltb 0 maxProcesses); [|reflexivity].
    simpl negb. cbv iota.
    pose proof (H 0 (EvaluateChunk.mk tasks true 5 (PruningOptions.pruningThreshold options))
                  (list_elem_of_here _ _)) as H0.
    cbn [EvaluateChunk.tasks] in H0. rewrite H0. reflexivity.
  - intros H. destruct (Nat.eqb _ 0); [reflexivity|].
    assert (shardResults maxProcesses respond'
              (Nat.min maxProcesses (ceilDiv10 (length tasks))) tasks timeoutMs
            = shardResults maxProcesses respond
                (Nat.min maxProcesses (ceilDiv10 (length tasks))) tasks timeoutMs) as ->;
      [|reflexivity].
    unfold shardResults. apply imap_ext. intros k chunk Hk. cbv beta.
    unfold runOnProcess. destruct (negb _); [reflexivity|].
    assert (respond' (k mod maxProcesses) chunk = respond (k mod maxProcesses) chunk) as ->;
      [|reflexivity].
    apply (H (k mod maxProcesses)
             (EvaluateChunk.mk chunk true 5 (PruningOptions.pruningThreshold options))).
    apply elem_of_lookup_imap. exists k, chunk. split; [reflexivity|exact Hk].
Qed.

(** C7.  Levels 1 to 5 select 100, 200, 400, 800 and unbounded
    combinations with thresholds 0.90, 0.92, 0.95, 0.98 and 1.0; both grow
    strictly with the level; with the force-optimal flag set the unbounded
    pair is used whatever the level, also by the search a forced
    recalculation starts.  Every search that is launched carries the pair
    selected at that moment, and the pool uses it: the ranked
    combinations are cut to the first [maxCombinations], or kept whole
    when that is unbounded; the call is the one on the combinations so cut;
    the tasks posted to the workers are those, and every message carries
    the threshold of the pair; the workers' answers to these messages are
    all the result depends on. *)
Theorem quality_table_strictly_increasing :
  map qualitySettings qualityLevels
  = [Some (PruningOptions.mk (Finite 100) 0.90); Some (PruningOptions.mk (Finite 200) 0.92);
     Some (PruningOptions.mk (Finite 400) 0.95); Some (PruningOptions.mk (Finite 800) 0.98);
     Some (PruningOptions.mk Infinity 1.0)]
  ∧ (∀ (s : State) (q : float),
       forceOptimal s = false → pathfindingQuality s = q → q ∈ qualityLevels →
       qualitySettings q = Some (pruningOptions s))
  ∧ (∀ (s s' : State),
       forceOptimal s = false → forceOptimal s' = false →
       pathfindingQuality s ∈ qualityLevels → pathfindingQuality s' ∈ qualityLevels →
       (pathfindingQuality s <? pathfindingQuality s')%float = true →
       Limit_ltb (PruningOptions.maxCombinations (pruningOptions s))
                 (PruningOptions.maxCombinations (pruningOptions s')) = true
       ∧ (PruningOptions.pruningThreshold (pruningOptions s)
          <? PruningOptions.pruningThreshold (pruningOptions s'))%float = true)
  ∧ (∀ (s : State), forceOptimal s = true → pruningOptions s = unbounded)
  ∧ (∀ (now : Z) (s : State) (req : SearchRequest.t),
       req ∈ spawns (doForceOptimalRecalculation now s).2 →
       SearchRequest.pruningOptions req = unbounded)
  ∧ (∀ (now : Z) (allBounties : list string) (boardOpen : bool) (signature reason : string)
       (s : State) (req : SearchRequest.t),
       req ∈ spawns (launchFindBestIfNeeded now allBounties boardOpen signature reason s).2 →
       SearchRequest.pruningOptions req = pruningOptions s)
  ∧ (∀ (comboTasks : list ComboTask.t) (options : PruningOptions.t),
       match PruningOptions.maxCombinations options with
       | Finite n => truncate comboTasks options = take n comboTasks
       | Infinity => truncate comboTasks options = comboTasks
       end)
  ∧ (∀ (maxProcesses : nat) (respond : nat → list ComboTask.t → WorkerEvent)
       (timeoutMs : Z) (req : SearchRequest.t) (comboTasks : list ComboTask.t),
       let options := SearchRequest.pruningOptions req in
       let tasksToProcess := truncate comboTasks options in
       poolCall maxProcesses respond timeoutMs req comboTasks
       = findBest maxProcesses respond tasksToProcess
           (PruningOptions.mk Infinity (PruningOptions.pruningThreshold options)) timeoutMs
       ∧ (∀ p msg, (p, msg) ∈ posted maxProcesses comboTasks options →
            EvaluateChunk.pruningThreshold msg = PruningOptions.pruningThreshold options
            ∧ EvaluateChunk.tasks msg `sublist_of` tasksToProcess)
       ∧ (1 ≤ maxProcesses →
          concat (EvaluateChunk.tasks <$> (posted maxProcesses comboTasks options).*2)
          ≡ₚ tasksToProcess)
       ∧ (∀ respond' : nat → list ComboTask.t → WorkerEvent,
            (∀ p msg, (p, msg) ∈ posted maxProcesses comboTasks options →
                      respond' p (EvaluateChunk.tasks msg)
                      = respond p (EvaluateChunk.tasks msg)) →
            poolCall maxProcesses respond' timeoutMs req comboTasks
            = poolCall maxProcesses respond timeoutMs req comboTasks)).
Proof.
  split; [reflexivity|split; [|split; [|split; [|split; [|split; [|split]]]]]].
  - intros s q Hf Hq Hin. unfold pruningOptions. rewrite Hf, Hq.
    unfold qualityLevels in Hin.
    repeat (apply elem_of_cons in Hin as [->|Hin]; [reflexivity|]).
    inversion Hin.
  - intros s s' Hf Hf' Hq Hq'. unfold pruningOptions. rewrite Hf, Hf'.
    unfold qualityLevels in Hq, Hq'.
    repeat (apply elem_of_cons in Hq as [->|Hq];
            [repeat (apply elem_of_cons in Hq' as [->|Hq'];
                     [vm_compute; intros; first [discriminate|split; reflexivity]|]);
             inversion Hq'|]).
    inversion Hq.
  - intros s Hf. unfold pruningOptions. rewrite Hf. reflexivity.
  - intros now s req. unfold doForceOptimalRecalculation.
    destruct (Nat.ltb _ _); [|intros H; inversion H].
    intros H. apply spawns_launch_options in H. rewrite H. reflexivity.
  - intros now allBounties boardOpen signature reason s req.
    apply spawns_launch_options.
  - apply truncate_limit.
  - intros maxProcesses respond timeoutMs req comboTasks options tasksToProcess.
    split; [apply findBest_of_truncated|].
    split; [intros p msg; apply elem_of_posted|].
    split; [apply posted_tasks|].
    intros respond'. apply findBest_reads_posted.
Qed.

Lemma quality_table_strictly_increasing_witness :
  let s2 := set_pathfindingQuality 2 initialState in
  let s4 := set_pathfindingQuality 4 initialState in
  let forced := set_forceOptimal true s2 in
  let held := set_activeBounties [Some "A"] s2 in
  qualitySettings 2 = Some (pruningOptions s2)
  ∧ (Limit_ltb (PruningOptions.maxCombinations (pruningOptions s2))
               (PruningOptions.maxCombinations (pruningOptions s4)) = true
     ∧ (PruningOptions.pruningThreshold (pruningOptions s2)
        <? PruningOptions.pruningThreshold (pruningOptions s4))%float = true)
  ∧ pruningOptions forced = unbounded
  ∧ (∀ req, req ∈ spawns (doForceOptimalRecalculation 0 held).2 →
            SearchRequest.pruningOptions req = unbounded)
  ∧ spawns (doForceOptimalRecalculation 0 held).2
    = [SearchRequest.mk ["A"] false "A" "forceOptimal" unbounded]
  ∧ length (truncate (replicate 250 (exampleTask "A")) (pruningOptions s2)) = 200
  ∧ concat (EvaluateChunk.tasks <$> (posted 3 manyTasks (pruningOptions s2)).*2)
    ≡ₚ truncate manyTasks (pruningOptions s2).
Proof.
  intros s2 s4 forced held.
  destruct quality_table_strictly_increasing
    as (_ & Hlevel & Hmono & Hforce & Hspawn & _ & Hcut & Hpool).
  split; [|split; [|split; [|split; [|split; [|split]]]]].
  - apply (Hlevel s2 2%float); [reflexivity|reflexivity|].
    apply list_elem_of_further, list_elem_of_here.
  - apply (Hmono s2 s4); try reflexivity.
    + apply list_elem_of_further, list_elem_of_here.
    + do 3 apply list_elem_of_further. apply list_elem_of_here.
  - apply (Hforce forced). reflexivity.
  - apply (Hspawn 0%Z held).
  - reflexivity.
  - pose proof (Hcut (replicate 250 (exampleTask "A")) (pruningOptions s2)) as H.
    change (PruningOptions.maxCombinations (pruningOptions s2)) with (Finite 200) in H.
    cbv beta iota in H. rewrite H, length_take, length_replicate. reflexivity.
  - destruct (Hpool 3 silentPool 0%Z
                (SearchRequest.mk [] false "" "" (pruningOptions s2)) manyTasks)
      as (_ & _ & Hposted & _).
    apply Hposted. lia.
Defined.

Lemma pruningOptions_limit (s : State) :
  match PruningOptions.maxCombinations (pruningOptions s) with
  | Finite n => 100 ≤ n
  | Infinity => True
  end.
Proof.
  unfold pruningOptions, qualitySettings, unbounded.
  repeat match goal with |- context [if ?b then _ else _] => destruct b end;
    simpl; lia || exact I.
Qed.

Lemma truncate_nil (comboTasks : list ComboTask.t) (s : State) :
  truncate comboTasks (pruningOptions s) = [] ↔ comboTasks = [].
Proof.
  unfold truncate. pose proof (pruningOptions_limit s) as H.
  destruct (PruningOptions.maxCombinations _) as [n|]; [|reflexivity].
  split; [|intros ->; apply take_nil].
  destruct comboTasks; [reflexivity|]. destruct n; [lia|]. discriminate.
Qed.

Lemma concat_nil_lookup {A : Type} (ls : list (list A)) (k : nat) (l : list A) :
  concat ls = [] → ls !! k = Some l → l = [].
Proof.
  revert k. induction ls as [|x ls IH]; intros k Hc Hk; [discriminate Hk|].
  simpl in Hc. apply app_eq_nil in Hc as [-> Hc].
  destruct k as [|k]; [injection Hk as <-; reflexivity|]. exact (IH k Hc Hk).
Qed.

(** X4.  With at least one process [findBest] rejects in four ways only:
    "No combinations to evaluate" when nothing is left to process, which
    for the options the scheduler sends means no combination at all; the
    timeout or the reported error of process 0 when at most 20 tasks are
    processed; "No valid routes found" when more than 20 are and the
    merged list is empty, every shard having contributed no route.  A
    missing process is never reported, and a shard's timeout or error
    never rejects a search split over several processes. *)
Theorem findBest_rejections :
  ∀ (maxProcesses : nat) (respond : nat → list ComboTask.t → WorkerEvent)
    (comboTasks : list ComboTask.t) (options : PruningOptions.t) (timeoutMs : Z),
    let tasks := truncate comboTasks options in
    let result := findBest maxProcesses respond comboTasks options timeoutMs in
    let chunks := roundRobin (Nat.min maxProcesses (ceilDiv10 (length tasks))) tasks in
    (tasks = [] → result = Reject NoCombinationsToEvaluate)
    ∧ (∀ s : State, truncate comboTasks (pruningOptions s) = [] ↔ comboTasks = [])
    ∧ (∀ e, 1 ≤ maxProcesses → result = Reject e →
         (tasks = [] ∧ e = NoCombinationsToEvaluate)
         ∨ (1 ≤ length tasks ≤ 20 ∧ respond 0 tasks = TimedOut
            ∧ e = ProcessTimedOut timeoutMs)
         ∨ (1 ≤ length tasks ≤ 20
            ∧ ∃ results error, respond 0 tasks = Message false results error
                ∧ e = ProcessError (if truthy error then default "" error
                                    else "Process error"))
         ∨ (20 < length tasks ∧ e = NoValidRoutesFound
            ∧ concat (imap (contribution respond) chunks) = []
            ∧ ∀ k chunk, chunks !! k = Some chunk → contribution respond k chunk = [])).
Proof.
  intros maxProcesses respond comboTasks options timeoutMs tasks result chunks.
  split; [|split].
  - intros E. unfold result, findBest. fold tasks. rewrite E. reflexivity.
  - intros s. apply truncate_nil.
  - intros e HP Hr. destruct tasks as [|t tasks'] eqn:Et.
    + left. split; [reflexivity|]. unfold result, findBest in Hr. fold tasks in Hr.
      rewrite Et in Hr. simpl in Hr. congruence.
    + right. assert (1 ≤ length tasks) as H1 by (rewrite Et; simpl; lia).
      destruct (decide (length tasks ≤ 20)) as [H20|H20].
      * unfold result in Hr. rewrite findBest_single in Hr by assumption.
        fold tasks in Hr. rewrite <- Et. unfold runOnProcess in Hr.
        destruct (Nat.ltb_spec 0 maxProcesses) as [_|]; [|lia]. simpl negb in Hr.
        cbv iota in Hr.
        destruct (respond 0 tasks) as [|[] results error] eqn:Er.
        -- left. split; [lia|]. split; [reflexivity|]. simpl in Hr. congruence.
        -- exfalso. destruct results as [[|best rest]|]; simpl in Hr; discriminate.
        -- right. left. split; [lia|]. exists results, error.
           split; [reflexivity|]. simpl in Hr. congruence.
      * right. right. rewrite <- Et. split; [lia|].
        unfold result in Hr. rewrite findBest_multi in Hr by (fold tasks; lia).
        cbv zeta in Hr. fold tasks in Hr. rewrite Et in Hr. fold chunks in Hr.
        pose proof (sortResults_Permutation (concat (imap (contribution respond) chunks)))
          as Hperm.
        destruct (sortResults _) as [|best rest]; [|discriminate Hr].
        apply Permutation_nil_l in Hperm. symmetry in Hperm.
        split; [congruence|]. split; [exact Hperm|].
        intros k chunk Hk. apply (concat_nil_lookup _ k _ Hperm).
        rewrite list_lookup_imap, Hk. reflexivity.
Qed.

Lemma findBest_rejections_witness :
  findBest 2 silentPool [] unbounded 20000 = Reject NoCombinationsToEvaluate
  ∧ findBest 2 silentPool fewTasks unbounded 20000 = Reject (ProcessTimedOut 20000)
  ∧ findBest 2 silentPool manyTasks unbounded 20000 = Reject NoValidRoutesFound
  ∧ concat (imap (contribution silentPool)
              (roundRobin (Nat.min 2 (ceilDiv10 (length manyTasks))) manyTasks)) = [].
Proof.
  destruct (findBest_rejections 2 silentPool [] unbounded 20000) as (Hnil & _ & _).
  destruct (findBest_rejections 2 silentPool manyTasks unbounded 20000) as (_ & _ & Hmodes).
  assert (findBest 2 silentPool manyTasks unbounded 20000 = Reject NoValidRoutesFound)
    as Hmany by reflexivity.
  split; [apply Hnil; reflexivity|]. split; [reflexivity|]. split; [exact Hmany|].
  destruct (Hmodes NoValidRoutesFound) as [[H _]|[(H & _)|[(H & _)|(_ & _ & H & _)]]];
    [lia|exact Hmany|discriminate H|simpl in H; lia|simpl in H; lia|exact H].
Defined.

(** ** The route filter of an accepted result *)

Lemma filterSteps_sublist (actions : list Step) :
  ∀ have, filterSteps have actions `sublist_of` actions.
Proof.
  induction actions as [|step actions IH]; intros have; [constructor|].
  destruct step; simpl; try (apply sublist_skip, IH).
  destruct (bool_decide _); [apply sublist_cons, IH|apply sublist_skip, IH].
Qed.

Lemma filterSteps_keeps_other_steps (actions : list Step) :
  ∀ have, filter (λ st, isBuy st = false) (filterSteps have actions)
          = filter (λ st, isBuy st = false) actions.
Proof.
  induction actions as [|step actions IH]; intros have; [reflexivity|].
  destruct step; simpl.
  - rewrite !filter_cons_True by reflexivity. rewrite IH. reflexivity.
  - rewrite (filter_cons_False _ (buy _ _ _)) by (simpl; congruence).
    destruct (bool_decide _); [apply IH|].
    rewrite filter_cons_False by (simpl; congruence). apply IH.
  - rewrite !filter_cons_True by reflexivity. rewrite IH. reflexivity.
  - rewrite !filter_cons_True by reflexivity. rewrite IH. reflexivity.
Qed.

Lemma noRedundantBuy_filterSteps (actions : list Step) :
  ∀ have, noRedundantBuy have (filterSteps have actions) = true.
Proof.
  induction actions as [|step actions IH]; intros have; [reflexivity|].
  destruct step; simpl; try apply IH.
  destruct (bool_decide _) eqn:E; [apply IH|]. simpl. rewrite E. apply IH.
Qed.

Lemma filterSteps_fixed (route : list Step) :
  ∀ have, noRedundantBuy have route = true → filterSteps have route = route.
Proof.
  induction route as [|step route IH]; intros have H; [reflexivity|].
  destruct step; simpl in *; try (rewrite IH by exact H; reflexivity).
  apply andb_true_iff in H as [Hn H]. apply negb_true_iff in Hn. rewrite Hn.
  rewrite IH by exact H. reflexivity.
Qed.

Lemma steps_clearInFlight (signature : string) (s : State) :
  steps (clearInFlight signature s) = steps s ∧ stepIdx (clearInFlight signature s) = stepIdx s.
Proof. unfold clearInFlight. split_ifs; split; reflexivity. Qed.

Lemma steps_settled_accepted (signature : string) (r : FindBestResult.t) (s : State) :
  accepts s r = true →
  let s' := onFindBestSettled signature (Resolved r) s in
  let filtered := Nat.ltb 0 (stepIdx s) && Nat.ltb 0 (length (FindBestResult.actions r)) in
  steps s'
  = (if filtered
     then filterSteps (list_to_set (slot_values (activeBounties s))) (FindBestResult.actions r)
     else FindBestResult.actions r)
  ∧ stepIdx s' = if filtered then 0 else stepIdx s.
Proof.
  intros Hacc s' filtered. unfold s', onFindBestSettled.
  destruct (steps_clearInFlight signature
              (set_prevAllBountiesSignature signature
                 (applyResult r (computeFindBest (Resolved r) s)))) as [-> ->].
  assert (accepts (computeFindBest (Resolved r) s) r = true) as Hacc'.
  { simpl. destruct (forceOptimal s); [rewrite accepts_forceOptimal|]; exact Hacc. }
  unfold applyResult. rewrite Hacc'. unfold acceptResult, filtered. clear.
  destruct s as [? ? ? ? ? ? ? ? ? ? rc idx ? ? ? ? ? ? ? ? ? ? ? ? fo].
  destruct fo, rc, idx as [|idx], (FindBestResult.actions r) as [|step actions];
    split; reflexivity.
Qed.

(** X5.  The route kept from an accepted result when the player has
    already advanced: it is the proposed route with [buy] steps removed
    and nothing else, every other step is kept in order, and walking it
    from the bounties held no [buy] asks for an item held at that point;
    filtering again changes nothing, and a route without such a [buy] is
    kept whole.  An accepted result stores this route and resets the step
    cursor when the cursor had advanced and the proposed route is not
    empty; with the cursor at the start it stores the proposed route as
    it is; and an empty proposed route is stored as it is with the
    cursor left where it was, advanced or not. *)
Theorem filtered_route_buys_nothing_held :
  (∀ (have : gset string) (actions : list Step),
     let route := filterSteps have actions in
     route `sublist_of` actions
     ∧ filter (λ st, isBuy st = false) route = filter (λ st, isBuy st = false) actions
     ∧ noRedundantBuy have route = true
     ∧ filterSteps have route = route
     ∧ (noRedundantBuy have actions = true → route = actions))
  ∧ (∀ (signature : string) (r : FindBestResult.t) (s : State),
       accepts s r = true →
       let s' := onFindBestSettled signature (Resolved r) s in
       let held : gset string := list_to_set (slot_values (activeBounties s)) in
       (0 < stepIdx s → FindBestResult.actions r ≠ [] →
        steps s' = filterSteps held (FindBestResult.actions r)
        ∧ stepIdx s' = 0
        ∧ noRedundantBuy held (steps s') = true)
       ∧ (stepIdx s = 0 → steps s' = FindBestResult.actions r ∧ stepIdx s' = 0)
       ∧ (FindBestResult.actions r = [] → steps s' = [] ∧ stepIdx s' = stepIdx s)).
Proof.
  split.
  - intros have actions route. unfold route.
    split; [apply filterSteps_sublist|].
    split; [apply filterSteps_keeps_other_steps|].
    split; [apply noRedundantBuy_filterSteps|].
    split; [apply filterSteps_fixed, noRedundantBuy_filterSteps|].
    apply filterSteps_fixed.
  - intros signature r s Hacc s' held.
    destruct (steps_settled_accepted signature r s Hacc) as [Hs Hi]. fold s' in Hs, Hi.
    split; [|split].
    + intros Hidx Hne.
      assert (Nat.ltb 0 (stepIdx s) = true) as E1 by (apply Nat.ltb_lt; exact Hidx).
      assert (Nat.ltb 0 (length (FindBestResult.actions r)) = true) as E2
        by (apply nonempty_ltb; exact Hne).
      rewrite E1, E2 in Hs, Hi. simpl in Hs, Hi.
      split; [exact Hs|]. split; [exact Hi|]. rewrite Hs. apply noRedundantBuy_filterSteps.
    + intros Hz. rewrite Hz in Hs, Hi. simpl in Hs, Hi. split; assumption.
    + intros Hnil. rewrite Hnil in Hs, Hi. simpl in Hs, Hi.
      rewrite andb_false_r in Hs, Hi. split; assumption.
Qed.

Lemma filtered_route_buys_nothing_held_witness :
  let actions := [buy "A" "Market" 3; buy "B" "Docks" 4; sell "A" "Farm" 5;
                  buy "A" "Market" 6; sell "A" "Farm" 5; sell "B" "Mill" 2] in
  let r := FindBestResult.mk ["A"; "B"] 100 actions 50 in
  let s := set_stepIdx 2 (set_activeBounties [Some "A"] initialState) in
  let s' := onFindBestSettled "A|B" (Resolved r) s in
  steps s' = [buy "B" "Docks" 4; sell "A" "Farm" 5; buy "A" "Market" 6;
              sell "A" "Farm" 5; sell "B" "Mill" 2]
  ∧ stepIdx s' = 0
  ∧ noRedundantBuy (list_to_set (slot_values (activeBounties s))) (steps s') = true
  ∧ filterSteps ∅ actions = actions
  ∧ stepIdx (onFindBestSettled "A|B" (Resolved (FindBestResult.mk ["A"; "B"] 100 [] 50)) s)
    = 2.
Proof.
  intros actions r s s'.
  destruct filtered_route_buys_nothing_held as [Hroute Hstate].
  destruct (Hroute ∅ actions) as (_ & _ & _ & _ & Hwhole).
  destruct (Hstate "A|B" r s) as (Hadv & _ & _); [reflexivity|].
  destruct (Hstate "A|B" (FindBestResult.mk ["A"; "B"] 100 [] 50) s) as (_ & _ & Hempty);
    [reflexivity|].
  destruct Hadv as (Hs & Hi & Hn); [simpl; lia|discriminate|].
  split; [etrans; [exact Hs|vm_compute; reflexivity]|]. split; [exact Hi|].
  split; [exact Hn|]. split; [apply Hwhole; vm_compute; reflexivity|].
  destruct Hempty as [_ Hidx]; [reflexivity|]. exact Hidx.
Defined.

(** ** Completion of a bounty *)

Lemma findSellIndex_spec (bounty : string) (route : list Step) :
  match findSellIndex bounty route with
  | Some k => ∃ step, route !! k = Some step ∧ isSellOf bounty step = true
                      ∧ ∀ j st, j < k → route !! j = Some st → isSellOf bounty st = false
  | None => ∀ st, st ∈ route → isSellOf bounty st = false
  end.
Proof.
  induction route as [|step route IH]; simpl.
  - intros st Hin. inversion Hin.
  - destruct (isSellOf bounty step) eqn:E.
    + exists step. split; [reflexivity|]. split; [exact E|]. intros j st Hj. lia.
    + destruct (findSellIndex bounty route) as [k|]; simpl.
      * destruct IH as (st & Hk & Hs & Hbefore). exists st.
        split; [exact Hk|]. split; [exact Hs|].
        intros [|j] st' Hj Hl; simpl in Hl; [congruence|].
        apply (Hbefore j); [lia|exact Hl].
      * intros st Hin. apply elem_of_cons in Hin as [->|Hin]; [exact E|apply IH, Hin].
Qed.

Lemma findSellIndex_first (bounty loc : string) (d : float) (pre post : list Step) :
  (∀ st, st ∈ pre → isSellOf bounty st = false) →
  findSellIndex bounty (pre ++ sell bounty loc d :: post) = Some (length pre).
Proof.
  intros Hpre. induction pre as [|st pre IH]; simpl.
  - rewrite String.eqb_refl. reflexivity.
  - rewrite (Hpre st) by apply list_elem_of_here.
    rewrite IH; [reflexivity|]. intros st' Hin. apply Hpre, list_elem_of_further, Hin.
Qed.

Lemma truthy_Some (b : string) : b ≠ "" → truthy (Some b) = true.
Proof.
  intros H. simpl. apply negb_true_iff. apply String.eqb_neq. exact H.
Qed.

Lemma filter_nil_iff {A : Type} (P : A → Prop) `{∀ x, Decision (P x)} (l : list A) :
  filter P l = [] ↔ ∀ x, x ∈ l → ¬ P x.
Proof.
  induction l as [|x l IH]; [split; [intros _ y Hy; inversion Hy|reflexivity]|].
  rewrite filter_cons. destruct (decide (P x)) as [Hx|Hx].
  - split; [discriminate|]. intros Hall. exfalso. apply (Hall x); [apply list_elem_of_here|exact Hx].
  - rewrite IH. split.
    + intros Hall y Hy. apply elem_of_cons in Hy as [->|Hy]; [exact Hx|apply Hall, Hy].
    + intros Hall y Hy. apply Hall, list_elem_of_further, Hy.
Qed.

(** X6.  [findSellIndex] returns the position of the first [sell] of the
    bounty, or nothing when the route has none.  When a bounty is
    completed with the board closed, the route is cut just after that
    [sell], the step cursor moves forward by the number of steps cut, and
    the display route follows; if every bounty still held has a [sell] in
    what remains, nothing else changes and no search is started.  If one
    has none, the accepted solution and the route are discarded and, no
    search being in flight, a search for the held bounties alone is
    started.  With the board open the completion changes nothing. *)
Theorem completed_bounty_advances_route :
  (∀ (bounty : string) (route : list Step),
     match findSellIndex bounty route with
     | Some k => ∃ step, route !! k = Some step ∧ isSellOf bounty step = true
                         ∧ ∀ j st, j < k → route !! j = Some st → isSellOf bounty st = false
     | None => ∀ st, st ∈ route → isSellOf bounty st = false
     end)
  ∧ (∀ (now : Z) (obs : Observation.t) (prevActiveCount currActiveCount : nat)
       (bounty loc : string) (d : float) (pre post : list Step) (s : State),
       Observation.boardOpen obs = false → bounty ≠ "" →
       steps s = pre ++ sell bounty loc d :: post →
       (∀ st, st ∈ pre → isSellOf bounty st = false) →
       let remaining := slot_values (Observation.detectedActive obs) in
       let r := handleCompletion now obs prevActiveCount currActiveCount (Some bounty) s in
       ((∀ b, b ∈ remaining → existsb (isSellOf b) post = true) →
        r = (set_displaySteps post
               (set_steps post (set_stepIdx (stepIdx s + (length pre + 1)) s)), []))
       ∧ ((∃ b, b ∈ remaining ∧ existsb (isSellOf b) post = false) →
          prevOptimalBounties r.1 = [] ∧ steps r.1 = [] ∧ displaySteps r.1 = []
          ∧ stepIdx r.1 = 0
          ∧ (inFlightFind s = None →
             r.2 = [Spawn (SearchRequest.mk remaining false
                             (makeAllBountiesSignature remaining) "sanityCheckFailed"
                             (pruningOptions s))])))
  ∧ (∀ (now : Z) (obs : Observation.t) (prevActiveCount currActiveCount : nat)
       (completedBounty : option string) (s : State),
       Observation.boardOpen obs = true →
       handleCompletion now obs prevActiveCount currActiveCount completedBounty s = (s, [])).
Proof.
  split; [exact findSellIndex_spec|]. split; [|exact handleCompletion_open].
  intros now obs prevActiveCount currActiveCount bounty loc d pre post s Hclosed Hne Hsteps Hpre
    remaining r.
  unfold r, handleCompletion. rewrite (truthy_Some _ Hne), Hclosed. simpl andb. cbv iota.
  simpl default. rewrite Hsteps, (findSellIndex_first _ _ _ _ _ Hpre).
  replace (drop (length pre + 1) (pre ++ sell bounty loc d :: post)) with post.
  2:{ rewrite (cons_middle _ pre post), app_assoc.
      rewrite drop_app_length'; [reflexivity|]. rewrite length_app. reflexivity. }
  unfold sanityCheck. fold remaining. cbv zeta.
  change (steps (set_displaySteps post
                   (set_steps post (set_stepIdx (stepIdx s + (length pre + 1)) s))))
    with post.
  split.
  - intros Hall.
    assert (filter (λ b, existsb (isSellOf b) post = false) remaining = []) as ->.
    { apply filter_nil_iff. intros b Hb. rewrite (Hall b Hb). discriminate. }
    destruct (Nat.ltb 0 (length remaining)); reflexivity.
  - intros (b & Hb & Hmiss).
    assert (Nat.ltb 0 (length remaining) = true) as ->.
    { destruct remaining; [inversion Hb|reflexivity]. }
    assert (Nat.ltb 0 (length (filter (λ b, existsb (isSellOf b) post = false) remaining))
            = true) as ->.
    { apply nonempty_ltb. intros E. apply (proj1 (filter_nil_iff _ _) E b Hb). exact Hmiss. }
    unfold launchFindBestIfNeeded.
    repeat split; try (split_ifs; reflexivity).
    intros Hnone.
    change (inFlightFind (set_stepIdx 0 (set_displaySteps [] (set_steps []
              (clearAccepted (set_displaySteps post (set_steps post
                 (set_stepIdx (stepIdx s + (length pre + 1)) s))))))))
      with (inFlightFind s).
    rewrite Hnone. reflexivity.
Qed.

Lemma completed_bounty_advances_route_witness :
  let route := [teleport "Market" 2; buy "B" "Docks" 4; sell "A" "Farm" 5;
                sell "B" "Mill" 2] in
  let s := set_steps route (set_prevOptimalBounties ["A"; "B"] initialState) in
  let obs := Observation.mk [None; Some "B"] [] (λ _, None) false in
  let lost := Observation.mk [None; Some "C"] [] (λ _, None) false in
  handleCompletion 0 obs 2 1 (Some "A") s
  = (set_displaySteps [sell "B" "Mill" 2]
       (set_steps [sell "B" "Mill" 2] (set_stepIdx 3 s)), [])
  ∧ (handleCompletion 0 lost 2 1 (Some "A") s).2
    = [Spawn (SearchRequest.mk ["C"] false "C" "sanityCheckFailed" unbounded)].
Proof.
  intros route s obs lost.
  destruct completed_bounty_advances_route as (_ & Hcut & _).
  destruct (Hcut 0%Z obs 2 1 "A" "Farm" 5%float [teleport "Market" 2; buy "B" "Docks" 4]
              [sell "B" "Mill" 2] s) as [Hok _];
    [reflexivity|discriminate|reflexivity| |].
  { intros st Hin. repeat (apply elem_of_cons in Hin as [->|Hin]; [reflexivity|]).
    inversion Hin. }
  destruct (Hcut 0%Z lost 2 1 "A" "Farm" 5%float [teleport "Market" 2; buy "B" "Docks" 4]
              [sell "B" "Mill" 2] s) as [_ Hlost];
    [reflexivity|discriminate|reflexivity| |].
  { intros st Hin. repeat (apply elem_of_cons in Hin as [->|Hin]; [reflexivity|]).
    inversion Hin. }
  split.
  - apply Hok. intros b Hb. apply list_elem_of_singleton in Hb as ->. reflexivity.
  - destruct Hlost as (_ & _ & _ & _ & Hspawn).
    + exists "C". split; [apply list_elem_of_here|reflexivity].
    + apply Hspawn. reflexivity.
Defined.

(** ** Which bounty was completed *)

Lemma elem_of_slotsHolding (bounty : string) (m : slots) (i : nat) :
  i ∈ slotsHolding bounty m ↔ slot_get m i = Some bounty.
Proof. unfold slotsHolding. rewrite elem_of_holding. apply elem_of_slot_entries. Qed.

Lemma NoDup_slotsHolding (bounty : string) (m : slots) : NoDup (slotsHolding bounty m).
Proof. apply StronglySorted_lt_NoDup, slotsHolding_sorted. Qed.

Lemma count_of_slot_values (bounty : string) (m : slots) :
  count_of bounty (slot_values m) = length (slotsHolding bounty m).
Proof. symmetry. apply length_slotsHolding. Qed.

Lemma elem_of_slot_values (m : slots) (b : string) :
  b ∈ slot_values m ↔ ∃ i, slot_get m i = Some b.
Proof.
  unfold slot_values. rewrite list_elem_of_fmap. split.
  - intros ([i b'] & -> & Hin). exists i. apply elem_of_slot_entries. exact Hin.
  - intros (i & Hi). exists (i, b). split; [reflexivity|]. apply elem_of_slot_entries. exact Hi.
Qed.

(** The count of a bounty after one slot is vacated. *)
Lemma count_of_vacated (prev detected : slots) (i : nat) (b x : string) :
  slot_get prev i = Some b →
  (∀ j, slot_get detected j = if decide (j = i) then None else slot_get prev j) →
  count_of x (slot_values prev)
  = (if decide (x = b) then 1 else 0) + count_of x (slot_values detected).
Proof.
  intros Hi Hd. rewrite !count_of_slot_values.
  destruct (decide (x = b)) as [->|Hx].
  - change (length (slotsHolding b prev) = length (i :: slotsHolding b detected)).
    apply Permutation_length, NoDup_Permutation.
    + apply NoDup_slotsHolding.
    + constructor; [|apply NoDup_slotsHolding].
      rewrite elem_of_slotsHolding, Hd. destruct (decide (i = i)); congruence.
    + intros j. rewrite elem_of_cons, !elem_of_slotsHolding, Hd.
      destruct (decide (j = i)) as [->|Hj]; [|tauto]. split; [tauto|]. intros _. exact Hi.
  - simpl. apply Permutation_length, NoDup_Permutation; try apply NoDup_slotsHolding.
    intros j. rewrite !elem_of_slotsHolding, Hd.
    destruct (decide (j = i)) as [->|Hj]; [|tauto]. split; [congruence|discriminate].
Qed.

Lemma find_unique {A : Type} (f : A → bool) (l : list A) (b : A) :
  b ∈ l → (∀ y, y ∈ l → f y = true ↔ y = b) → List.find f l = Some b.
Proof.
  induction l as [|y l IH]; intros Hb Hf; [inversion Hb|].
  simpl. destruct (f y) eqn:E.
  - f_equal. apply (Hf y); [apply list_elem_of_here|exact E].
  - apply IH.
    + apply elem_of_cons in Hb as [->|Hb]; [|exact Hb].
      exfalso. assert (f y = true) by (apply Hf; [apply list_elem_of_here|reflexivity]).
      congruence.
    + intros z Hz. apply Hf, list_elem_of_further, Hz.
Qed.

(** X7.  When the detected active table is the previous one with a single
    slot vacated, [findCompletedBounty] names the bounty that slot held,
    however many copies of it are held in other slots. *)
Theorem vacated_slot_names_completed_bounty :
  ∀ (prevActive detectedActive : slots) (i : nat) (b : string),
    slot_get prevActive i = Some b →
    (∀ j, slot_get detectedActive j
          = if decide (j = i) then None else slot_get prevActive j) →
    findCompletedBounty prevActive detectedActive = Some b
    ∧ slot_count prevActive = slot_count detectedActive + 1.
Proof.
  intros prevActive detectedActive i b Hi Hd. split.
  - unfold findCompletedBounty. apply find_unique.
    + apply elem_of_slot_values. exists i. exact Hi.
    + intros y _. rewrite (count_of_vacated prevActive detectedActive i b y Hi Hd).
      rewrite Nat.ltb_lt. destruct (decide (y = b)); split; intros; try lia; congruence.
  - unfold slot_count.
    assert (slot_keys prevActive ≡ₚ i :: slot_keys detectedActive) as HP.
    { apply NoDup_Permutation.
      - apply StronglySorted_lt_NoDup, slot_keys_sorted.
      - constructor; [|apply StronglySorted_lt_NoDup, slot_keys_sorted].
        rewrite elem_of_slot_keys, slot_has_get. intros [x Hx]. rewrite Hd in Hx.
        destruct (decide (i = i)); congruence.
      - intros j. rewrite elem_of_cons, !elem_of_slot_keys, !slot_has_get.
        split.
        + intros [x Hx]. destruct (decide (j = i)) as [->|Hj]; [left; reflexivity|].
          right. exists x. rewrite Hd. destruct (decide (j = i)); congruence.
        + intros [->|[x Hx]]; [exists b; exact Hi|]. exists x. rewrite Hd in Hx.
          destruct (decide (j = i)); congruence. }
    apply Permutation_length in HP. unfold slot_keys in HP.
    cbn [length] in HP. rewrite !length_fmap in HP. lia.
Qed.

Lemma vacated_slot_names_completed_bounty_witness :
  findCompletedBounty [Some "A"; Some "B"; Some "A"] [Some "A"; Some "B"] = Some "A"
  ∧ slot_count [Some "A"; Some "B"; Some "A"] = slot_count [Some "A"; Some "B"] + 1.
Proof.
  apply (vacated_slot_names_completed_bounty
           [Some "A"; Some "B"; Some "A"] [Some "A"; Some "B"] 2 "A"); [reflexivity|].
  intros [|[|[|j]]]; reflexivity.
Defined.

(** ** The periodic consistency check *)

Lemma existsb_count (activeBountyList : list string) (route : list Step) :
  existsb (λ bounty, Nat.ltb (length (filter (λ st, isSellOf bounty st = true) route))
                             (count_of bounty activeBountyList)) activeBountyList = true
  ↔ ∃ b, length (filter (λ st, isSellOf b st = true) route) < count_of b activeBountyList.
Proof.
  rewrite existsb_exists. split.
  - intros (b & _ & H). exists b. apply Nat.ltb_lt. exact H.
  - intros (b & H). exists b. split; [|apply Nat.ltb_lt; exact H].
    apply list_elem_of_In. unfold count_of in H.
    destruct (filter (λ x, x = b) activeBountyList) as [|y l] eqn:E; [simpl in H; lia|].
    assert (y ∈ filter (λ x, x = b) activeBountyList) as Hy by (rewrite E; apply list_elem_of_here).
    apply list_elem_of_filter in Hy as [-> Hy]. exact Hy.
Qed.

Lemma launch_idle (now : Z) (allBounties : list string) (boardOpen : bool)
    (signature reason : string) (s : State) :
  inFlightFind s = None →
  launchFindBestIfNeeded now allBounties boardOpen signature reason s
  = startFindBest now allBounties boardOpen signature reason s.
Proof. intros H. unfold launchFindBestIfNeeded. rewrite H. reflexivity. Qed.

(** X8.  The consistency check runs at most once in 30 seconds: a call
    sooner after the last one changes nothing.  A call that runs stamps
    its time, also when it then skips the test because the board is open,
    nothing is held, a search is in flight or the route is empty, or when
    every held bounty has at least as many [sell] steps as copies.  With
    the board closed, no search in flight and a route, a held bounty with
    fewer [sell] steps than copies discards the accepted solution and the
    route and starts a search for the held bounties alone. *)
Theorem consistency_check_throttled :
  ∀ (now : Z) (activeBounties : slots) (boardOpen : bool) (s : State),
    let held := slot_values activeBounties in
    let sells := λ b, length (filter (λ st, isSellOf b st = true) (steps s)) in
    let r := checkStepsConsistency now activeBounties boardOpen s in
    ((now - lastConsistencyCheck s < consistencyCheckIntervalMs)%Z → r = (s, []))
    ∧ ((consistencyCheckIntervalMs ≤ now - lastConsistencyCheck s)%Z →
       lastConsistencyCheck r.1 = now
       ∧ (boardOpen = true ∨ held = [] ∨ is_Some (inFlightFind s) ∨ steps s = []
          ∨ (∀ b, count_of b held ≤ sells b) →
          r = (set_lastConsistencyCheck now s, []))
       ∧ (boardOpen = false → inFlightFind s = None → steps s ≠ [] →
          (∃ b, sells b < count_of b held) →
          prevOptimalBounties r.1 = [] ∧ steps r.1 = [] ∧ displaySteps r.1 = []
          ∧ stepIdx r.1 = 0
          ∧ inFlightFind r.1 = Some (InFlightFind.mk (makeAllBountiesSignature held) now)
          ∧ r.2 = [Spawn (SearchRequest.mk held false (makeAllBountiesSignature held)
                            "consistencyFix" (pruningOptions s))])).
Proof.
  intros now activeBounties boardOpen s held sells r. unfold r, checkStepsConsistency.
  fold held. split.
  - intros H. destruct (Z.ltb_spec (now - lastConsistencyCheck s) consistencyCheckIntervalMs);
      [reflexivity|lia].
  - intros H.
    destruct (Z.ltb_spec (now - lastConsistencyCheck s) consistencyCheckIntervalMs) as [|_];
      [lia|].
    cbv zeta.
    change (steps (set_lastConsistencyCheck now s)) with (steps s).
    change (inFlightFind (set_lastConsistencyCheck now s)) with (inFlightFind s).
    pose proof (existsb_count held (steps s)) as Hex.
    split; [|split].
    + unfold launchFindBestIfNeeded. split_ifs; project; reflexivity.
    + intros Hskip. destruct boardOpen; [reflexivity|].
      destruct (Nat.eqb_spec (length held) 0) as [|Hne]; [reflexivity|].
      destruct (inFlightFind s) as [f|] eqn:Ef; [reflexivity|].
      rewrite bool_decide_eq_false_2 by (intros [? ?]; discriminate).
      destruct (Nat.eqb_spec (length (steps s)) 0) as [|Hs]; [reflexivity|].
      destruct (existsb _ held) eqn:E; [|reflexivity]. exfalso.
      destruct (proj1 Hex eq_refl) as (b & Hb).
      destruct Hskip as [?|[Hh|[[? ?]|[Hr|Hall]]]]; try discriminate.
      * rewrite Hh in Hne. apply Hne. reflexivity.
      * rewrite Hr in Hs. apply Hs. reflexivity.
      * specialize (Hall b). unfold sells in Hall. lia.
    + intros -> Hnone Hsteps Hbad.
      assert (Nat.eqb (length held) 0 = false) as ->.
      { apply Nat.eqb_neq. destruct Hbad as (b & Hb). intros E.
        apply length_zero_iff_nil in E. rewrite E in Hb.
        change (count_of b []) with 0 in Hb. lia. }
      rewrite Hnone. rewrite bool_decide_eq_false_2 by (intros [? ?]; discriminate).
      assert (Nat.eqb (length (steps s)) 0 = false) as ->.
      { apply Nat.eqb_neq. intros E. apply length_zero_iff_nil in E. congruence. }
      rewrite (proj2 Hex Hbad).
      rewrite launch_idle by exact Hnone. unfold startFindBest.
      split; [reflexivity|]. split; [reflexivity|]. split; [reflexivity|].
      split; [reflexivity|]. split; reflexivity.
Qed.

Lemma consistency_check_throttled_witness :
  let s := set_steps [sell "A" "Farm" 5] (set_prevOptimalBounties ["A"; "B"] initialState) in
  let held : slots := [Some "A"; Some "B"] in
  checkStepsConsistency 29999 held false s = (s, [])
  ∧ checkStepsConsistency 30000 held true s = (set_lastConsistencyCheck 30000 s, [])
  ∧ (checkStepsConsistency 30000 held false s).2
    = [Spawn (SearchRequest.mk ["A"; "B"] false "A|B" "consistencyFix" unbounded)].
Proof.
  intros s held.
  destruct (consistency_check_throttled 29999 held false s) as [Hsoon _].
  destruct (consistency_check_throttled 30000 held true s) as [_ Hopen].
  destruct (consistency_check_throttled 30000 held false s) as [_ Hfix].
  split; [apply Hsoon; vm_compute; reflexivity|].
  destruct Hopen as (_ & Hskip & _); [vm_compute; discriminate|].
  destruct Hfix as (_ & _ & Hbad); [vm_compute; discriminate|].
  split; [apply Hskip; left; reflexivity|].
  apply Hbad; [reflexivity|reflexivity|discriminate|].
  exists "B". vm_compute. lia.
Defined.


(** ** The tick: what it does to the accepted solution and to the search *)

Lemma keptOrCleared_refl (s : State) : keptOrCleared s s.
Proof. left. reflexivity. Qed.

Lemma keptOrCleared_trans (s s' s'' : State) :
  keptOrCleared s s' → keptOrCleared s' s'' → keptOrCleared s s''.
Proof. unfold keptOrCleared. intros [H1|H1] [H2|H2]; rewrite ?H2, ?H1; auto. Qed.

Lemma keptOrCleared_launch (now : Z) (allBounties : list string) (boardOpen : bool)
    (signature reason : string) (s : State) :
  keptOrCleared s (launchFindBestIfNeeded now allBounties boardOpen signature reason s).1.
Proof. left. apply optimal_launch. Qed.

Lemma advances_refl (s : State) : advances s s.
Proof. unfold advances. auto. Qed.

Lemma advances_trans (s s' s'' : State) : advances s s' → advances s' s'' → advances s s''.
Proof.
  unfold advances. intros ([C1 F1] & L1 & I1 & B1) ([C2 F2] & L2 & I2 & B2).
  split; [split; congruence|]. split; [auto|]. split; [auto|].
  intros H. destruct (B2 H) as [H'|H']; [|auto]. destruct (B1 H'); auto.
Qed.

Lemma advances_launch (now : Z) (allBounties : list string) (boardOpen : bool)
    (signature reason : string) (s : State) :
  advances s (launchFindBestIfNeeded now allBounties boardOpen signature reason s).1.
Proof.
  unfold launchFindBestIfNeeded.
  destruct (inFlightFind s) as [f|] eqn:E.
  - destruct (String.eqb _ _); [apply advances_refl|].
    destruct (Z.ltb _ _); [|apply advances_refl].
    unfold advances. cbn. rewrite E. repeat split; eauto.
  - unfold advances. cbn. rewrite E. repeat split; eauto.
Qed.

(** A step that assigns fields other than the accepted bounties and the
    three search fields. *)
Ltac same_search :=
  first [ apply advances_refl
        | unfold advances; split; [split; reflexivity|]; split; [exact (λ H, H)|];
          split; [exact (λ H, H)|]; let H := fresh in intros H; left; exact H ].

Lemma advances_clear_launch (now : Z) (allBounties : list string) (boardOpen : bool)
    (signature reason : string) (s s0 : State) :
  advances s s0 →
  advances s (launchFindBestIfNeeded now allBounties boardOpen signature reason s0).1.
Proof. intros H. eapply advances_trans; [exact H|apply advances_launch]. Qed.

Lemma keptOrCleared_then_launch (now : Z) (allBounties : list string) (boardOpen : bool)
    (signature reason : string) (s s0 : State) :
  keptOrCleared s s0 →
  keptOrCleared s (launchFindBestIfNeeded now allBounties boardOpen signature reason s0).1.
Proof. intros H. eapply keptOrCleared_trans; [exact H|apply keptOrCleared_launch]. Qed.

Lemma step_boardClosedRecalc (now : Z) (boardTransition boardOpen : bool)
    (detectedActive : slots) (s : State) :
  let s' := (boardClosedRecalc now boardTransition boardOpen detectedActive s).1 in
  advances s s'
  ∧ (prevOptimalBounties s' = prevOptimalBounties s
     ∨ (boardOpen = false ∧ slot_values detectedActive ≠ [] ∧ prevOptimalBounties s' = [])).
Proof.
  unfold boardClosedRecalc.
  destruct boardTransition, boardOpen, (prevBoardOpenSignature s); simpl;
    try (split; [apply advances_refl|left; reflexivity]).
  destruct (slot_values detectedActive) as [|b l] eqn:E; simpl;
    [split; [apply advances_refl|left; reflexivity]|].
  destruct (negb _); [|split; [apply advances_refl|left; reflexivity]].
  split.
  - apply advances_clear_launch. same_search.
  - right. split; [reflexivity|]. split; [discriminate|]. rewrite optimal_launch. reflexivity.
Qed.

Lemma step_recomputeIfNeeded (now : Z) (obs : Observation.t) (firstRun boardTransition
    signatureChanged : bool) (allBounties : list string) (signature : string)
    (updatedBoard : slots) (s : State) :
  advances s (recomputeIfNeeded now obs firstRun boardTransition signatureChanged
                allBounties signature updatedBoard s).1.
Proof.
  unfold recomputeIfNeeded. cbv zeta.
  destruct (shouldRecompute _ _ _ _ _ _ _ _ _ _); [|apply advances_refl].
  apply advances_clear_launch. destruct (firstRun || boardTransition); same_search.
Qed.

Lemma step_schedule_if (c : bool) (s : State) :
  advances s (if c then scheduleAdjustmentRecalculation s else (s, [])).1.
Proof. destruct c; same_search. Qed.

Lemma step_sanityCheck (now : Z) (detectedActive : slots) (s : State) :
  let s' := (sanityCheck now detectedActive s).1 in
  advances s s' ∧ keptOrCleared s s'.
Proof.
  unfold sanityCheck. cbv zeta.
  destruct (Nat.ltb 0 (length (slot_values detectedActive)));
    [|split; [apply advances_refl|apply keptOrCleared_refl]].
  destruct (Nat.ltb 0 _); [|split; [apply advances_refl|apply keptOrCleared_refl]].
  split.
  - apply advances_clear_launch. same_search.
  - apply keptOrCleared_then_launch. right. reflexivity.
Qed.

Lemma step_handleCompletion (now : Z) (obs : Observation.t) (prevActiveCount
    currActiveCount : nat) (completedBounty : option string) (s : State) :
  let s' := (handleCompletion now obs prevActiveCount currActiveCount completedBounty s).1 in
  advances s s' ∧ keptOrCleared s s'.
Proof.
  unfold handleCompletion.
  destruct (truthy _ && negb _); [|split; [apply advances_refl|apply keptOrCleared_refl]].
  match goal with |- context [sanityCheck ?a ?b ?c] =>
    destruct (step_sanityCheck a b c) as [HA HK] end.
  split.
  - eapply advances_trans; [|exact HA]. destruct (findSellIndex _ _); same_search.
  - eapply keptOrCleared_trans; [|exact HK]. destruct (findSellIndex _ _); left; reflexivity.
Qed.

Lemma step_handleAllCompleted (prevActiveCount currActiveCount : nat)
    (completedBounty : option string) (s : State) :
  let s' := handleAllCompleted prevActiveCount currActiveCount completedBounty s in
  advances s s' ∧ keptOrCleared s s'.
Proof.
  unfold handleAllCompleted. destruct (_ && _).
  - split; [same_search|right; reflexivity].
  - split; [apply advances_refl|apply keptOrCleared_refl].
Qed.

Lemma step_checkStepsConsistency (now : Z) (activeBounties : slots) (boardOpen : bool)
    (s : State) :
  let s' := (checkStepsConsistency now activeBounties boardOpen s).1 in
  advances s s' ∧ keptOrCleared s s'.
Proof.
  unfold checkStepsConsistency. cbv zeta.
  destruct (Z.ltb _ _); [split; [apply advances_refl|apply keptOrCleared_refl]|].
  destruct boardOpen; [split; [same_search|left; reflexivity]|].
  destruct (Nat.eqb _ 0); [split; [same_search|left; reflexivity]|].
  destruct (bool_decide _); [split; [same_search|left; reflexivity]|].
  destruct (Nat.eqb _ 0); [split; [same_search|left; reflexivity]|].
  destruct (existsb _ _); [|split; [same_search|left; reflexivity]].
  split.
  - apply advances_clear_launch. same_search.
  - apply keptOrCleared_then_launch. right. reflexivity.
Qed.

Lemma step_withOptimal (now : Z) (obs : Observation.t) (updatedBoard : slots) (s : State) :
  let s' := (withOptimal now obs updatedBoard s).1 in
  advances s s' ∧ keptOrCleared s s'.
Proof.
  unfold withOptimal. cbv zeta. rewrite !fst_andThen.
  match goal with |- context [checkStepsConsistency ?a ?b ?c ?S] =>
    destruct (step_checkStepsConsistency a b c S) as [HA4 HK4];
    set (S4 := (checkStepsConsistency a b c S).1) in * end.
  match goal with H : advances (set_boardPickups _ (set_prevActiveBounties _
                        (set_boardBounties _ (set_activeBounties _ ?S)))) _ |- _ =>
    assert (advances S S4) as HA3
      by (eapply advances_trans; [|exact HA4]; same_search);
    assert (keptOrCleared S S4) as HK3
      by (eapply keptOrCleared_trans; [|exact HK4]; left; reflexivity);
    clear HA4 HK4 end.
  match goal with H : advances (handleAllCompleted ?a ?b ?c ?S) _ |- _ =>
    destruct (step_handleAllCompleted a b c S) as [HA2 HK2];
    pose proof (advances_trans _ _ _ HA2 HA3) as HA2';
    pose proof (keptOrCleared_trans _ _ _ HK2 HK3) as HK2';
    clear HA2 HK2 HA3 HK3 end.
  match goal with H : advances (handleCompletion ?a ?b ?c ?d ?e ?S).1 _ |- _ =>
    destruct (step_handleCompletion a b c d e S) as [HA1 HK1];
    pose proof (advances_trans _ _ _ HA1 HA2') as HA1';
    pose proof (keptOrCleared_trans _ _ _ HK1 HK2') as HK1';
    clear HA1 HK1 HA2' HK2' end.
  split.
  - eapply advances_trans; [|exact HA1']. destruct (_ && Observation.boardOpen obs); same_search.
  - eapply keptOrCleared_trans; [|exact HK1'].
    destruct (_ && Observation.boardOpen obs); left; reflexivity.
Qed.

Lemma tick_shape (now : Z) (obs : Observation.t) (s : State) :
  ∃ s5 : State,
    frame s5 = frame (trackRecentAdds now (Observation.detectedActive obs) s)
    ∧ advances s s5
    ∧ (prevOptimalBounties s5 = prevOptimalBounties s
       ∨ (Observation.boardOpen obs = false
          ∧ slot_values (Observation.detectedActive obs) ≠ []
          ∧ prevOptimalBounties s5 = []))
    ∧ (processOCRResultsAsync now obs s).1
      = if negb (Nat.ltb 0 (length (prevOptimalBounties s5))) then
          set_prevActiveBounties (Observation.detectedActive obs)
            (set_boardBounties (Observation.detectedBoard obs)
               (set_activeBounties (Observation.detectedActive obs)
                  (set_boardPickups [] (set_activeDrops [] s5))))
        else (withOptimal now obs (updateBoard (boardBounties s) obs) s5).1.
Proof.
  unfold processOCRResultsAsync. cbv zeta. rewrite !fst_andThen.
  match goal with
  | |- context [boardClosedRecalc ?a ?b ?c ?d ?S1] =>
      pose proof (frame_boardClosedRecalc a b c d S1) as H2;
      destruct (step_boardClosedRecalc a b c d S1) as [HA2 HK2];
      set (S2 := (boardClosedRecalc a b c d S1).1) in *
  end.
  rewrite frame_resetDisplayOnOpen in H2.
  assert (boardBounties S2 = boardBounties s) as HB.
  { destruct (frame_fields _ _ H2) as (_ & -> & _). reflexivity. }
  rewrite HB.
  match goal with
  | |- context [recomputeIfNeeded ?a ?b ?c ?d ?e ?f ?g ?h ?S3] =>
      pose proof (frame_recomputeIfNeeded a b c d e f g h S3) as H4;
      pose proof (optimal_recomputeIfNeeded a b c d e f g h S3) as H4o;
      pose proof (step_recomputeIfNeeded a b c d e f g h S3) as HA4;
      set (S4 := (recomputeIfNeeded a b c d e f g h S3).1) in *
  end.
  rewrite frame_schedule_if in H4. rewrite optimal_schedule_if in H4o.
  exists (set_prevBoardOpenSignature (Observation.boardOpen obs) S4).
  split; [|split; [|split]].
  - change (frame S4 = frame (trackRecentAdds now (Observation.detectedActive obs) s)).
    congruence.
  - eapply advances_trans; [|eapply advances_trans; [exact HA2|]].
    + unfold resetDisplayOnOpen.
      match goal with |- advances _ (if ?c then _ else _) => destruct c end; same_search.
    + eapply advances_trans; [apply step_schedule_if|].
      eapply advances_trans; [exact HA4|]. same_search.
  - change (prevOptimalBounties (set_prevBoardOpenSignature (Observation.boardOpen obs) S4))
      with (prevOptimalBounties S4).
    rewrite H4o. rewrite optimal_resetDisplayOnOpen in HK2. exact HK2.
  - destruct (negb (0 <? _)); reflexivity.
Qed.

Lemma tick_final (now : Z) (obs : Observation.t) (s : State) :
  let s' := (processOCRResultsAsync now obs s).1 in
  let boardOpen := Observation.boardOpen obs in
  let detectedActive := Observation.detectedActive obs in
  let recent := recentActiveAdds (trackRecentAdds now detectedActive s) in
  let updatedActive :=
    updateActive (activeBounties s) detectedActive
      (Nat.ltb (slot_count detectedActive) (slot_count (prevActiveBounties s))) in
  let updatedBoard := updateBoard (boardBounties s) obs in
  advances s s'
  ∧ ∃ o, (o = prevOptimalBounties s
          ∨ (boardOpen = false ∧ slot_values detectedActive ≠ [] ∧ o = []))
         ∧ (prevOptimalBounties s' = o ∨ prevOptimalBounties s' = [])
         ∧ ∃ inflight,
             frame s'
             = if Nat.ltb 0 (length o) then
                 (updatedActive, updatedBoard, updatedActive, recent,
                  computeActiveDrops inflight boardOpen o recent now detectedActive,
                  computeBoardPickups boardOpen o updatedActive updatedBoard)
               else
                 (detectedActive, Observation.detectedBoard obs, detectedActive, recent,
                  [], []).
Proof.
  intros s' boardOpen detectedActive recent updatedActive updatedBoard.
  destruct (tick_shape now obs s) as (s5 & HF & HA & HK & Hs).
  destruct (frame_fields _ _ HF) as (Ha & _ & Hp & Hr & _).
  change (activeBounties s5 = activeBounties s) in Ha.
  change (prevActiveBounties s5 = prevActiveBounties s) in Hp.
  fold detectedActive in Hr. fold recent in Hr.
  unfold s'. rewrite Hs.
  destruct (Nat.ltb 0 (length (prevOptimalBounties s5))) eqn:E; simpl negb; cbv iota.
  - destruct (step_withOptimal now obs (updateBoard (boardBounties s) obs) s5) as [HA' HK'].
    split; [eapply advances_trans; eassumption|].
    exists (prevOptimalBounties s5). split; [destruct HK as [->|(? & ? & ->)]; auto|].
    split; [exact HK'|].
    exists (bool_decide (is_Some (inFlightFind s5))). rewrite E.
    rewrite frame_withOptimal, Ha, Hp, Hr. reflexivity.
  - split; [eapply advances_trans; [exact HA|same_search]|].
    exists (prevOptimalBounties s5). split; [destruct HK as [->|(? & ? & ->)]; auto|].
    split; [left; reflexivity|]. exists false. rewrite E.
    unfold frame. cbn. rewrite Hr. reflexivity.
Qed.

(** ** Stored tables after a tick *)

Lemma slot_get_set_fold (entries : list (nat * string)) :
  NoDup entries.*1 →
  ∀ (m : slots) (j : nat),
    (∀ b, (j, b) ∈ entries →
       slot_get (foldl (λ m entry, slot_set m entry.1 entry.2) m entries) j = Some b)
    ∧ (j ∉ entries.*1 →
       slot_get (foldl (λ m entry, slot_set m entry.1 entry.2) m entries) j = slot_get m j).
Proof.
  induction entries as [|[i x] entries IH]; intros Hnd m j.
  - split; [intros b Hb; inversion Hb|reflexivity].
  - rewrite fmap_cons in Hnd. apply NoDup_cons in Hnd as [Hi Hnd]. cbn [foldl fst snd].
    destruct (IH Hnd (slot_set m i x) j) as [IH1 IH2]. split.
    + intros b Hb. apply elem_of_cons in Hb as [Hb|Hb]; [|apply IH1, Hb].
      injection Hb as -> ->. rewrite IH2 by exact Hi. rewrite slot_get_set.
      destruct (decide (i = i)); congruence.
    + intros Hj. rewrite fmap_cons in Hj. apply not_elem_of_cons in Hj as [Hji Hj].
      rewrite IH2 by exact Hj. rewrite slot_get_set.
      destruct (decide (i = j)); [simpl in Hji; congruence|reflexivity].
Qed.

Lemma slot_get_updateActive (activeBounties detectedActive : slots) (countDecreased : bool)
    (j : nat) :
  slot_get (updateActive activeBounties detectedActive countDecreased) j
  = match slot_get detectedActive j with
    | Some b => Some b
    | None => if countDecreased then None else slot_get activeBounties j
    end.
Proof.
  unfold updateActive.
  pose proof (slot_get_set_fold (slot_entries detectedActive)
                (StronglySorted_lt_NoDup _ (slot_keys_sorted detectedActive))
                activeBounties j) as [H1 H2].
  assert (slot_get (foldl (λ m entry, slot_set m entry.1 entry.2) activeBounties
                      (slot_entries detectedActive)) j
          = match slot_get detectedActive j with
            | Some b => Some b
            | None => slot_get activeBounties j
            end) as Hfold.
  { destruct (slot_get detectedActive j) as [b|] eqn:E.
    - apply H1, elem_of_slot_entries, E.
    - apply H2. intros Hin. apply elem_of_slot_keys, slot_has_get in Hin as [b Hb].
      congruence. }
  destruct countDecreased; [|exact Hfold].
  rewrite slot_get_keepDetected, Hfold. unfold slot_has.
  destruct (slot_get detectedActive j); reflexivity.
Qed.

Lemma slot_get_updateBoard_undetected (boardBounties : slots) (obs : Observation.t)
    (j : nat) :
  Observation.boardOpen obs = true →
  slot_get (Observation.detectedBoard obs) j = None →
  slot_get (updateBoard boardBounties obs) j
  = if boardCountDecreased boardBounties (Observation.detectedBoard obs) then None
    else slot_get boardBounties j.
Proof.
  intros Hopen Hj. unfold updateBoard. rewrite Hopen. simpl negb. cbv iota zeta.
  pose proof (slot_get_persist_fold boardBounties (Observation.boardMatchType obs)
                (slot_entries (Observation.detectedBoard obs))
                (StronglySorted_lt_NoDup _ (slot_keys_sorted _)) boardBounties j)
    as [_ H2].
  assert (j ∉ (slot_entries (Observation.detectedBoard obs)).*1) as Hnot.
  { intros Hin. apply elem_of_slot_keys, slot_has_get in Hin as [b Hb]. congruence. }
  destruct (boardCountDecreased _ _); [|apply H2, Hnot].
  rewrite slot_get_keepDetected. unfold slot_has. rewrite Hj. reflexivity.
Qed.

(** X9.  After a tick with the board open and an accepted solution, a
    slot that is detected holds the detected bounty in the stored active
    table; a slot that is not detected keeps its stored bounty, in the
    active and in the board table alike, unless fewer slots were detected
    than were stored, in which case every undetected slot is emptied.
    The table of previous active bounties equals the stored one. *)
Theorem undetected_slots_persist_until_count_drops :
  ∀ (now : Z) (obs : Observation.t) (s : State) (j : nat),
    Observation.boardOpen obs = true → prevOptimalBounties s ≠ [] →
    let s' := (processOCRResultsAsync now obs s).1 in
    let detectedActive := Observation.detectedActive obs in
    let detectedBoard := Observation.detectedBoard obs in
    let activeDropped :=
      Nat.ltb (slot_count detectedActive) (slot_count (prevActiveBounties s)) in
    let boardDropped := boardCountDecreased (boardBounties s) detectedBoard in
    slot_get (activeBounties s') j
    = match slot_get detectedActive j with
      | Some b => Some b
      | None => if activeDropped then None else slot_get (activeBounties s) j
      end
    ∧ (slot_get detectedBoard j = None →
       slot_get (boardBounties s') j
       = if boardDropped then None else slot_get (boardBounties s) j)
    ∧ prevActiveBounties s' = activeBounties s'.
Proof.
  intros now obs s j Hopen Hopt s' detectedActive detectedBoard activeDropped boardDropped.
  pose proof (tick_frame_open now obs s Hopen Hopt) as HF. cbv zeta in HF.
  apply frame_eq_tuple in HF as (Ha & Hb & Hp & _). fold s' in Ha, Hb, Hp.
  split; [rewrite Ha; apply slot_get_updateActive|].
  split; [|rewrite Hp, Ha; reflexivity].
  intros Hj. rewrite Hb. apply slot_get_updateBoard_undetected; assumption.
Qed.

Lemma undetected_slots_persist_until_count_drops_witness :
  let missed := snapshot [Some "A"; None; Some "B"] [None; Some "A"; Some "C"] (Some exact) in
  let s := set_activeBounties [Some "A"; Some "B"]
             (set_prevActiveBounties [Some "A"; Some "B"] pickupExampleState) in
  let s' := (processOCRResultsAsync 5000 missed s).1 in
  slot_get (activeBounties s') 1 = Some "B"
  ∧ slot_get (activeBounties s') 2 = Some "B"
  ∧ slot_get (boardBounties s') 0 = None
  ∧ prevActiveBounties s' = activeBounties s'.
Proof.
  intros missed s s'.
  destruct (undetected_slots_persist_until_count_drops 5000 missed s 1) as (H1 & _ & Hp);
    [reflexivity|discriminate|].
  destruct (undetected_slots_persist_until_count_drops 5000 missed s 2) as (H2 & _ & _);
    [reflexivity|discriminate|].
  destruct (undetected_slots_persist_until_count_drops 5000 missed s 0) as (_ & H0 & _);
    [reflexivity|discriminate|].
  split; [exact H1|]. split; [exact H2|]. split; [apply H0; reflexivity|exact Hp].
Defined.

(** ** The grace window *)

Lemma lookup_foldl_insert (v : Z) (added : list nat) :
  ∀ (m : gmap nat Z) (idx : nat),
    foldl (λ m idx, <[idx := v]> m) m added !! idx
    = if decide (idx ∈ added) then Some v else m !! idx.
Proof.
  induction added as [|a added IH]; intros m idx.
  - simpl. destruct (decide (idx ∈ [])) as [H|_]; [inversion H|reflexivity].
  - simpl. rewrite IH. destruct (decide (idx ∈ added)) as [H|H].
    + rewrite decide_True by (apply list_elem_of_further, H). reflexivity.
    + destruct (decide (idx = a)) as [->|Hne].
      * rewrite lookup_insert_eq, decide_True by apply list_elem_of_here. reflexivity.
      * rewrite lookup_insert_ne by congruence.
        rewrite decide_False; [reflexivity|].
        intros Hin. apply elem_of_cons in Hin as [?|?]; congruence.
Qed.

Lemma lookup_trackRecentAdds (now : Z) (detectedActive : slots) (s : State) (idx : nat) :
  recentActiveAdds (trackRecentAdds now detectedActive s) !! idx
  = let candidate :=
      if slot_has detectedActive idx && negb (slot_has (prevActiveBounties s) idx)
      then Some (now + dropGraceMs s)%Z
      else recentActiveAdds s !! idx in
    match candidate with
    | Some e => if Z.ltb now e && slot_has detectedActive idx then Some e else None
    | None => None
    end.
Proof.
  unfold trackRecentAdds. cbv zeta.
  change (recentActiveAdds (set_recentActiveAdds ?m s)) with m.
  rewrite map_lookup_filter, lookup_foldl_insert.
  assert ((idx ∈ filter (λ idx, idx ∉ slot_keys (prevActiveBounties s))
                    (slot_keys detectedActive))
          ↔ slot_has detectedActive idx && negb (slot_has (prevActiveBounties s) idx) = true)
    as Hadded.
  { rewrite list_elem_of_filter, !elem_of_slot_keys, andb_true_iff, negb_true_iff.
    destruct (slot_has (prevActiveBounties s) idx); split; intros [? ?]; split;
      congruence. }
  assert (∀ e : Z, guard ((now < (idx, e).2)%Z ∧ slot_has detectedActive (idx, e).1 = true)
                   ≫= (λ _, Some e)
                   = if Z.ltb now e && slot_has detectedActive idx then Some e else None)
    as Hguard.
  { intros e. rewrite option_guard_bool_decide. cbn [fst snd].
    destruct (Z.ltb_spec now e), (slot_has detectedActive idx); simpl.
    - rewrite bool_decide_eq_true_2 by (split; [assumption|reflexivity]). reflexivity.
    - rewrite bool_decide_eq_false_2 by (intros [_ ?]; discriminate). reflexivity.
    - rewrite bool_decide_eq_false_2 by (intros [? _]; lia). reflexivity.
    - rewrite bool_decide_eq_false_2 by (intros [? _]; lia). reflexivity. }
  destruct (decide _) as [Hin|Hin].
  - rewrite (proj1 Hadded Hin). simpl. apply Hguard.
  - assert (slot_has detectedActive idx && negb (slot_has (prevActiveBounties s) idx) = false)
      as -> by (destruct (_ && _); [exfalso; apply Hin, Hadded; reflexivity|reflexivity]).
    destruct (recentActiveAdds s !! idx) as [e|]; simpl; [apply Hguard|reflexivity].
Qed.

Lemma recent_tick (now : Z) (obs : Observation.t) (s : State) :
  recentActiveAdds (processOCRResultsAsync now obs s).1
  = recentActiveAdds (trackRecentAdds now (Observation.detectedActive obs) s).
Proof.
  destruct (tick_final now obs s) as (_ & o & _ & _ & inflight & HF).
  destruct (Nat.ltb 0 (length o)); apply frame_eq_tuple in HF as (_ & _ & _ & Hr & _);
    exact Hr.
Qed.

(** X10.  After a tick every slot in the grace table is a detected slot
    whose window has not run out.  A slot that has just become occupied
    is in grace for [dropGraceMs] when that is positive (the clock reads
    a time not before the epoch); with
    [dropGraceMs] zero or less, as the application sets it, a table whose
    windows have run out is empty after the tick and no slot is in
    grace. *)
Theorem grace_window_tracks_new_slots :
  ∀ (now : Z) (obs : Observation.t) (s : State),
    let detectedActive := Observation.detectedActive obs in
    let recent := recentActiveAdds (processOCRResultsAsync now obs s).1 in
    (∀ idx e, recent !! idx = Some e →
              (now < e)%Z ∧ slot_has detectedActive idx = true)
    ∧ (∀ idx, slot_has detectedActive idx = true →
              slot_has (prevActiveBounties s) idx = false → (0 < dropGraceMs s)%Z →
              recent !! idx = Some (now + dropGraceMs s)%Z
              ∧ ((0 ≤ now)%Z → inGrace recent now idx = true))
    ∧ ((dropGraceMs s ≤ 0)%Z →
       (∀ idx e, recentActiveAdds s !! idx = Some e → (e ≤ now)%Z) →
       recent = ∅ ∧ ∀ idx, inGrace recent now idx = false).
Proof.
  intros now obs s detectedActive recent.
  assert (∀ idx, recent !! idx
                 = let candidate :=
                     if slot_has detectedActive idx
                        && negb (slot_has (prevActiveBounties s) idx)
                     then Some (now + dropGraceMs s)%Z
                     else recentActiveAdds s !! idx in
                   match candidate with
                   | Some e => if Z.ltb now e && slot_has detectedActive idx
                               then Some e else None
                   | None => None
                   end) as HL.
  { intros idx. unfold recent. rewrite recent_tick. apply lookup_trackRecentAdds. }
  split; [|split].
  - intros idx e He. rewrite HL in He. cbv zeta in He.
    destruct (if _ && negb _ then _ else _) as [e'|]; [|discriminate].
    destruct (Z.ltb_spec now e'); [|discriminate].
    destruct (slot_has detectedActive idx); [|discriminate].
    injection He as <-. split; [assumption|reflexivity].
  - intros idx Hd Hp Hg.
    assert (recent !! idx = Some (now + dropGraceMs s)%Z) as Hr.
    { rewrite HL, Hd, Hp. simpl.
      destruct (Z.ltb_spec now (now + dropGraceMs s)); [reflexivity|lia]. }
    split; [exact Hr|]. intros Hnow. unfold inGrace. rewrite Hr.
    apply andb_true_iff. split; [apply negb_true_iff, Z.eqb_neq|apply Z.ltb_lt]; lia.
  - intros Hg Hold.
    assert (∀ idx, recent !! idx = None) as Hnone.
    { intros idx. rewrite HL. cbv zeta.
      destruct (_ && negb _).
      - destruct (Z.ltb_spec now (now + dropGraceMs s)); [lia|reflexivity].
      - destruct (recentActiveAdds s !! idx) as [e|] eqn:E; [|reflexivity].
        specialize (Hold idx e E). destruct (Z.ltb_spec now e); [lia|reflexivity]. }
    split; [apply map_eq; intros idx; rewrite Hnone, lookup_empty; reflexivity|].
    intros idx. unfold inGrace. rewrite Hnone. reflexivity.
Qed.

Lemma grace_window_tracks_new_slots_witness :
  let obs := snapshot [Some "A"; Some "B"] [] None in
  let s := set_prevActiveBounties [Some "A"] initialState in
  let shipped := construct (OCRProcessorOptions.mk (Some 60000%Z) (Some 0%Z) None) in
  let recent := recentActiveAdds (processOCRResultsAsync 1000 obs s).1 in
  (recent !! 1 = Some 3000%Z ∧ inGrace recent 1000 1 = true)
  ∧ recentActiveAdds (processOCRResultsAsync 1000 obs shipped).1 = ∅.
Proof.
  intros obs s shipped recent.
  destruct (grace_window_tracks_new_slots 1000 obs s) as (_ & Hnew & _).
  destruct (grace_window_tracks_new_slots 1000 obs shipped) as (_ & _ & Hzero).
  split.
  - destruct (Hnew 1) as [Hr Hg]; [reflexivity|reflexivity|vm_compute; reflexivity|].
    split; [exact Hr|apply Hg; lia].
  - apply Hzero; [vm_compute; discriminate|]. intros idx e He.
    change (recentActiveAdds shipped) with (∅ : gmap nat Z) in He.
    rewrite lookup_empty in He. discriminate.
Defined.

(** X11.  A tick that starts without an accepted solution shows no
    indicator and stores what it detected as it is: both indicator lists
    are empty, the stored active and board tables and the table of
    previous active bounties are the detected ones, and there is still no
    accepted solution, whether the board is open or closed. *)
Theorem no_indicators_without_solution :
  ∀ (now : Z) (obs : Observation.t) (s : State),
    prevOptimalBounties s = [] →
    let s' := (processOCRResultsAsync now obs s).1 in
    activeDrops s' = [] ∧ boardPickups s' = []
    ∧ activeBounties s' = Observation.detectedActive obs
    ∧ boardBounties s' = Observation.detectedBoard obs
    ∧ prevActiveBounties s' = Observation.detectedActive obs
    ∧ prevOptimalBounties s' = [].
Proof.
  intros now obs s Hnone s'.
  destruct (tick_final now obs s) as (_ & o & Ho & Hk & inflight & HF). fold s' in Hk, HF.
  assert (o = []) as -> by (destruct Ho as [->|(_ & _ & ->)]; [exact Hnone|reflexivity]).
  simpl in HF. apply frame_eq_tuple in HF as (Ha & Hb & Hp & _ & Hd & Hk').
  repeat split; try assumption. destruct Hk; assumption.
Qed.

Lemma no_indicators_without_solution_witness :
  let obs := snapshot [Some "A"; Some "B"] [Some "C"] (Some fuzzy) in
  let s' := (processOCRResultsAsync 1000 obs waitingState).1 in
  activeDrops s' = [] ∧ boardPickups s' = []
  ∧ activeBounties s' = [Some "A"; Some "B"]
  ∧ boardBounties s' = [Some "C"]
  ∧ prevActiveBounties s' = [Some "A"; Some "B"]
  ∧ prevOptimalBounties s' = [].
Proof.
  intros obs s'. apply (no_indicators_without_solution 1000 obs waitingState). reflexivity.
Defined.

(** ** The status the overlay shows *)

Lemma nil_of_no_elem {A : Type} (l : list A) : (∀ x, x ∉ l) → l = [].
Proof. destruct l as [|x l]; [reflexivity|]. intros H. exfalso. apply (H x), list_elem_of_here. Qed.

Lemma computeActiveDrops_no_excess (recomputeInFlight boardOpen : bool)
    (optimalBounties : list string) (recent : gmap nat Z) (now : Z)
    (detectedActive : slots) :
  (∀ b, count_of b (slot_values detectedActive) ≤ count_of b optimalBounties) →
  computeActiveDrops recomputeInFlight boardOpen optimalBounties recent now detectedActive
  = [].
Proof.
  intros Hle. destruct recomputeInFlight; [reflexivity|].
  destruct boardOpen; [|reflexivity].
  apply nil_of_no_elem. intros idx Hin.
  apply elem_of_computeActiveDrops in Hin as (b & Hin & _).
  unfold lowestExcess in Hin. rewrite length_slotsHolding in Hin.
  replace (count_of b (slot_values detectedActive) - count_of b optimalBounties) with 0 in Hin
    by (specialize (Hle b); lia).
  rewrite take_0 in Hin. inversion Hin.
Qed.

Lemma computeBoardPickups_no_room (boardOpen : bool) (optimalBounties : list string)
    (updatedActive updatedBoard : slots) :
  (∀ b, count_of b optimalBounties ≤ count_of b (slot_values updatedActive)) →
  computeBoardPickups boardOpen optimalBounties updatedActive updatedBoard = [].
Proof.
  intros Hle. destruct boardOpen; [|reflexivity].
  apply nil_of_no_elem. intros idx Hin.
  apply computeBoardPickups_spec in Hin as (b & _ & _ & Hlt).
  specialize (Hle b). lia.
Qed.

Lemma count_of_le (b : string) (m m' : slots) :
  (∀ j, slot_get m j = Some b → slot_get m' j = Some b) →
  count_of b (slot_values m) ≤ count_of b (slot_values m').
Proof.
  intros H. rewrite <- !length_slotsHolding. apply submseteq_length, NoDup_submseteq.
  - apply StronglySorted_lt_NoDup, slotsHolding_sorted.
  - intros j. unfold slotsHolding. rewrite !elem_of_holding, !elem_of_slot_entries. apply H.
Qed.

Lemma status_optimal (s : State) :
  status s = Status.optimal ↔
  inFlightFind s = None ∧ prevOptimalBounties s ≠ []
  ∧ sortedJoinComma (slot_values (activeBounties s)) = sortedJoinComma (prevOptimalBounties s).
Proof.
  unfold status. destruct (inFlightFind s) as [f|].
  - rewrite bool_decide_eq_true_2 by eauto. split; [discriminate|intros [? _]; discriminate].
  - rewrite bool_decide_eq_false_2 by (intros [? ?]; discriminate).
    destruct (prevOptimalBounties s) as [|x l] eqn:E.
    + simpl. split; [discriminate|intros (_ & H & _); congruence].
    + cbn [length Nat.ltb Nat.leb]. cbv zeta.
      destruct (String.eqb_spec (sortedJoinComma (slot_values (activeBounties s)))
                  (sortedJoinComma (x :: l))) as [Heq|Hne].
      * split; [intros _; repeat split; [discriminate|exact Heq]|reflexivity].
      * split; [discriminate|intros (_ & _ & H); congruence].
Qed.

(** X12.  The overlay reports "optimal" exactly when no search is in
    flight, a solution is accepted, and the sorted, comma-joined keys of
    the stored active bounties equal those of the accepted ones; held
    bounties that are a permutation of the accepted ones give "optimal".
    For keys that are not empty and hold no comma, a state reached by a
    tick that reports "optimal" holds exactly the accepted bounties and
    shows no DROP and no ACCEPT indicator; the same when the "You have
    the optimal bounties" message is shown. *)
Theorem optimal_status_shows_no_indicator :
  (∀ s : State,
     (status s = Status.optimal ↔
      inFlightFind s = None ∧ prevOptimalBounties s ≠ []
      ∧ sortedJoinComma (slot_values (activeBounties s))
        = sortedJoinComma (prevOptimalBounties s))
     ∧ (inFlightFind s = None → prevOptimalBounties s ≠ [] →
        slot_values (activeBounties s) ≡ₚ prevOptimalBounties s →
        status s = Status.optimal)
     ∧ (shouldShowOptimalMessage s = true → status s = Status.optimal))
  ∧ (∀ (now : Z) (obs : Observation.t) (s : State),
       let s' := (processOCRResultsAsync now obs s).1 in
       Forall (validKey ","%char) (slot_values (activeBounties s')) →
       Forall (validKey ","%char) (prevOptimalBounties s') →
       status s' = Status.optimal →
       slot_values (activeBounties s') ≡ₚ prevOptimalBounties s'
       ∧ activeDrops s' = [] ∧ boardPickups s' = []).
Proof.
  split.
  - intros s. split; [apply status_optimal|]. split.
    + intros Hn Ho HP. apply status_optimal. repeat split; [exact Hn|exact Ho|].
      unfold sortedJoinComma. rewrite (sort_strings_proper _ _ HP). reflexivity.
    + unfold shouldShowOptimalMessage. intros H.
      apply andb_true_iff in H as [H _]. apply andb_true_iff in H as [_ H].
      destruct (status s); [discriminate|reflexivity|discriminate].
  - intros now obs s s' Hva Hvo Hst.
    apply status_optimal in Hst as (Hn & Ho & Hj).
    pose proof (sorted_join_Permutation ","%char _ _ Hva Hvo Hj) as HP.
    split; [exact HP|].
    destruct (tick_final now obs s) as (_ & o & _ & Hk & inflight & HF).
    fold s' in Hk, HF. destruct Hk as [Hk|Hk]; [|congruence].
    rewrite <- Hk, (nonempty_ltb _ Ho) in HF.
    apply frame_eq_tuple in HF as (Ha & _ & _ & _ & Hd & Hp).
    assert (∀ b, count_of b (slot_values (activeBounties s'))
                 = count_of b (prevOptimalBounties s')) as Hc
      by (intros b; apply count_of_Permutation, HP).
    split.
    + rewrite Hd. apply computeActiveDrops_no_excess. intros b. rewrite <- Hc, Ha.
      apply count_of_le. intros j Hj'. rewrite slot_get_updateActive, Hj'. reflexivity.
    + rewrite Hp. apply computeBoardPickups_no_room. intros b. rewrite <- Ha, Hc. lia.
Qed.

Lemma optimal_status_shows_no_indicator_witness :
  let obs := snapshot [Some "A"; Some "B"; Some "A"] [Some "C"] (Some exact) in
  let s := settledState ["A"; "A"; "B"] [Some "A"; Some "B"; Some "A"] [Some "C"] in
  let s' := (processOCRResultsAsync 5000 obs s).1 in
  status s' = Status.optimal
  ∧ slot_values (activeBounties s') ≡ₚ prevOptimalBounties s'
  ∧ activeDrops s' = [] ∧ boardPickups s' = [].
Proof.
  intros obs s s'.
  destruct optimal_status_shows_no_indicator as [Hstatus Htick].
  destruct (Hstatus s') as (_ & Hperm & _).
  assert (status s' = Status.optimal) as Hs.
  { apply Hperm; [reflexivity|discriminate|]. vm_compute.
    apply perm_skip, Permutation_swap. }
  split; [exact Hs|].
  apply (Htick 5000%Z obs s); [| |exact Hs];
    repeat (constructor; [split; [discriminate|reflexivity]|]); constructor.
Defined.

(** ** The end of a run *)

Lemma slot_values_nil (m : slots) : (∀ j, slot_get m j = None) → slot_values m = [].
Proof.
  intros H. apply nil_of_no_elem. intros b Hb.
  apply elem_of_slot_values in Hb as [j Hj]. rewrite H in Hj. discriminate.
Qed.

Lemma slot_get_of_values_nil (m : slots) (j : nat) : slot_values m = [] → slot_get m j = None.
Proof.
  intros H. destruct (slot_get m j) as [b|] eqn:E; [|reflexivity].
  assert (b ∈ slot_values m) as Hb by (apply elem_of_slot_values; eauto).
  rewrite H in Hb. inversion Hb.
Qed.

Lemma slot_count_values (m : slots) : slot_count m = length (slot_values m).
Proof. unfold slot_count, slot_values. rewrite length_fmap. reflexivity. Qed.

Lemma updateActive_nothing_detected (activeBounties detectedActive : slots) :
  slot_values detectedActive = [] →
  slot_values (updateActive activeBounties detectedActive true) = [].
Proof.
  intros H. apply slot_values_nil. intros j. rewrite slot_get_updateActive.
  rewrite (slot_get_of_values_nil _ _ H). reflexivity.
Qed.

Lemma checkStepsConsistency_nothing_held (now : Z) (activeBounties : slots)
    (boardOpen : bool) (s : State) :
  slot_values activeBounties = [] →
  (checkStepsConsistency now activeBounties boardOpen s).1 = s
  ∨ (checkStepsConsistency now activeBounties boardOpen s).1 = set_lastConsistencyCheck now s.
Proof.
  intros H. unfold checkStepsConsistency. cbv zeta. rewrite H.
  destruct (Z.ltb _ _); [left; reflexivity|]. right. destruct boardOpen; reflexivity.
Qed.

Lemma sanityCheck_nothing_held (now : Z) (detectedActive : slots) (s : State) :
  slot_values detectedActive = [] → sanityCheck now detectedActive s = (s, []).
Proof. intros H. unfold sanityCheck. rewrite H. reflexivity. Qed.

Lemma handleCompletion_none (now : Z) (obs : Observation.t) (prevActiveCount
    currActiveCount : nat) (s : State) :
  handleCompletion now obs prevActiveCount currActiveCount None s = (s, []).
Proof. reflexivity. Qed.

(** The fields a completed run leaves behind. *)
Lemma run_completed_fields (s : State) (a b : slots) (p : list nat) :
  let s' := set_boardPickups p (set_prevActiveBounties a (set_boardBounties b
              (set_activeBounties a
                 (set_runCompleted true (set_steps [] (clearAccepted s)))))) in
  runCompleted s' = true ∧ prevOptimalBounties s' = [] ∧ steps s' = []
  ∧ kp s' = 0%float ∧ activeBounties s' = a
  ∧ displaySteps s' = displaySteps s ∧ displayKp s' = displayKp s.
Proof. repeat split. Qed.

Lemma tick_with_solution_nothing_detected (now : Z) (obs : Observation.t) (s : State) :
  prevOptimalBounties s ≠ [] → slot_values (Observation.detectedActive obs) = [] →
  ∃ s5, prevActiveBounties s5 = prevActiveBounties s
        ∧ activeBounties s5 = activeBounties s
        ∧ prevOptimalBounties s5 = prevOptimalBounties s
        ∧ (processOCRResultsAsync now obs s).1
          = (withOptimal now obs (updateBoard (boardBounties s) obs) s5).1.
Proof.
  intros Ho Hd. destruct (tick_shape now obs s) as (s5 & HF & _ & HK & Hs).
  exists s5. destruct (frame_fields _ _ HF) as (Ha & _ & Hp & _).
  assert (prevOptimalBounties s5 = prevOptimalBounties s) as Ho5
    by (destruct HK as [H|(_ & H & _)]; [exact H|congruence]).
  split; [exact Hp|]. split; [exact Ha|]. split; [exact Ho5|].
  rewrite Hs, Ho5, (nonempty_ltb _ Ho). reflexivity.
Qed.

(** X13.  With an accepted solution, a tick that detects no active bounty
    where exactly one was held before marks the run completed, board open
    or closed: the accepted solution and the route are discarded and the
    stored active table is emptied.  When two or more were held before
    and none is detected, this rule does not apply: the accepted solution
    stays as it was. *)
Theorem last_bounty_completes_run :
  ∀ (now : Z) (obs : Observation.t) (s : State),
    prevOptimalBounties s ≠ [] → slot_values (Observation.detectedActive obs) = [] →
    let s' := (processOCRResultsAsync now obs s).1 in
    (∀ b, slot_values (prevActiveBounties s) = [b] → b ≠ "" →
          runCompleted s' = true ∧ prevOptimalBounties s' = [] ∧ steps s' = []
          ∧ kp s' = 0%float ∧ slot_values (activeBounties s') = [])
    ∧ (2 ≤ slot_count (prevActiveBounties s) →
       prevOptimalBounties s' = prevOptimalBounties s
       ∧ slot_values (activeBounties s') = []).
Proof.
  intros now obs s Ho Hd s'.
  destruct (tick_with_solution_nothing_detected now obs s Ho Hd)
    as (s5 & Hp & Ha & Ho5 & Hs).
  assert (slot_count (Observation.detectedActive obs) = 0) as Hc
    by (rewrite slot_count_values, Hd; reflexivity).
  unfold s'. rewrite Hs. clear Hs s'.
  unfold withOptimal. cbv zeta. rewrite !fst_andThen, Hc.
  set (S0 := set_activeDrops _ s5).
  set (S1 := (if _ && Observation.boardOpen obs
              then scheduleAdjustmentRecalculation S0 else (S0, [])).1).
  assert (prevActiveBounties S1 = prevActiveBounties s) as Hp1
    by (unfold S1; destruct (_ && Observation.boardOpen obs); exact Hp).
  assert (prevOptimalBounties S1 = prevOptimalBounties s) as Ho1
    by (unfold S1; destruct (_ && Observation.boardOpen obs); exact Ho5).
  change (prevActiveBounties S0) with (prevActiveBounties s5).
  change (activeBounties S0) with (activeBounties s5).
  rewrite Hp, Ha, Hp1.
  split.
  - intros b Hb Hne.
    assert (slot_count (prevActiveBounties s) = 1) as Hone
      by (rewrite slot_count_values, Hb; reflexivity).
    rewrite Hone. simpl (Nat.ltb 0 1 && Nat.eqb (1 - 0) 1). cbv iota.
    assert (findCompletedBounty (prevActiveBounties s) (Observation.detectedActive obs)
            = Some b) as ->.
    { unfold findCompletedBounty. rewrite Hb, Hd. simpl.
      rewrite count_of_cons, decide_True by reflexivity. reflexivity. }
    change (Nat.ltb 0 1) with true.
    set (S2 := (handleCompletion now obs 1 0 (Some b) S1).1).
    unfold handleAllCompleted. rewrite (truthy_Some _ Hne). simpl andb. cbv iota.
    set (a := updateActive (activeBounties s) (Observation.detectedActive obs) true).
    assert (slot_values a = []) as Hnil by (apply updateActive_nothing_detected, Hd).
    match goal with |- context [checkStepsConsistency now a ?bo ?S] =>
      destruct (checkStepsConsistency_nothing_held now a bo S Hnil) as [->| ->];
      destruct (run_completed_fields S2 a (updateBoard (boardBounties s) obs)
                  (computeBoardPickups bo (prevOptimalBounties S0) a
                     (updateBoard (boardBounties s) obs)))
        as (H1 & H2 & H3 & H4 & H5 & _)
    end.
    + repeat split; first [assumption|exact Hnil|rewrite H5; exact Hnil].
    + repeat split; first [assumption|exact Hnil|rewrite H5; exact Hnil].
  - intros Htwo.
    assert (Nat.ltb 0 (slot_count (prevActiveBounties s))
            && Nat.eqb (slot_count (prevActiveBounties s) - 0) 1 = false) as ->.
    { apply andb_false_iff. right. apply Nat.eqb_neq. lia. }
    assert (Nat.ltb 0 (slot_count (prevActiveBounties s)) = true) as ->
      by (apply Nat.ltb_lt; lia).
    rewrite !handleCompletion_none.
    unfold handleAllCompleted. simpl truthy. rewrite !andb_false_r. cbv iota.
    set (a := updateActive (activeBounties s) (Observation.detectedActive obs) true).
    assert (slot_values a = []) as Hnil by (apply updateActive_nothing_detected, Hd).
    match goal with |- context [checkStepsConsistency now a ?bo ?S] =>
      destruct (checkStepsConsistency_nothing_held now a bo S Hnil) as [->| ->]
    end.
    + split; [exact Ho1|exact Hnil].
    + split; [exact Ho1|exact Hnil].
Qed.

Lemma last_bounty_completes_run_witness :
  let s := settledState ["A"] [Some "A"] [] in
  let two := settledState ["A"; "B"] [Some "A"; Some "B"] [] in
  let gone := Observation.mk [] [] (λ _, None) false in
  let s' := (processOCRResultsAsync 5000 gone s).1 in
  let two' := (processOCRResultsAsync 5000 gone two).1 in
  (runCompleted s' = true ∧ prevOptimalBounties s' = [] ∧ steps s' = []
   ∧ kp s' = 0%float ∧ slot_values (activeBounties s') = [])
  ∧ prevOptimalBounties two' = ["A"; "B"].
Proof.
  intros s two gone s' two'.
  destruct (last_bounty_completes_run 5000 gone s) as [Hone _]; [discriminate|reflexivity|].
  destruct (last_bounty_completes_run 5000 gone two) as [_ Htwo];
    [discriminate|reflexivity|].
  split; [apply (Hone "A"); [reflexivity|discriminate]|].
  apply Htwo. vm_compute. lia.
Defined.


(** ** Invariants of the reachable states *)

Lemma launch_in_flight (now : Z) (allBounties : list string) (boardOpen : bool)
    (signature reason : string) (s : State) :
  is_Some (inFlightFind (launchFindBestIfNeeded now allBounties boardOpen signature reason s).1).
Proof.
  unfold launchFindBestIfNeeded. destruct (inFlightFind s) as [f|] eqn:E.
  - destruct (String.eqb _ _); [simpl; rewrite E; eauto|].
    destruct (Z.ltb _ _); [cbn; eauto|simpl; rewrite E; eauto].
  - cbn. eauto.
Qed.

Lemma advances_searchInvariant (options : OCRProcessorOptions.t) (s s' : State) :
  advances s s' → searchInvariant options s → searchInvariant options s'.
Proof.
  unfold advances, searchInvariant, configuration.
  intros ([HC HF] & HL & HI & HB) (I1 & I2 & I3 & I4).
  injection HC as HT HG HQ.
  split; [|split; [|split]].
  - intros H. destruct (HB H) as [H'|H']; auto.
  - rewrite HF. auto.
  - congruence.
  - congruence.
Qed.

Lemma advances_processScreenshot (now : Z) (mode : Mode.t) (screen : Observation.t)
    (s : State) :
  advances s (processScreenshot now mode screen s).1.
Proof.
  destruct mode; simpl; try apply tick_final.
  unfold titleOnly. destruct (xorb _ _); [|apply advances_refl].
  destruct (_ && _); same_search.
Qed.

Lemma settled_search_fields (signature : string) (outcome : SearchOutcome) (s : State) :
  let s' := onFindBestSettled signature outcome s in
  launchedAtLeastOnce s' = launchedAtLeastOnce s
  ∧ (is_Some (inFlightFind s') → is_Some (inFlightFind s))
  ∧ pathfinderTimeoutMs s' = pathfinderTimeoutMs s ∧ dropGraceMs s' = dropGraceMs s
  ∧ frame s' = frame s.
Proof.
  destruct s as [? ? ? ? ? ? ? ? ? ? rc idx ? ? ? ? inflight ? ? ? ? ? ? ? fo].
  unfold onFindBestSettled, computeFindBest, clearInFlight, applyResult, acceptResult.
  destruct outcome as [r|e].
  - destruct fo; cbn [forceOptimal set_forceOptimal];
      match goal with |- context [accepts ?S r] => destruct (accepts S r) end;
      destruct rc, idx as [|idx], (FindBestResult.actions r) as [|st acts],
        inflight as [f|];
      cbn; try destruct (String.eqb _ _); repeat split; eauto.
  - destruct inflight as [f|]; cbn; try destruct (String.eqb _ _); repeat split; eauto.
Qed.

Lemma doForce_search_fields (options : OCRProcessorOptions.t) (now : Z) (s : State) :
  searchInvariant options s →
  searchInvariant options (doForceOptimalRecalculation now s).1
  ∧ frame (doForceOptimalRecalculation now s).1 = frame s.
Proof.
  intros (I1 & I2 & I3 & I4). unfold doForceOptimalRecalculation. cbv zeta.
  destruct (Nat.ltb 0 _).
  - match goal with |- context [launchFindBestIfNeeded ?a ?b ?c ?d ?e ?S] =>
      pose proof (launch_in_flight a b c d e S) as HS;
      pose proof (advances_launch a b c d e S) as HA;
      pose proof (frame_launch a b c d e S) as HF;
      set (r := (launchFindBestIfNeeded a b c d e S).1) in *
    end.
    split; [|rewrite HF; reflexivity].
    destruct HA as ([HC HFo] & HL & HI & HB). injection HC as HT HG HQ.
    split; [|split; [|split]].
    + intros _. destruct (HB HS) as [H'|H']; [apply HL, I1, H'|exact H'].
    + intros _. exact HS.
    + rewrite HT. exact I3.
    + rewrite HG. exact I4.
  - split; [|reflexivity]. split; [exact I1|]. split; [intros H; discriminate H|].
    split; assumption.
Qed.

Lemma debounce_search_fields (now : Z) (s : State) :
  advances s (onAdjustmentDebounce now s).1
  ∧ frame (onAdjustmentDebounce now s).1 = frame s.
Proof.
  unfold onAdjustmentDebounce. cbv zeta. cbn [fst].
  destruct (Nat.ltb 0 _).
  - split.
    + eapply advances_trans; [|same_search]. apply advances_clear_launch. same_search.
    + change (frame (set_adjustmentDebounceTimer false ?S)) with (frame S).
      rewrite frame_launch. reflexivity.
  - split; [same_search|reflexivity].
Qed.

Lemma handle_searchInvariant (options : OCRProcessorOptions.t) (e : Event) (s : State) :
  searchInvariant options s → searchInvariant options (handle e s).1.
Proof.
  intros Hinv. destruct e as [now mode screen|[signature outcome|now|now|now|quality]];
    cbn [handle call fst].
  - eapply advances_searchInvariant; [apply advances_processScreenshot|exact Hinv].
  - destruct (settled_search_fields signature outcome s) as (HL & HI & HT & HG & _).
    destruct Hinv as (I1 & I2 & I3 & I4).
    split; [|split; [|split]].
    + intros H. rewrite HL. apply I1, HI, H.
    + rewrite forceOptimal_settled. discriminate.
    + congruence.
    + congruence.
  - unfold forceOptimalRecalculation. destruct (inFlightFind s) eqn:E; [exact Hinv|].
    apply doForce_search_fields, Hinv.
  - apply doForce_search_fields, Hinv.
  - eapply advances_searchInvariant; [apply debounce_search_fields|exact Hinv].
  - exact Hinv.
Qed.

Lemma run_snoc (events : list Event) (e : Event) (s : State) :
  run (events ++ [e]) s = (handle e (run events s)).1.
Proof. unfold run. rewrite foldl_app. reflexivity. Qed.

(** X14.  In every state the processor reaches from its constructor by
    screenshot passes, settled searches, forced recalculations, debounce
    callbacks and quality changes, in any order: a search in flight means
    a search has been launched; the force-optimal flag is set only while
    a search is in flight; the pathfinder deadline and the grace period
    are those the constructor computed, and the grace period is not
    negative. *)
Theorem search_flags_invariant :
  ∀ (options : OCRProcessorOptions.t) (events : list Event),
    let s := run events (construct options) in
    (is_Some (inFlightFind s) → launchedAtLeastOnce s = true)
    ∧ (forceOptimal s = true → is_Some (inFlightFind s))
    ∧ pathfinderTimeoutMs s
      = default 20000%Z (OCRProcessorOptions.pathfinderTimeoutMs options)
    ∧ dropGraceMs s = Z.max 0 (default 2000%Z (OCRProcessorOptions.dropGraceMs options))
    ∧ (0 ≤ dropGraceMs s)%Z.
Proof.
  intros options events s.
  assert (searchInvariant options s) as (I1 & I2 & I3 & I4).
  { unfold s. induction events as [|e events IH] using rev_ind.
    - split; [intros [? H]; discriminate H|]. split; [discriminate|]. split; reflexivity.
    - rewrite run_snoc. apply handle_searchInvariant, IH. }
  split; [exact I1|]. split; [exact I2|]. split; [exact I3|]. split; [exact I4|].
  rewrite I4. apply Z.le_max_l.
Qed.

Lemma search_flags_invariant_witness :
  let s :=
    run [Screenshot 0 Mode.full boardOpened; Method (ForceOptimal 5)]
      (construct (OCRProcessorOptions.mk None (Some (-5)%Z) None)) in
  is_Some (inFlightFind s) ∧ launchedAtLeastOnce s = true ∧ dropGraceMs s = 0%Z.
Proof.
  intros s.
  pose proof (search_flags_invariant (OCRProcessorOptions.mk None (Some (-5)%Z) None)
                [Screenshot 0 Mode.full boardOpened; Method (ForceOptimal 5)]) as H.
  cbv zeta in H. fold s in H. destruct H as (H1 & _ & _ & H4 & _).
  assert (is_Some (inFlightFind s)) as Hs by (vm_compute; eauto).
  split; [exact Hs|]. split; [apply H1, Hs|]. rewrite H4. reflexivity.
Defined.

Lemma frame_tablesInvariant (s s' : State) :
  frame s' = frame s → tablesInvariant s → tablesInvariant s'.
Proof.
  intros H. unfold tablesInvariant.
  apply frame_fields in H as (-> & -> & -> & _ & -> & ->). auto.
Qed.

Lemma elem_of_drops_detected (recomputeInFlight boardOpen : bool)
    (optimalBounties : list string) (recent : gmap nat Z) (now : Z)
    (detectedActive : slots) (idx : nat) :
  idx ∈ computeActiveDrops recomputeInFlight boardOpen optimalBounties recent now
          detectedActive →
  slot_has detectedActive idx = true.
Proof.
  destruct recomputeInFlight; [intros H; inversion H|].
  destruct boardOpen; [|intros H; inversion H].
  rewrite elem_of_computeActiveDrops. intros (b & Hin & _).
  unfold lowestExcess in Hin. apply elem_of_take in Hin as (i & Hin & _).
  apply list_elem_of_lookup_2, elem_of_slotsHolding in Hin.
  apply slot_has_get. eauto.
Qed.

Lemma slot_has_updateActive (activeBounties detectedActive : slots) (countDecreased : bool)
    (idx : nat) :
  slot_has detectedActive idx = true →
  slot_has (updateActive activeBounties detectedActive countDecreased) idx = true.
Proof.
  rewrite !slot_has_get. intros [b Hb]. exists b.
  rewrite slot_get_updateActive, Hb. reflexivity.
Qed.

Lemma computeBoardPickups_sorted (boardOpen : bool) (optimalBounties : list string)
    (updatedActive updatedBoard : slots) :
  computeBoardPickups boardOpen optimalBounties updatedActive updatedBoard
    `sublist_of` slot_keys updatedBoard.
Proof.
  destruct boardOpen; [apply computeBoardPickups_spec|apply sublist_nil_l].
Qed.

Lemma tick_tablesInvariant (now : Z) (obs : Observation.t) (s : State) :
  tablesInvariant (processOCRResultsAsync now obs s).1.
Proof.
  destruct (tick_final now obs s) as (_ & o & _ & _ & inflight & HF).
  destruct (Nat.ltb 0 (length o)).
  - apply frame_eq_tuple in HF as (Ha & Hb & Hp & _ & Hd & Hk).
    unfold tablesInvariant. rewrite Ha, Hb, Hp, Hd, Hk.
    split; [reflexivity|]. split; [apply NoDup_computeActiveDrops|].
    split; [|split].
    + eapply sublist_StronglySorted; [apply computeBoardPickups_sorted|].
      apply slot_keys_sorted.
    + intros idx Hin. eapply slot_has_updateActive, elem_of_drops_detected, Hin.
    + intros idx Hin. apply elem_of_slot_keys.
      eapply elem_of_sublist; [exact Hin|apply computeBoardPickups_sorted].
  - apply frame_eq_tuple in HF as (Ha & Hb & Hp & _ & Hd & Hk).
    unfold tablesInvariant. rewrite Ha, Hb, Hp, Hd, Hk.
    split; [reflexivity|]. split; [constructor|]. split; [constructor|].
    split; intros idx H; inversion H.
Qed.

Lemma frame_titleOnly (boardOpen : bool) (s : State) :
  frame (titleOnly boardOpen s) = frame s.
Proof.
  unfold titleOnly. destruct (xorb _ _); [|reflexivity]. destruct (_ && _); reflexivity.
Qed.

Lemma handle_tablesInvariant (e : Event) (s : State) :
  tablesInvariant s → tablesInvariant (handle e s).1.
Proof.
  intros Hinv. destruct e as [now mode screen|[signature outcome|now|now|now|quality]];
    cbn [handle call fst].
  - destruct mode; simpl; try apply tick_tablesInvariant.
    eapply frame_tablesInvariant; [apply frame_titleOnly|exact Hinv].
  - eapply frame_tablesInvariant; [apply settled_search_fields|exact Hinv].
  - unfold forceOptimalRecalculation. destruct (inFlightFind s); [exact Hinv|].
    unfold doForceOptimalRecalculation. cbv zeta.
    eapply frame_tablesInvariant; [|exact Hinv].
    destruct (Nat.ltb 0 _); [rewrite frame_launch|]; reflexivity.
  - unfold doForceOptimalRecalculation. cbv zeta.
    eapply frame_tablesInvariant; [|exact Hinv].
    destruct (Nat.ltb 0 _); [rewrite frame_launch|]; reflexivity.
  - eapply frame_tablesInvariant; [apply debounce_search_fields|exact Hinv].
  - exact Hinv.
Qed.

(** X15.  In every state the processor reaches from its constructor, by
    any sequence of screenshot passes, searches that settle with a route
    or with an error, forced recalculations, debounce callbacks and
    quality changes: the previous active table equals the stored one; no
    slot is listed twice among the drop indicators; the pickup indicators
    are in ascending order; every drop indicator is on an occupied slot
    of the stored active table, and every pickup indicator on an occupied
    slot of the stored board table.  The grace windows are not part of
    this: they are written before the tables are. *)
Theorem indicators_point_at_stored_slots :
  ∀ (options : OCRProcessorOptions.t) (events : list Event),
    let s := run events (construct options) in
    prevActiveBounties s = activeBounties s
    ∧ NoDup (activeDrops s) ∧ StronglySorted lt (boardPickups s)
    ∧ (∀ idx, idx ∈ activeDrops s → slot_has (activeBounties s) idx = true)
    ∧ (∀ idx, idx ∈ boardPickups s → slot_has (boardBounties s) idx = true).
Proof.
  intros options events s. change (tablesInvariant s). unfold s.
  induction events as [|e events IH] using rev_ind.
  - split; [reflexivity|]. split; [constructor|]. split; [constructor|].
    split; intros idx H; inversion H.
  - rewrite run_snoc. apply handle_tablesInvariant, IH.
Qed.

Lemma indicators_point_at_stored_slots_witness :
  let s := run dropTrace (construct defaultOptions) in
  activeDrops s = [0] ∧ slot_has (activeBounties s) 0 = true.
Proof.
  intros s.
  pose proof (indicators_point_at_stored_slots defaultOptions dropTrace) as H.
  cbv zeta in H. fold s in H. destruct H as (_ & _ & _ & Hd & _).
  assert (activeDrops s = [0]) as Hs by (vm_compute; reflexivity).
  split; [exact Hs|]. apply Hd. rewrite Hs. apply list_elem_of_here.
Defined.


(** ** A search that settles after it was superseded *)

Lemma accepts_launch (now : Z) (allBounties : list string) (boardOpen : bool)
    (signature reason : string) (s : State) (r : FindBestResult.t) :
  accepts (launchFindBestIfNeeded now allBounties boardOpen signature reason s).1 r
  = accepts s r.
Proof.
  unfold launchFindBestIfNeeded. destruct (inFlightFind s) as [f|]; [|reflexivity].
  destruct (String.eqb _ _); [reflexivity|]. destruct (Z.ltb _ _); reflexivity.
Qed.

(** X16.  A search of another signature that was replaced as stale keeps
    running.  When it settles afterwards, the record of the newer search
    stays in flight; a result is still judged by the strict-improvement
    rule against the accepted solution, and replaces it when it wins;
    the signature remembered as computed is that of the old search; a
    failure changes neither the accepted solution nor the record. *)
Theorem superseded_search_still_applied :
  ∀ (now : Z) (allBounties : list string) (boardOpen : bool) (signature reason : string)
    (s : State) (f : InFlightFind.t),
    inFlightFind s = Some f →
    InFlightFind.signature f ≠ signature →
    (pathfinderTimeoutMs s + 1000 < now - InFlightFind.startedAtMs f)%Z →
    let s1 := (launchFindBestIfNeeded now allBounties boardOpen signature reason s).1 in
    (∀ r : FindBestResult.t,
       let s2 := onFindBestSettled (InFlightFind.signature f) (Resolved r) s1 in
       inFlightFind s2 = Some (InFlightFind.mk signature now)
       ∧ prevAllBountiesSignature s2 = InFlightFind.signature f
       ∧ (accepts s r = true →
          prevOptimalBounties s2 = FindBestResult.bounties r
          ∧ kp s2 = FindBestResult.kp r
          ∧ distanceSeconds s2 = FindBestResult.distance r)
       ∧ (accepts s r = false →
          prevOptimalBounties s2 = prevOptimalBounties s ∧ kp s2 = kp s
          ∧ distanceSeconds s2 = distanceSeconds s ∧ steps s2 = steps s))
    ∧ (∀ e : PoolError,
         let s2 := onFindBestSettled (InFlightFind.signature f) (Rejected e) s1 in
         inFlightFind s2 = Some (InFlightFind.mk signature now)
         ∧ prevOptimalBounties s2 = prevOptimalBounties s ∧ kp s2 = kp s
         ∧ distanceSeconds s2 = distanceSeconds s ∧ steps s2 = steps s).
Proof.
  intros now allBounties boardOpen signature reason s f Hf Hsig Hstale s1.
  assert (String.eqb signature (InFlightFind.signature f) = false) as Hne
    by (apply String.eqb_neq; congruence).
  assert (String.eqb (InFlightFind.signature f) signature = false) as Hne'
    by (apply String.eqb_neq; congruence).
  assert (∀ r, accepts s1 r = accepts s r) as Hacc by (intros r; apply accepts_launch).
  unfold s1 in *. clear s1. unfold launchFindBestIfNeeded in *.
  rewrite Hf, Hne' in *.
  assert ((pathfinderTimeoutMs s + 1000 <? now - InFlightFind.startedAtMs f)%Z = true)
    as Hlt by (apply Z.ltb_lt, Hstale).
  rewrite Hlt in *. clear Hf Hlt Hstale.
  destruct s as [? ? ? ? ? ? ? ? ? ? rc idx ? ? ? ? inflight ? ? ? ? ? ? ? fo].
  split.
  - intros r. specialize (Hacc r).
    unfold onFindBestSettled, computeFindBest, clearInFlight, applyResult.
    cbn [andThen fst snd startFindBest] in *.
    destruct fo; cbn [forceOptimal set_forceOptimal];
      match goal with |- context [accepts ?S r] =>
        assert (accepts S r = accepts _ r) as HS by exact Hacc; rewrite HS; clear HS
      end;
      (destruct (accepts _ r) eqn:E;
       [unfold acceptResult;
        destruct rc, idx as [|idx], (FindBestResult.actions r) as [|st acts]
       |]; cbn; rewrite Hne; repeat split; intros; try reflexivity; discriminate).
  - intros e. unfold onFindBestSettled, computeFindBest, clearInFlight. cbn.
    rewrite Hne. repeat split.
Qed.

Lemma superseded_search_still_applied_witness :
  let s := set_inFlightFind (Some (InFlightFind.mk "A" 0)) initialState in
  let s1 := (launchFindBestIfNeeded 30000 ["B"] false "B" "boardRefresh" s).1 in
  let s2 := onFindBestSettled "A" (Resolved (FindBestResult.mk ["A"] 30 [] 100)) s1 in
  inFlightFind s2 = Some (InFlightFind.mk "B" 30000) ∧ prevOptimalBounties s2 = ["A"].
Proof.
  intros s s1 s2.
  destruct (superseded_search_still_applied 30000 ["B"] false "B" "boardRefresh" s
              (InFlightFind.mk "A" 0)) as [Hr _];
    [reflexivity|discriminate|vm_compute; reflexivity|].
  destruct (Hr (FindBestResult.mk ["A"] 30 [] 100)) as (H1 & _ & H3 & _).
  split; [exact H1|]. apply H3. vm_compute. reflexivity.
Defined.

(** ** What is shown once a run is completed *)

Lemma orNumber_set (a b : float) :
  (a =? 0)%float = false → is_nan a = false → orNumber a b = a.
Proof. unfold orNumber. intros -> ->. reflexivity. Qed.

Lemma settled_completed_display (signature : string) (outcome : SearchOutcome) (s : State) :
  runCompleted s = true →
  let s' := onFindBestSettled signature outcome s in
  runCompleted s' = true ∧ displaySteps s' = displaySteps s ∧ displayKp s' = displayKp s
  ∧ displayDistanceSeconds s' = displayDistanceSeconds s.
Proof.
  destruct s as [? ? ? ? ? ? ? ? ? ? rc idx ? ? ? ? inflight ? ? ? ? ? ? ? fo].
  cbn [runCompleted]. intros ->.
  unfold onFindBestSettled, computeFindBest, clearInFlight, applyResult, acceptResult.
  destruct outcome as [r|e].
  - destruct fo; cbn [forceOptimal set_forceOptimal];
      match goal with |- context [accepts ?S r] => destruct (accepts S r) end;
      destruct idx as [|idx], (FindBestResult.actions r) as [|st acts], inflight as [f|];
      cbn; try destruct (String.eqb _ _); repeat split.
  - destruct inflight as [f|]; cbn; try destruct (String.eqb _ _); repeat split.
Qed.

Lemma settled_accepted_display (signature : string) (r : FindBestResult.t) (s : State) :
  runCompleted s = false → accepts s r = true →
  let s' := onFindBestSettled signature (Resolved r) s in
  displayKp s' = FindBestResult.kp r
  ∧ displayDistanceSeconds s' = FindBestResult.distance r
  ∧ displaySteps s' = steps s'.
Proof.
  destruct s as [? ? ? ? ? ? ? ? ? ? rc idx ? ? ? ? inflight ? ? ? ? ? ? ? fo].
  cbn [runCompleted]. intros -> Hacc.
  unfold onFindBestSettled, computeFindBest, clearInFlight, applyResult, acceptResult.
  destruct fo; cbn [forceOptimal set_forceOptimal];
    match goal with |- context [accepts ?S r] =>
      assert (accepts S r = true) as HS by exact Hacc; rewrite HS; clear HS
    end;
    destruct idx as [|idx], (FindBestResult.actions r) as [|st acts], inflight as [f|];
    cbn; try destruct (String.eqb _ _); repeat split.
Qed.

(** X17.  Once the run is marked completed, a search that settles,
    whatever its outcome, leaves the mark and the display route, kp and
    time as they were: the kp and time handed to the formatter stay
    those of the completed run while they are set, and the route while
    that is not empty.  While the run is not completed, an accepted
    result puts its kp and time on display and makes the display route
    the stored route; the formatter is then handed the kp of the result
    when that is a number other than zero. *)
Theorem completed_run_keeps_display :
  ∀ (signature : string) (s : State),
    (runCompleted s = true →
     ∀ outcome : SearchOutcome,
       let s' := onFindBestSettled signature outcome s in
       runCompleted s' = true
       ∧ displaySteps s' = displaySteps s ∧ displayKp s' = displayKp s
       ∧ displayDistanceSeconds s' = displayDistanceSeconds s
       ∧ ((displayKp s =? 0)%float = false → is_nan (displayKp s) = false →
          shownKp s' = shownKp s)
       ∧ ((displayDistanceSeconds s =? 0)%float = false →
          is_nan (displayDistanceSeconds s) = false →
          shownDistanceSeconds s' = shownDistanceSeconds s)
       ∧ (displaySteps s ≠ [] → shownSteps s' = shownSteps s))
    ∧ (runCompleted s = false →
       ∀ r : FindBestResult.t,
         accepts s r = true →
         let s' := onFindBestSettled signature (Resolved r) s in
         displayKp s' = FindBestResult.kp r
         ∧ displayDistanceSeconds s' = FindBestResult.distance r
         ∧ displaySteps s' = steps s' ∧ shownSteps s' = steps s'
         ∧ ((FindBestResult.kp r =? 0)%float = false →
            is_nan (FindBestResult.kp r) = false →
            shownKp s' = FindBestResult.kp r)).
Proof.
  intros signature s. split.
  - intros Hrc outcome s'.
    destruct (settled_completed_display signature outcome s Hrc) as (H1 & H2 & H3 & H4).
    fold s' in H1, H2, H3, H4.
    split; [exact H1|]. split; [exact H2|]. split; [exact H3|]. split; [exact H4|].
    split; [|split].
    + intros Hz Hn. unfold shownKp. rewrite H3, !orNumber_set by assumption. reflexivity.
    + intros Hz Hn. unfold shownDistanceSeconds.
      rewrite H4, !orNumber_set by assumption. reflexivity.
    + intros Hne. unfold shownSteps. rewrite H2.
      destruct (displaySteps s) as [|x l]; [congruence|reflexivity].
  - intros Hrc r Hacc s'.
    destruct (settled_accepted_display signature r s Hrc Hacc) as (H1 & H2 & H3).
    fold s' in H1, H2, H3.
    split; [exact H1|]. split; [exact H2|]. split; [exact H3|]. split.
    + unfold shownSteps. rewrite H3. destruct (0 <? _); reflexivity.
    + intros Hz Hn. unfold shownKp. rewrite H1. apply orNumber_set; assumption.
Qed.

Lemma completed_run_keeps_display_witness :
  let done := set_displayKp 30 (set_runCompleted true initialState) in
  let r := FindBestResult.mk ["A"] 45 [sell "A" "Farm" 5] 100 in
  shownKp (onFindBestSettled "A" (Resolved r) done) = 30%float
  ∧ shownKp (onFindBestSettled "A" (Resolved r) initialState) = 45%float
  ∧ shownSteps (onFindBestSettled "A" (Resolved r) initialState) = [sell "A" "Farm" 5].
Proof.
  intros done r.
  destruct (completed_run_keeps_display "A" done) as [Hdone _].
  destruct (completed_run_keeps_display "A" initialState) as [_ Hlive].
  destruct (Hdone eq_refl (Resolved r)) as (_ & _ & _ & _ & Hkp & _).
  destruct (Hlive eq_refl r eq_refl) as (_ & _ & _ & Hsteps & Hkp').
  split; [rewrite Hkp by reflexivity; reflexivity|].
  split; [rewrite Hkp' by reflexivity; reflexivity|].
  rewrite Hsteps. reflexivity.
Defined.

(** ** The rarity table handed to the pool *)

Lemma lookup_addRarities_entries (r : rarities) (entries : list (nat * string))
    (acc : gmap string Rarity) (bounty : string) :
  foldl (λ acc entry,
           match rarity_get r entry.1 with
           | Some x => <[entry.2 := x]> acc
           | None => acc
           end) acc entries !! bounty
  = match last (rated r (holding bounty entries)) with
    | Some x => Some x
    | None => acc !! bounty
    end.
Proof.
  induction entries as [|[i b] entries IH] using rev_ind; [reflexivity|].
  rewrite foldl_app, holding_snoc. unfold rated. rewrite omap_app. cbn [foldl fst snd].
  fold (rated r (holding bounty entries)).
  destruct (decide (b = bounty)) as [->|Hne].
  - change (omap (rarity_get r) [i])
      with (match rarity_get r i with Some x => [x] | None => [] end).
    destruct (rarity_get r i) as [x|].
    + rewrite lookup_insert_eq, last_snoc. reflexivity.
    + rewrite app_nil_r. exact IH.
  - change (omap (rarity_get r) []) with (@nil Rarity).
    rewrite app_nil_r. destruct (rarity_get r i) as [x|].
    + rewrite lookup_insert_ne by exact Hne. exact IH.
    + exact IH.
Qed.

Lemma last_rated_is_Some (r : rarities) (indices : list nat) :
  is_Some (last (rated r indices)) ↔ ∃ idx, idx ∈ indices ∧ is_Some (rarity_get r idx).
Proof.
  unfold rated. split.
  - intros [x Hx]. apply last_Some_elem_of, list_elem_of_omap in Hx as (idx & Hin & Hr).
    exists idx. split; [exact Hin|]. rewrite Hr. eauto.
  - intros (idx & Hin & [x Hx]).
    assert (x ∈ omap (rarity_get r) indices) as Hel
      by (apply list_elem_of_omap; eauto).
    destruct (omap (rarity_get r) indices) as [|y l] using rev_ind;
      [inversion Hel|]. rewrite last_snoc. eauto.
Qed.

(** X18.  In the table of rarities by bounty that a search is given, a
    bounty has the rarity read for the highest board slot that holds it
    and has a rarity read; when no such board slot exists, that of the
    highest such inventory slot.  A bounty is in the table exactly when
    some slot of either table holds it and has a rarity read. *)
Theorem board_rarity_overrides_inventory :
  ∀ (activeBounties : slots) (activeBountyRarities : rarities) (boardBounties : slots)
    (boardBountyRarities : rarities) (bounty : string),
    let table :=
      bountyRarities activeBounties activeBountyRarities boardBounties
        boardBountyRarities in
    table !! bounty
    = match last (rated boardBountyRarities (slotsHolding bounty boardBounties)) with
      | Some x => Some x
      | None => last (rated activeBountyRarities (slotsHolding bounty activeBounties))
      end
    ∧ (is_Some (table !! bounty)
       ↔ ∃ idx, (slot_get activeBounties idx = Some bounty
                 ∧ is_Some (rarity_get activeBountyRarities idx))
                ∨ (slot_get boardBounties idx = Some bounty
                   ∧ is_Some (rarity_get boardBountyRarities idx))).
Proof.
  intros a ra b rb bounty table.
  assert (table !! bounty
          = match last (rated rb (slotsHolding bounty b)) with
            | Some x => Some x
            | None => last (rated ra (slotsHolding bounty a))
            end) as Heq.
  { unfold table, bountyRarities, addRarities, slotsHolding.
    rewrite !lookup_addRarities_entries, lookup_empty.
    destruct (last (rated rb _)); [reflexivity|].
    destruct (last (rated ra _)); reflexivity. }
  split; [exact Heq|]. rewrite Heq. split.
  - intros H.
    destruct (last (rated rb (slotsHolding bounty b))) as [x|] eqn:Eb.
    + assert (is_Some (last (rated rb (slotsHolding bounty b)))) as Hs by (rewrite Eb; eauto).
      apply last_rated_is_Some in Hs as (idx & Hin & Hr).
      exists idx. right. split; [apply elem_of_slotsHolding, Hin|exact Hr].
    + apply last_rated_is_Some in H as (idx & Hin & Hr).
      exists idx. left. split; [apply elem_of_slotsHolding, Hin|exact Hr].
  - intros (idx & [[Hin Hr]|[Hin Hr]]).
    + destruct (last (rated rb (slotsHolding bounty b))); [eauto|].
      apply last_rated_is_Some. exists idx.
      split; [apply elem_of_slotsHolding, Hin|exact Hr].
    + assert (is_Some (last (rated rb (slotsHolding bounty b)))) as [x ->]; [|eauto].
      apply last_rated_is_Some. exists idx.
      split; [apply elem_of_slotsHolding, Hin|exact Hr].
Qed.


(** ** The board-open flag and the loop *)

Lemma boardOpen_launch (now : Z) (allBounties : list string) (boardOpen : bool)
    (signature reason : string) (s : State) :
  prevBoardOpenSignature (launchFindBestIfNeeded now allBounties boardOpen signature reason s).1
  = prevBoardOpenSignature s.
Proof.
  unfold launchFindBestIfNeeded. destruct (inFlightFind s) as [f|]; [|reflexivity].
  destruct (String.eqb _ _); [reflexivity|]. destruct (Z.ltb _ _); reflexivity.
Qed.

Lemma boardOpen_checkStepsConsistency (now : Z) (activeBounties : slots) (boardOpen : bool)
    (s : State) :
  prevBoardOpenSignature (checkStepsConsistency now activeBounties boardOpen s).1
  = prevBoardOpenSignature s.
Proof.
  unfold checkStepsConsistency. cbv zeta. split_ifs; try reflexivity.
  rewrite boardOpen_launch. reflexivity.
Qed.

Lemma boardOpen_sanityCheck (now : Z) (detectedActive : slots) (s : State) :
  prevBoardOpenSignature (sanityCheck now detectedActive s).1 = prevBoardOpenSignature s.
Proof.
  unfold sanityCheck. cbv zeta. split_ifs; try reflexivity.
  rewrite boardOpen_launch. reflexivity.
Qed.

Lemma boardOpen_handleCompletion (now : Z) (obs : Observation.t) (prevActiveCount
    currActiveCount : nat) (completedBounty : option string) (s : State) :
  prevBoardOpenSignature
    (handleCompletion now obs prevActiveCount currActiveCount completedBounty s).1
  = prevBoardOpenSignature s.
Proof.
  unfold handleCompletion. destruct (truthy _ && negb _); [|reflexivity].
  rewrite boardOpen_sanityCheck. destruct (findSellIndex _ _); reflexivity.
Qed.

Lemma boardOpen_withOptimal (now : Z) (obs : Observation.t) (updatedBoard : slots)
    (s : State) :
  prevBoardOpenSignature (withOptimal now obs updatedBoard s).1 = prevBoardOpenSignature s.
Proof.
  unfold withOptimal. cbv zeta. rewrite !fst_andThen, boardOpen_checkStepsConsistency.
  cbn [prevBoardOpenSignature set_boardPickups set_prevActiveBounties set_boardBounties
         set_activeBounties].
  unfold handleAllCompleted.
  match goal with |- context [if ?c then set_runCompleted _ _ else _] => destruct c end.
  - change (prevBoardOpenSignature (set_runCompleted true (set_steps [] (clearAccepted ?S))))
      with (prevBoardOpenSignature S).
    rewrite boardOpen_handleCompletion. destruct (_ && Observation.boardOpen obs); reflexivity.
  - rewrite boardOpen_handleCompletion. destruct (_ && Observation.boardOpen obs); reflexivity.
Qed.

Lemma tick_boardOpen (now : Z) (obs : Observation.t) (s : State) :
  prevBoardOpenSignature (processOCRResultsAsync now obs s).1 = Observation.boardOpen obs.
Proof.
  unfold processOCRResultsAsync. cbv zeta. rewrite !fst_andThen.
  match goal with |- context [if ?c then _ else _] =>
    match c with negb _ => destruct c end end.
  - reflexivity.
  - rewrite boardOpen_withOptimal. reflexivity.
Qed.

Lemma tick_closed (now : Z) (obs : Observation.t) (s : State) :
  Observation.boardOpen obs = false → Observation.detectedBoard obs = [] →
  let s' := (processOCRResultsAsync now obs s).1 in
  boardBounties s' = [] ∧ boardPickups s' = [] ∧ activeDrops s' = [].
Proof.
  intros Hclosed Hboard s'.
  destruct (tick_final now obs s) as (_ & o & _ & _ & inflight & HF).
  fold s' in HF. rewrite Hclosed in HF.
  destruct (Nat.ltb 0 (length o));
    apply frame_eq_tuple in HF as (_ & Hb & _ & _ & Hd & Hk).
  - split; [|split].
    + rewrite Hb. unfold updateBoard. rewrite Hclosed. reflexivity.
    + rewrite Hk. reflexivity.
    + rewrite Hd. apply computeActiveDrops_closed.
  - rewrite Hb, Hk, Hd, Hboard. auto.
Qed.

Lemma pass_closedInvariant (screenshot : Capture.t) (mode : Mode.t) (s : State) :
  mode ≠ Mode.title_only → closedInvariant (pass screenshot mode s).1.
Proof.
  intros Hmode. unfold closedInvariant, pass.
  assert (processScreenshot (Capture.now screenshot) mode (Capture.screen screenshot) s
          = processOCRResultsAsync (Capture.now screenshot)
              (keysToOCR mode (Capture.screen screenshot)) s) as ->
    by (destruct mode; [reflexivity|reflexivity|congruence]).
  rewrite tick_boardOpen. intros Hclosed. apply tick_closed; [exact Hclosed|].
  unfold keysToOCR in *. cbv zeta in *.
  destruct mode, (Observation.boardOpen (Capture.screen screenshot)) eqn:E;
    cbn in Hclosed |- *; congruence.
Qed.

Lemma call_fields (c : Call) (s : State) :
  frame (call c s).1 = frame s
  ∧ prevBoardOpenSignature (call c s).1 = prevBoardOpenSignature s.
Proof.
  destruct c as [signature outcome|now|now|now|quality]; cbn [call fst].
  - split; [apply settled_search_fields|].
    destruct s as [? ? ? ? ? ? ? ? ? ? rc idx ? ? ? ? inflight ? ? ? ? ? ? ? fo].
    unfold onFindBestSettled, computeFindBest, clearInFlight, applyResult, acceptResult.
    destruct outcome as [r|e].
    + destruct fo; cbn [forceOptimal set_forceOptimal];
        match goal with |- context [accepts ?S r] => destruct (accepts S r) end;
        destruct rc, idx as [|idx], (FindBestResult.actions r) as [|st acts],
          inflight as [f|];
        cbn; try destruct (String.eqb _ _); reflexivity.
    + destruct inflight as [f|]; cbn; try destruct (String.eqb _ _); reflexivity.
  - unfold forceOptimalRecalculation. destruct (inFlightFind s); [split; reflexivity|].
    unfold doForceOptimalRecalculation. cbv zeta.
    destruct (Nat.ltb 0 _); [rewrite frame_launch, boardOpen_launch|]; split; reflexivity.
  - unfold doForceOptimalRecalculation. cbv zeta.
    destruct (Nat.ltb 0 _); [rewrite frame_launch, boardOpen_launch|]; split; reflexivity.
  - split; [apply debounce_search_fields|].
    unfold onAdjustmentDebounce. cbv zeta. cbn [fst].
    destruct (Nat.ltb 0 _); [|reflexivity].
    change (prevBoardOpenSignature (set_adjustmentDebounceTimer false ?S))
      with (prevBoardOpenSignature S).
    rewrite boardOpen_launch. reflexivity.
  - split; reflexivity.
Qed.

Lemma calls_fields (cs : list Call) (s : State) :
  frame (calls cs s).1 = frame s
  ∧ prevBoardOpenSignature (calls cs s).1 = prevBoardOpenSignature s.
Proof.
  unfold calls. induction cs as [|c cs IH] using rev_ind; [split; reflexivity|].
  rewrite foldl_app. cbn [foldl]. rewrite fst_andThen.
  destruct (call_fields c (foldl (λ r c, andThen r (call c)) (s, []) cs).1) as [-> ->].
  exact IH.
Qed.

Lemma closedInvariant_fields (s s' : State) :
  frame s' = frame s → prevBoardOpenSignature s' = prevBoardOpenSignature s →
  closedInvariant s → closedInvariant s'.
Proof.
  intros HF HB. unfold closedInvariant. rewrite HB.
  apply frame_fields in HF as (_ & -> & _ & _ & -> & ->). auto.
Qed.

Lemma titleOnly_closedInvariant (boardOpen : bool) (s : State) :
  prevBoardOpenSignature s = false → closedInvariant s →
  closedInvariant (titleOnly boardOpen s).
Proof.
  intros Hwas Hinv. unfold titleOnly. rewrite Hwas, xorb_false_r.
  destruct boardOpen; [|exact Hinv].
  intros Hclosed. exfalso. destruct (true && runCompleted s); discriminate Hclosed.
Qed.

Section LoopInvariant.

Variable ACTIVE_BOUNTY_INTERVAL_MS : Z.

Lemma iteration_closedInvariant (turn : Turn) (m : ScreenshotManager.t) :
  closedInvariant (ScreenshotManager.ocrProcessor m) →
  closedInvariant
    (ScreenshotManager.ocrProcessor (iteration ACTIVE_BOUNTY_INTERVAL_MS turn m).1).
Proof.
  intros Hinv. unfold iteration. cbv zeta.
  destruct (isPathfinding _); [exact Hinv|].
  destruct (capture turn) as [screenshot|]; [|exact Hinv].
  set (p := ScreenshotManager.ocrProcessor m) in *.
  set (mode := chooseMode _ _ _ _).
  destruct (calls_fields (during turn) p) as [HF HB].
  assert (closedInvariant (calls (during turn) p).1) as Hinv'
    by (eapply closedInvariant_fields; eassumption).
  assert (closedInvariant
            (andThen (calls (during turn) p) (pass screenshot mode)).1) as Hpass.
  { rewrite fst_andThen.
    destruct mode eqn:Hm; [apply pass_closedInvariant; discriminate
                          |apply pass_closedInvariant; discriminate|].
    unfold pass. cbn [processScreenshot fst].
    apply titleOnly_closedInvariant; [|exact Hinv'].
    rewrite HB. unfold mode, chooseMode in Hm. cbv zeta in Hm.
    destruct (prevBoardOpenSignature p); [discriminate Hm|reflexivity]. }
  destruct (andThen (calls (during turn) p) (pass screenshot mode)) as [p1 es] eqn:E1.
  cbn [fst] in Hpass.
  destruct (negb (prevBoardOpenSignature p) && prevBoardOpenSignature p1);
    [|exact Hpass].
  destruct (capture2 turn) as [screenshot2|]; [|exact Hpass].
  destruct (andThen (calls (during2 turn) p1) (pass screenshot2 Mode.full))
    as [p2 es2] eqn:E2.
  cbn [fst ScreenshotManager.ocrProcessor].
  change p2 with (p2, es2).1. rewrite <- E2, fst_andThen.
  apply pass_closedInvariant. discriminate.
Qed.

Lemma act_closedInvariant (a : Activity) (m : ScreenshotManager.t) :
  closedInvariant (ScreenshotManager.ocrProcessor m) →
  closedInvariant (ScreenshotManager.ocrProcessor (act ACTIVE_BOUNTY_INTERVAL_MS a m).1).
Proof.
  intros Hinv. destruct a as [turn|c]; cbn [act].
  - apply iteration_closedInvariant, Hinv.
  - destruct (call_fields c (ScreenshotManager.ocrProcessor m)) as [HF HB].
    destruct (call c (ScreenshotManager.ocrProcessor m)) as [p es].
    cbn [fst ScreenshotManager.ocrProcessor] in *.
    eapply closedInvariant_fields; eassumption.
Qed.

End LoopInvariant.

(** X19.  Whatever the screenshot loop captures, and whatever calls reach
    the processor while it waits or sleeps: whenever the processor takes
    the board for closed, it stores no board bounty and shows neither an
    ACCEPT nor a DROP indicator. *)
Theorem closed_board_shows_no_indicator :
  ∀ (ACTIVE_BOUNTY_INTERVAL_MS : Z) (options : OCRProcessorOptions.t)
    (activities : list Activity),
    let m := runLoop ACTIVE_BOUNTY_INTERVAL_MS activities (startManager options) in
    let s := ScreenshotManager.ocrProcessor m in
    (prevBoardOpenSignature s = false →
     boardBounties s = [] ∧ boardPickups s = [] ∧ activeDrops s = []).
Proof.
  intros interval options activities m s.
  change (closedInvariant s). unfold s, m, runLoop.
  induction activities as [|a activities IH] using rev_ind.
  - intros _. repeat split.
  - rewrite foldl_app. cbn [foldl]. apply act_closedInvariant, IH.
Qed.

Lemma closed_board_shows_no_indicator_witness :
  let before :=
    ScreenshotManager.ocrProcessor (runLoop 5000 openThenSettle (startManager defaultOptions)) in
  let s :=
    ScreenshotManager.ocrProcessor (runLoop 5000 openSettleClose (startManager defaultOptions)) in
  boardBounties before = [Some "B"]
  ∧ prevBoardOpenSignature s = false
  ∧ boardBounties s = [] ∧ boardPickups s = [] ∧ activeDrops s = [].
Proof.
  intros before s. split; [vm_compute; reflexivity|].
  split; [vm_compute; reflexivity|].
  apply (closed_board_shows_no_indicator 5000 defaultOptions openSettleClose).
  vm_compute. reflexivity.
Defined.


(** ** The first pass and a board transition *)








(** ** Session statistics *)

Lemma counts_get_set (key key' : string) (value : nat) (m : list (string * nat)) :
  counts_get key' (counts_set key value m)
  = if decide (key' = key) then Some value else counts_get key' m.
Proof.
  induction m as [|[k v] m IH]; cbn [counts_set counts_get].
  - destruct (String.eqb_spec key key'), (decide (key' = key)); congruence.
  - destruct (String.eqb_spec k key) as [->|Hk]; cbn [counts_get].
    + destruct (String.eqb_spec key key'), (decide (key' = key)); congruence.
    + destruct (String.eqb_spec k key'); [|exact IH].
      destruct (decide (key' = key)); congruence.
Qed.

Lemma counts_get_None (key : string) (m : list (string * nat)) :
  counts_get key m = None ↔ key ∉ m.*1.
Proof.
  induction m as [|[k v] m IH]; cbn [counts_get].
  - split; [intros _ H; inversion H|reflexivity].
  - rewrite fmap_cons, not_elem_of_cons. cbn [fst].
    destruct (String.eqb_spec k key); [split; [discriminate|intros [? _]; congruence]|].
    rewrite IH. split; [intros ?; split; congruence|intros [_ ?]; assumption].
Qed.

Lemma counts_set_keys (key : string) (value : nat) (m : list (string * nat)) :
  (counts_set key value m).*1
  = if decide (key ∈ m.*1) then m.*1 else m.*1 ++ [key].
Proof.
  induction m as [|[k v] m IH]; cbn [counts_set].
  - rewrite decide_False by (intros H; inversion H). reflexivity.
  - rewrite !fmap_cons. cbn [fst]. destruct (String.eqb_spec k key) as [->|Hk].
    + rewrite decide_True by apply list_elem_of_here. reflexivity.
    + rewrite fmap_cons, IH. cbn [fst].
      destruct (decide (key ∈ m.*1)) as [Hin|Hin].
      * rewrite decide_True by (apply list_elem_of_further, Hin). reflexivity.
      * rewrite decide_False; [reflexivity|].
        intros H. apply elem_of_cons in H as [?|?]; congruence.
Qed.

Lemma counts_set_sum (key : string) (value : nat) (m : list (string * nat)) :
  sum_list (counts_set key value m).*2 + default 0 (counts_get key m)
  = sum_list m.*2 + value.
Proof.
  induction m as [|[k v] m IH]; cbn [counts_set counts_get].
  - simpl. lia.
  - destruct (String.eqb_spec k key) as [->|Hk].
    + rewrite !fmap_cons. simpl. lia.
    + rewrite !fmap_cons. cbn [snd]. change (sum_list (?x :: ?l)) with (x + sum_list l).
      lia.
Qed.

Lemma count_of_snoc (bounty b : string) (l : list string) :
  count_of bounty (l ++ [b])
  = count_of bounty l + if decide (b = bounty) then 1 else 0.
Proof.
  unfold count_of. rewrite filter_app, length_app, filter_cons.
  destruct (decide (b = bounty)); reflexivity.
Qed.

Lemma count_of_zero (bounty : string) (l : list string) :
  bounty ∉ l → count_of bounty l = 0.
Proof.
  intros H. unfold count_of.
  destruct (filter (λ b, b = bounty) l) as [|x l'] eqn:E; [reflexivity|].
  assert (x ∈ filter (λ b, b = bounty) l) as Hin by (rewrite E; apply list_elem_of_here).
  apply list_elem_of_filter in Hin as [-> Hin]. contradiction.
Qed.

(** X21.  Whatever completions of bounties and of runs the session
    tracker records from a new session, in any order: the total counts
    the bounty completions; the breakdown lists each completed bounty
    once, with the number of its completions, and no other; and the
    counts of the breakdown add up to the total. *)
Theorem session_counts_every_completion :
  ∀ (baseKp : string → float) (records : list TrackerCall),
    let stats := foldl (track baseKp) newSession records in
    let completed := completedBounties records in
    SessionStats.totalBountiesCompleted stats = length completed
    ∧ NoDup (SessionStats.bountyTypeCounts stats).*1
    ∧ (∀ bounty,
         counts_get bounty (SessionStats.bountyTypeCounts stats)
         = if decide (bounty ∈ completed) then Some (count_of bounty completed) else None)
    ∧ sum_list (SessionStats.bountyTypeCounts stats).*2
      = SessionStats.totalBountiesCompleted stats.
Proof.
  intros baseKp records. cbv zeta.
  induction records as [|r records IH] using rev_ind.
  - split; [reflexivity|]. split; [constructor|]. split; [|reflexivity].
    intros bounty. rewrite decide_False by (intros H; inversion H). reflexivity.
  - destruct IH as (Htotal & Hnd & Hget & Hsum).
    rewrite foldl_app. unfold completedBounties in *. rewrite omap_app. cbn [foldl].
    set (stats := foldl (track baseKp) newSession records) in *.
    set (completed := omap _ records) in *.
    destruct r as [b rarity|actual]; cbn [track];
      [|change (omap _ [RunCompleted actual]) with (@nil string); rewrite app_nil_r; auto].
    change (omap _ [BountyCompleted b rarity]) with [b].
    unfold recordBountyCompletion.
    cbn [SessionStats.totalBountiesCompleted SessionStats.bountyTypeCounts].
    split; [rewrite length_app, Htotal; reflexivity|]. split; [|split].
    + rewrite counts_set_keys. destruct (decide _) as [Hin|Hin]; [exact Hnd|].
      apply NoDup_app. split; [exact Hnd|]. split; [|apply NoDup_singleton].
      intros x Hx Hx'. apply list_elem_of_singleton in Hx'. subst x. contradiction.
    + intros bounty. rewrite counts_get_set, count_of_snoc.
      destruct (decide (bounty = b)) as [->|Hne].
      * rewrite decide_True by (apply elem_of_app; right; apply list_elem_of_here).
        rewrite decide_True by reflexivity. rewrite Hget.
        destruct (decide (b ∈ completed)) as [Hin|Hin]; [reflexivity|].
        rewrite count_of_zero by exact Hin. reflexivity.
      * rewrite (decide_False (P := b = bounty)) by congruence.
        rewrite Nat.add_0_r, Hget.
        destruct (decide (bounty ∈ completed)) as [Hin|Hin].
        -- rewrite decide_True by (apply elem_of_app; left; exact Hin). reflexivity.
        -- rewrite decide_False; [reflexivity|].
           intros H. apply elem_of_app in H as [H|H]; [contradiction|].
           apply list_elem_of_singleton in H. contradiction.
    + pose proof (counts_set_sum b
                    (default 0 (counts_get b (SessionStats.bountyTypeCounts stats)) + 1)
                    (SessionStats.bountyTypeCounts stats)) as H.
      lia.
Qed.
